(** * Mesh-preview-poc: mesh volume, footprint hull and base fill

    A shallow embedding of [src/utils/volumeCalculator.js] and
    [src/utils/baseFill.js], with the properties of the geometric core;
    then of the statistics [src/components/IFCViewer.jsx] reports and of
    the geometry [src/utils/ifcLoader.js] builds, which use that core.

    Numbers.  The code computes on JavaScript numbers, IEEE 754 binary64,
    and the core is embedded twice.  Part III ([Double]) has it on the
    doubles themselves: every operation rounds, in the order the source
    writes it, and NaN, the infinities and the signed zeros are values.
    Part I reads the same code on exact rationals [Q], the numbers it
    would compute without rounding.  What value the code returns is
    stated and proved on the doubles (Part VI), where the exact reading
    and the code part ways: a sum is the rounded running sum, not the sum;
    a cross product that rounds to 0 drops a corner of the hull.  Parts IV
    and V state on the exact reading what does not turn on rounding:
    which return is taken, which cells of a buffer are read and written,
    how the loops walk them.  The hull builder on doubles and its exact
    reading agree when rounding changes none of the builder's decisions
    ([exactDecisions], [computeConvexHull2D_toQ2]).

    The one non-number the buffers of the core can hold is [undefined],
    read from a typed array past its end; arithmetic turns it into [NaN],
    which absorbs every later operation.  Both are [None], in [option Q]
    and in [option float]; a NaN that double arithmetic produces from
    numbers is a [float].

    Library calls.  The world transform of three.js is a parameter
    ([WorldTransform]).  [Math.atan2] is used only to order directions.
    On exact numbers the comparison is [atan2Compare], shown to be the
    comparison of the real arctangents ([atan2Compare_exact]).  On
    doubles [Math.atan2] is a parameter ([Double.MathAtan2]): ECMA-262
    leaves its values to the engine.  The examples run with
    [Double.principalAtan2], which has the three values every engine
    agrees on and the examples need.  [Array.prototype.sort] is an
    insertion sort, stable as the standard requires; on exact numbers any
    sort gives the same points in the same order ([any_sort_agrees]).

    Effects.  [computeConvexHull2D] writes to the array it is given, so its
    embedding returns the array next to the hull.  three.js resolves the
    world matrices again while [loadIFC] runs, so [reportStats] takes the
    model before and after.  Everything else is a function of its
    arguments. *)

From Stdlib Require Import QArith Qabs Qminmax Lia.
From Stdlib Require Import List Permutation Sorted Bool Arith PeanoNat.
From Stdlib Require Import Reals ROrderedType Qreals Psatz.
From Stdlib Require Import Floats.
Import ListNotations.

Set Implicit Arguments.
Set Warnings "-inexact-float".
Open Scope Q_scope.

(* ================================================================== *)
(** * Part I: the program                                              *)
(* ================================================================== *)

(** ** JavaScript values *)

(** A number that may be [NaN] (or an [undefined] about to become one). *)
Definition num := option Q.

Definition bind {A B : Type} (m : option A) (f : A -> option B) : option B :=
  match m with
  | Some a => f a
  | None => None
  end.

Notation "x <- m ;; k" := (bind m (fun x => k))
  (at level 61, m at next level, right associativity).

(** Equality of numbers: [NaN] results are identified, rationals are
    compared by value. *)
Definition num_eq (a b : num) : Prop :=
  match a, b with
  | Some p, Some q => p == q
  | None, None => True
  | _, _ => False
  end.

Definition num_abs (a : num) : num := option_map Qabs a.

(** ** The three.js data the core touches *)

Record Vector3 := Vec3 { x3 : Q; y3 : Q; z3 : Q }.
Record Vector2 := Vec2 { vx : Q; vy : Q }.

(** [Vector3.crossVectors] and [Vector3.dot]. *)
Definition crossVectors (a b : Vector3) : Vector3 :=
  Vec3 (y3 a * z3 b - z3 a * y3 b)
       (z3 a * x3 b - x3 a * z3 b)
       (x3 a * y3 b - y3 a * x3 b).

Definition dot (a b : Vector3) : Q :=
  x3 a * x3 b + y3 a * y3 b + z3 a * z3 b.

(** The world transform is three.js's business: the core only calls
    [v.applyMatrix4(worldMatrix)].  Any type of matrices with such an
    action will do. *)
Class WorldTransform (M : Type) := applyMatrix4 : Vector3 -> M -> Vector3.

(** The 4x4 column-major matrix of three.js, for running examples.  The
    exact reading is for affine matrices, as world matrices are: there the
    divisor [w] is 1.  With [w = 0] three.js divides by zero and returns
    infinities or NaN ([Double.Matrix4_transform] does); [/ 0] is [0] in
    [Q]. *)
Record Matrix4 := Mat4 { elements : list Q }.

Definition el (m : Matrix4) (i : nat) : Q := nth i (elements m) 0.

#[export] Instance Matrix4_transform : WorldTransform Matrix4 := fun v m =>
  let w := / (el m 3 * x3 v + el m 7 * y3 v + el m 11 * z3 v + el m 15) in
  Vec3 ((el m 0 * x3 v + el m 4 * y3 v + el m 8 * z3 v + el m 12) * w)
       ((el m 1 * x3 v + el m 5 * y3 v + el m 9 * z3 v + el m 13) * w)
       ((el m 2 * x3 v + el m 6 * y3 v + el m 10 * z3 v + el m 14) * w).

Definition identity4 : Matrix4 :=
  Mat4 [1; 0; 0; 0;  0; 1; 0; 0;  0; 0; 1; 0;  0; 0; 0; 1].

(** A [BufferGeometry]: the [position] attribute (one [Vector3] per
    vertex, [count] is its length) and the optional index buffer. *)
Record BufferGeometry := Geometry {
  position : option (list Vector3);
  index : option (list nat)
}.

(** [BufferAttribute.getX] and friends read a typed array: past the end
    the read is [undefined]. *)
Definition getX (attr : list Vector3) (i : nat) : num := option_map x3 (nth_error attr i).
Definition getY (attr : list Vector3) (i : nat) : num := option_map y3 (nth_error attr i).
Definition getZ (attr : list Vector3) (i : nat) : num := option_map z3 (nth_error attr i).

(** [index.getX(i)]: an integer, or [undefined] past the end. *)
Definition getIndex (idx : list nat) (i : nat) : option nat := nth_error idx i.

(** An [Object3D] of the scene graph, with its world matrix resolved
    ([updateWorldMatrix] is three.js's). *)
#[warnings="-register-all"]
Inductive Object3D (M : Type) : Type :=
  Node : bool -> option BufferGeometry -> M -> list (Object3D M) -> Object3D M.

Arguments Node {M} _ _ _ _.

Definition isMesh {M} (o : Object3D M) : bool := let 'Node b _ _ _ := o in b.
Definition geometry {M} (o : Object3D M) : option BufferGeometry := let 'Node _ g _ _ := o in g.
Definition matrixWorld {M} (o : Object3D M) : M := let 'Node _ _ m _ := o in m.
Definition children {M} (o : Object3D M) : list (Object3D M) := let 'Node _ _ _ c := o in c.

(** [Object3D.traverse]: the node, then each child's subtree, in order. *)
Fixpoint traverse {M} (o : Object3D M) : list (Object3D M) :=
  match o with
  | Node _ _ _ cs => o :: flat_map traverse cs
  end.

(** ** volumeCalculator.js *)

(** [signedVolumeOfTriangle]: the tetrahedron spanned with the origin. *)
Definition signedVolumeOfTriangle (v0 v1 v2 : Vector3) : Q :=
  dot v0 (crossVectors v1 v2) / 6.

(** [v.set(position.getX(i), position.getY(i), position.getZ(i))]. *)
Definition vertexAt (pos : list Vector3) (i : nat) : option Vector3 :=
  a <- getX pos i ;; b <- getY pos i ;; c <- getZ pos i ;; Some (Vec3 a b c).

(** [for (let i = 0; i < count; i += 3) volume = body i volume].
    The counter grows by 3, so [count] rounds are never used up before
    the guard fails: with [fuel = count] the last line is reached only
    when [i >= count]. *)
Fixpoint forStep3 (fuel i count : nat) (body : nat -> num -> num) (volume : num) : num :=
  match fuel with
  | O => volume
  | S fuel' =>
      if (i <? count)%nat
      then forStep3 fuel' (i + 3) count body (body i volume)
      else volume
  end.

Section VolumeCalculator.
Context {M : Type} {WT : WorldTransform M}.

(** Body of the loop over an indexed geometry. *)
Definition indexedBody (pos : list Vector3) (idx : list nat) (worldMatrix : M)
    (i : nat) (volume : num) : num :=
  vol <- volume ;;
  i0 <- getIndex idx i ;;
  i1 <- getIndex idx (i + 1) ;;
  i2 <- getIndex idx (i + 2) ;;
  v0 <- vertexAt pos i0 ;;
  v1 <- vertexAt pos i1 ;;
  v2 <- vertexAt pos i2 ;;
  Some (vol + signedVolumeOfTriangle (applyMatrix4 v0 worldMatrix)
                                     (applyMatrix4 v1 worldMatrix)
                                     (applyMatrix4 v2 worldMatrix)).

(** Body of the loop over a non-indexed geometry. *)
Definition plainBody (pos : list Vector3) (worldMatrix : M)
    (i : nat) (volume : num) : num :=
  vol <- volume ;;
  v0 <- vertexAt pos i ;;
  v1 <- vertexAt pos (i + 1) ;;
  v2 <- vertexAt pos (i + 2) ;;
  Some (vol + signedVolumeOfTriangle (applyMatrix4 v0 worldMatrix)
                                     (applyMatrix4 v1 worldMatrix)
                                     (applyMatrix4 v2 worldMatrix)).

Definition calculateMeshVolume (mesh : Object3D M) : num :=
  match geometry mesh with
  | None => Some 0
  | Some g =>
      let worldMatrix := matrixWorld mesh in
      match position g with
      | None => Some 0
      | Some pos =>
          match index g with
          | Some idx =>
              forStep3 (length idx) 0 (length idx) (indexedBody pos idx worldMatrix) (Some 0)
          | None =>
              forStep3 (length pos) 0 (length pos) (plainBody pos worldMatrix) (Some 0)
          end
      end
  end.
End VolumeCalculator.

(** [countGeometryStats]: [Math.floor] of a third of the count. *)
Record GeometryStats := Stats { vertices : nat; triangles : nat }.

Definition countGeometryStats (g : BufferGeometry) : GeometryStats :=
  match position g with
  | None => Stats 0%nat 0%nat
  | Some pos =>
      let vertices := length pos in
      let triangles :=
        match index g with
        | Some idx => (length idx / 3)%nat
        | None => (vertices / 3)%nat
        end in
      Stats vertices triangles
  end.

(** ** baseFill.js *)

(** [a < b] on numbers. *)
Definition Qltb (a b : Q) : bool :=
  match a ?= b with
  | Lt => true
  | _ => false
  end.

(** [points[i]] for an index within the array; every read of the hull
    builder and of the area loop is. *)
Definition origin2 : Vector2 := Vec2 0 0.
Definition at2 (points : list Vector2) (i : nat) : Vector2 := nth i points origin2.

(** [points[i] = v] for an index within the array. *)
Fixpoint update (points : list Vector2) (i : nat) (v : Vector2) : list Vector2 :=
  match points, i with
  | [], _ => []
  | _ :: rest, O => v :: rest
  | p :: rest, S k => p :: update rest k v
  end.

(** The guard that moves [start]: lower [y], or the same [y] and lower [x]. *)
Definition lowerLeft (p q : Vector2) : bool :=
  Qltb (vy p) (vy q) || (Qeq_bool (vy p) (vy q) && Qltb (vx p) (vx q)).

(** [for (let i = 1; i < points.length; i++) if (...) start = i]. *)
Definition findStart (points : list Vector2) : nat :=
  fold_left (fun start i => if lowerLeft (at2 points i) (at2 points start) then i else start)
            (seq 1 (length points - 1)) 0%nat.

(** [[points[0], points[start]] = [points[start], points[0]]]: the right
    side is read first, then the two cells are written in turn. *)
Definition swapToFront (points : list Vector2) (start : nat) : list Vector2 :=
  let a := at2 points start in
  let b := at2 points 0 in
  update (update points 0 a) start b.

(** [Math.atan2] is not computed: only the order of two angles is used,
    and on exact numbers that order is decided by the half plane of each
    direction and, within one open half plane, by the sign of the cross
    product ([atan2Compare_exact] below).  [atan2Class] splits the range
    (-pi, pi]: 0 for (-pi, 0), 1 for the angle 0 (the zero vector
    included), 2 for (0, pi), 3 for pi. *)
Definition atan2Class (dy dx : Q) : nat :=
  match (dy ?= 0)%Q with
  | Lt => 0%nat
  | Gt => 2%nat
  | Eq => match (dx ?= 0)%Q with Lt => 3%nat | _ => 1%nat end
  end.

(** Sign of [Math.atan2(ya, xa) - Math.atan2(yb, xb)]. *)
Definition atan2Compare (ya xa yb xb : Q) : comparison :=
  match Nat.compare (atan2Class ya xa) (atan2Class yb xb) with
  | Eq =>
      match atan2Class ya xa with
      | 1%nat | 3%nat => Eq
      | _ => ya * xb ?= xa * yb
      end
  | c => c
  end.

(** The comparator handed to [sort], as the sign of what it returns. *)
Definition compareFn (pivot a b : Vector2) : comparison :=
  match atan2Compare (vy a - vy pivot) (vx a - vx pivot)
                     (vy b - vy pivot) (vx b - vx pivot) with
  | Eq =>
      let distA := (vx a - vx pivot) ^ 2 + (vy a - vy pivot) ^ 2 in
      let distB := (vx b - vx pivot) ^ 2 + (vy b - vy pivot) ^ 2 in
      distA ?= distB
  | c => c
  end.

(** [Array.prototype.sort] with a comparator: a stable sort.  Insertion
    from the right keeps equal elements in their order. *)
Fixpoint insertSorted (cmp : Vector2 -> Vector2 -> comparison) (a : Vector2)
    (l : list Vector2) : list Vector2 :=
  match l with
  | [] => [a]
  | b :: rest =>
      match cmp a b with
      | Gt => b :: insertSorted cmp a rest
      | _ => a :: l
      end
  end.

Fixpoint sort (cmp : Vector2 -> Vector2 -> comparison) (l : list Vector2) : list Vector2 :=
  match l with
  | [] => []
  | a :: rest => insertSorted cmp a (sort cmp rest)
  end.

Definition crossProduct (o a b : Vector2) : Q :=
  (vx a - vx o) * (vy b - vy o) - (vy a - vy o) * (vx b - vx o).

(** The hull under construction is a stack; it is kept with its top
    first, so [hull[hull.length - 1]] is the head and
    [hull[hull.length - 2]] the element under it.

    [while (hull.length > 1 && crossProduct(...) <= 0) hull.pop()]. *)
Fixpoint popWhile (point : Vector2) (hull : list Vector2) : list Vector2 :=
  match hull with
  | top :: ((under :: _) as rest) =>
      if Qle_bool (crossProduct under top point) 0
      then popWhile point rest
      else hull
  | _ => hull
  end.

(** [for (const point of sorted) { while ... ; hull.push(point) }]. *)
Definition buildHull (pivot : Vector2) (sorted : list Vector2) : list Vector2 :=
  fold_left (fun hull point => point :: popWhile point hull) sorted [pivot].

(** [computeConvexHull2D] works on the caller's array: the result pairs
    the returned hull with the array as the call leaves it. *)
Definition computeConvexHull2D (points : list Vector2) : list Vector2 * list Vector2 :=
  if (length points <? 3)%nat then (points, points)
  else
    let start := findStart points in
    let points' := swapToFront points start in
    let pivot := at2 points' 0 in
    let sorted := sort (compareFn pivot) (tl points') in
    (rev (buildHull pivot sorted), points').

(** [calculateShapeArea]. *)
Definition calculateShapeArea (points : list Vector2) : Q :=
  let n := length points in
  let area :=
    fold_left (fun area i =>
                 let j := ((i + 1) mod n)%nat in
                 area + vx (at2 points i) * vy (at2 points j)
                      - vx (at2 points j) * vy (at2 points i))
              (seq 0 n) 0 in
  area / 2.

(** The mesh [createBaseFill] returns: the closed hull path extruded by
    [depth] (material, name and shadow flags are rendering detail). *)
Record ExtrudedMesh := Extrude { shape : list Vector2; depth : Q }.
Record BaseFillResult := Result { mesh : option ExtrudedMesh; volume : Q }.

Record Box3 := Box { bmin : Vector3; bmax : Vector3 }.

(** The literal [0.001] of the source, read as the decimal it is written
    as.  The double it denotes, [0x1.0624dd2f1a9fcp-10], is larger by
    2.1e-20; [Double.createBaseFill] compares with that double. *)
Definition tolerance : Q := 1 # 1000.

Section BaseFill.
Context {M : Type} {WT : WorldTransform M}.

(** The callback of [model.traverse]: what one node adds to
    [projectedPoints]. *)
Definition projectNode (child : Object3D M) : list Vector2 :=
  if isMesh child then
    match geometry child with
    | None => []
    | Some g =>
        match position g with
        | None => []
        | Some pos =>
            map (fun v => let vertex := applyMatrix4 v (matrixWorld child) in
                          Vec2 (x3 vertex) (z3 vertex)) pos
        end
    end
  else [].

Definition projectedPointsOf (model : Object3D M) : list Vector2 :=
  flat_map projectNode (traverse model).

Definition createBaseFill (model : Object3D M) (bbox : Box3) : BaseFillResult :=
  let projectedPoints := projectedPointsOf model in
  if (length projectedPoints <? 3)%nat then Result None 0
  else
    let hull := fst (computeConvexHull2D projectedPoints) in
    if (length hull <? 3)%nat then Result None 0
    else
      let fillHeight := Qmax 0 (y3 (bmin bbox)) in
      if Qle_bool fillHeight tolerance then Result None 0
      else
        let area := Qabs (calculateShapeArea hull) in
        let volume := area * fillHeight in
        Result (Some (Extrude hull fillHeight)) volume.
End BaseFill.

(** ** IFCViewer.jsx: the statistics of [loadIFC] *)

(** [a + b] on numbers that may be [NaN]. *)
Definition num_add (a b : num) : num := x <- a ;; y <- b ;; Some (x + y).

(** The three running totals of the traversal. *)
Record Tally := MkTally {
  originalVolumeAcc : num;
  vertexCountAcc : nat;
  triangleCountAcc : nat
}.

(** What [onStatsUpdate] receives (the box size is left to three.js). *)
Record VolumeStats := MkStats {
  minZ : Q;
  originalVolume : num;
  baseFillVolume : Q;
  totalVolume : num;
  volumeIncrease : Q;
  vertexCount : nat;
  triangleCount : nat;
  demoMode : bool
}.

Section Viewer.
Context {M : Type} {WT : WorldTransform M}.

(** The callback of the second [ifcModel.traverse]. *)
Definition tallyNode (acc : Tally) (child : Object3D M) : Tally :=
  if isMesh child then
    match geometry child with
    | Some g =>
        let geoStats := countGeometryStats g in
        MkTally (num_add (originalVolumeAcc acc) (calculateMeshVolume child))
                (vertexCountAcc acc + vertices geoStats)
                (triangleCountAcc acc + triangles geoStats)
    | None => acc
    end
  else acc.

Definition tallyModel (ifcModel : Object3D M) : Tally :=
  fold_left tallyNode (traverse ifcModel) (MkTally (Some 0) 0%nat 0%nat).

(** From "Calculate original model volume" to [onStatsUpdate].  The
    traversal reads each [matrixWorld] as three.js last resolved it;
    [Box3.setFromObject] resolves them again before [createBaseFill]
    runs: [refreshed] is the model from then on, [newBbox] its box. *)
Definition reportStats (ifcModel refreshed : Object3D M) (newBbox : Box3) (demoRaise : Q)
    : VolumeStats :=
  let tally := tallyModel ifcModel in
  let baseFillResult := createBaseFill refreshed newBbox in
  let effectiveMinY := y3 (bmin newBbox) in
  let absVolume := num_abs (originalVolumeAcc tally) in
  let total := num_add absVolume (Some (volume baseFillResult)) in
  let increase :=
    match absVolume with
    | Some a => if Qltb 0 a then volume baseFillResult / a * 100 else 0
    | None => 0
    end in
  MkStats effectiveMinY absVolume (volume baseFillResult) total increase
          (vertexCountAcc tally) (triangleCountAcc tally) (Qltb 0 demoRaise).
End Viewer.

(** ** ifcLoader.js: [getGeometry] *)

(** A [Float32Array]: cells that hold a number or [NaN] (rounding to
    single precision is left out, as for doubles); created full of zeros,
    written only within its bounds. *)
Definition newFloat32Array (n : nat) : list num := repeat (Some 0) n.

Fixpoint setCell (arr : list num) (i : nat) (v : num) : list num :=
  match arr, i with
  | [], _ => []
  | _ :: rest, O => v :: rest
  | a :: rest, S k => a :: setCell rest k v
  end.

(** [for (let i = 0; i < count; i += step) state = body i state], with
    the fuel the counter cannot outlast. *)
Fixpoint forStep {S : Type} (step fuel i count : nat) (body : nat -> S -> S) (state : S) : S :=
  match fuel with
  | O => state
  | S fuel' =>
      if (i <? count)%nat
      then forStep step fuel' (i + step) count body (body i state)
      else state
  end.

(** The arrays [getGeometry] hands to the three attributes. *)
Record IfcArrays := MkArrays {
  positionArray : list num;
  normalArray : list num;
  indexArray : list nat
}.

(** One round of the unpacking loop; [vertices[i]] past the end is
    [undefined], stored as [NaN]. *)
Definition unpackBody (vertices : list Q) (i : nat) (arrays : list num * list num)
    : list num * list num :=
  let idx := (i / 2)%nat in
  let positionArray := fst arrays in
  let normalArray := snd arrays in
  let positionArray := setCell positionArray idx (nth_error vertices i) in
  let positionArray := setCell positionArray (idx + 1) (nth_error vertices (i + 1)) in
  let positionArray := setCell positionArray (idx + 2) (nth_error vertices (i + 2)) in
  let normalArray := setCell normalArray idx (nth_error vertices (i + 3)) in
  let normalArray := setCell normalArray (idx + 1) (nth_error vertices (i + 4)) in
  let normalArray := setCell normalArray (idx + 2) (nth_error vertices (i + 5)) in
  (positionArray, normalArray).

(** [getGeometry], from the two arrays web-ifc returns: [null] when either
    is empty. *)
Definition getGeometry (vertices : list Q) (indices : list nat) : option IfcArrays :=
  if (length vertices =? 0)%nat || (length indices =? 0)%nat then None
  else
    let positionArray := newFloat32Array (length vertices / 2) in
    let normalArray := newFloat32Array (length vertices / 2) in
    let arrays := forStep 6 (length vertices) 0 (length vertices) (unpackBody vertices)
                          (positionArray, normalArray) in
    Some (MkArrays (fst arrays) (snd arrays) indices).

(* ================================================================== *)
(** * Part II: the vocabulary of the specification                     *)
(* ================================================================== *)

(** ** Triangle lists *)

(** A buffer read as a triangle list: consecutive groups of three. *)
Fixpoint triples {A : Type} (l : list A) : list (A * A * A) :=
  match l with
  | a :: b :: c :: rest => (a, b, c) :: triples rest
  | _ => []
  end.

(** The vertices of the triangle list of a geometry, in buffer order:
    the positions themselves, or the positions the indices name, when
    every index names one. *)
Fixpoint lookupAll (pos : list Vector3) (idx : list nat) : option (list Vector3) :=
  match idx with
  | [] => Some []
  | i :: rest => v <- nth_error pos i ;; vs <- lookupAll pos rest ;; Some (v :: vs)
  end.

Definition vertexSequence (g : BufferGeometry) : option (list Vector3) :=
  pos <- position g ;;
  match index g with
  | Some idx => lookupAll pos idx
  | None => Some pos
  end.

(** The term of one triangle, as the specification writes it. *)
Definition tetrahedron (t : Vector3 * Vector3 * Vector3) : Q :=
  let '(v0, v1, v2) := t in dot v0 (crossVectors v1 v2) / 6.

(** A sum accumulated from 0, first term first. *)
Definition Qsum (l : list Q) : Q := fold_left Qplus l 0.

(** The loops of [calculateMeshVolume] seen from the buffer: whole
    groups of three feed [f]; a trailing group of one or two is read past
    the end of the buffer and leaves [NaN]. *)
Fixpoint foldTriangles {A : Type} (f : A -> A -> A -> num -> num) (l : list A)
    (vol : num) : num :=
  match l with
  | [] => vol
  | a :: b :: c :: rest => foldTriangles f rest (f a b c vol)
  | _ => None
  end.

Section TriangleBody.
Context {M : Type} {WT : WorldTransform M}.

Definition triangleBody {A : Type} (look : A -> option Vector3) (worldMatrix : M)
    (a b c : A) (volume : num) : num :=
  vol <- volume ;;
  v0 <- look a ;; v1 <- look b ;; v2 <- look c ;;
  Some (vol + signedVolumeOfTriangle (applyMatrix4 v0 worldMatrix)
                                     (applyMatrix4 v1 worldMatrix)
                                     (applyMatrix4 v2 worldMatrix)).
End TriangleBody.

(** ** Reversed winding *)

(** Which two corners of a triangle change places. *)
Inductive Swap := Swap01 | Swap02 | Swap12.

Definition swapCorners {A : Type} (s : Swap) (a b c : A) : list A :=
  match s with
  | Swap01 => [b; a; c]
  | Swap02 => [c; b; a]
  | Swap12 => [a; c; b]
  end.

(** Every whole triangle of the buffer is reversed, the [k]-th by the
    swap [sel k]; a trailing partial group is left as it is. *)
Fixpoint reverseTriples {A : Type} (sel : nat -> Swap) (l : list A) : list A :=
  match l with
  | a :: b :: c :: rest =>
      swapCorners (sel 0%nat) a b c ++ reverseTriples (fun k => sel (S k)) rest
  | _ => l
  end.

(** The count the loop of [calculateMeshVolume] runs against. *)
Definition bufferCount (g : BufferGeometry) (pos : list Vector3) : nat :=
  match index g with
  | Some idx => length idx
  | None => length pos
  end.

(** ** Polygons *)

(** Each vertex of a closed boundary with the one after it, the last
    with the first. *)
Definition cyclicPairs (poly : list Vector2) : list (Vector2 * Vector2) :=
  combine poly (tl poly ++ firstn 1 poly).

(** The shoelace value: half the sum of x_i * y_(i+1) - x_(i+1) * y_i
    around the boundary. *)
Definition shoelaceTerm (e : Vector2 * Vector2) : Q :=
  vx (fst e) * vy (snd e) - vx (snd e) * vy (fst e).

Definition shoelace (poly : list Vector2) : Q :=
  (1 # 2) * fold_right Qplus 0 (map shoelaceTerm (cyclicPairs poly)).

(** ** Angles *)

(** The angle of the direction (x, y), in (-pi, pi], as a real number. *)
Definition atan2R (y x : R) : R :=
  match Rcompare y 0 with
  | Gt => (PI / 2 - atan (x / y))%R
  | Lt => (- (PI / 2) - atan (x / y))%R
  | Eq => match Rcompare x 0 with Lt => PI | _ => 0%R end
  end.

(** ** Points around the pivot *)

(** Coordinates relative to a pivot [P]. *)
Definition dx (P q : Vector2) : Q := vx q - vx P.
Definition dy (P q : Vector2) : Q := vy q - vy P.
Definition dotFrom (P a b : Vector2) : Q := dx P a * dx P b + dy P a * dy P b.
Definition dist2 (P a : Vector2) : Q := dx P a ^ 2 + dy P a ^ 2.

(** [p] is not after [q] in the order that picks the pivot: lower [y]
    first, then lower [x]. *)
Definition lexLe (p q : Vector2) : Prop := vy p < vy q \/ (vy p == vy q /\ vx p <= vx q).

(** Where every point lies once [P] is the pivot: strictly higher, or
    level with it and not to its left. *)
Definition above (P q : Vector2) : Prop := 0 < dy P q \/ (dy P q == 0 /\ 0 <= dx P q).

(** The comparator does not put [a] after [b]. *)
Definition leP (P a b : Vector2) : Prop := compareFn P a b <> Gt.

(** What that means in the plane: [b] is counter-clockwise of [a] seen
    from [P], or on the same ray and no nearer. *)
Definition polarLe (P a b : Vector2) : Prop :=
  0 <= crossProduct P a b /\
  (crossProduct P a b == 0 -> 0 <= dotFrom P a b /\ dist2 P a <= dist2 P b).

(** Two points with the same coordinates. *)
Definition samePoint (a b : Vector2) : Prop := vx a == vx b /\ vy a == vy b.

(** [samePoint], decided; and how often a point occurs in a list. *)
Definition samePointb (a b : Vector2) : bool :=
  Qeq_bool (vx a) (vx b) && Qeq_bool (vy a) (vy b).

Definition countSame (x : Vector2) (l : list Vector2) : nat :=
  length (filter (samePointb x) l).

(** ** The hull stack *)

(** One round of the loop of [buildHull]. *)
Definition scanStep (hull : list Vector2) (point : Vector2) : list Vector2 :=
  point :: popWhile point hull.

(** [Chain P Q S]: the stack [S] (top first) rests on the pivot [P], its
    other elements come from the points [Q] scanned so far, every corner
    turns strictly left, the elements above the first lie strictly
    further round the pivot one after the other, and every point of [Q]
    is on or left of every edge. *)
Inductive Chain (P : Vector2) (Q : list Vector2) : list Vector2 -> Prop :=
| chain_pivot : Chain P Q [P]
| chain_first t :
    In t Q -> (forall q, In q Q -> 0 <= crossProduct P t q) -> Chain P Q [t; P]
| chain_push t x w r :
    In t Q -> Chain P Q (x :: w :: r) ->
    0 < crossProduct P x t -> 0 < crossProduct w x t ->
    (forall q, In q Q -> 0 <= crossProduct x t q) ->
    Chain P Q (t :: x :: w :: r).

(** [q] is on or left of every edge of the stack. *)
Fixpoint leftOfChain (q : Vector2) (S : list Vector2) : Prop :=
  match S with
  | t :: ((x :: _) as rest) => 0 <= crossProduct x t q /\ leftOfChain q rest
  | _ => True
  end.

(** The top of the stack is the last point scanned, the furthest round. *)
Definition TopMax (P : Vector2) (Q S : list Vector2) : Prop :=
  match S with
  | [] => False
  | [_] => Q = []
  | t :: _ => forall q, In q Q -> polarLe P q t
  end.

(** The edges of the stack, each from the lower to the upper element. *)
Fixpoint chainEdges (S : list Vector2) : list (Vector2 * Vector2) :=
  match S with
  | t :: ((x :: _) as rest) => (x, t) :: chainEdges rest
  | _ => []
  end.

(** ** Polygons, again *)

(** Consecutive vertices of an open path. *)
Definition adjacentPairs (l : list Vector2) : list (Vector2 * Vector2) := combine l (tl l).

(** [q] lies on or inside the counter-clockwise polygon [poly]: on or
    left of every edge of its closed boundary. *)
Definition insidePolygon (poly : list Vector2) (q : Vector2) : Prop :=
  forall a b, In (a, b) (cyclicPairs poly) -> 0 <= crossProduct a b q.

(** Every three consecutive points of the path turn strictly left. *)
Fixpoint turnsLeft (path : list Vector2) : Prop :=
  match path with
  | a :: ((b :: c :: _) as rest) => 0 < crossProduct a b c /\ turnsLeft rest
  | _ => True
  end.

(** A polygon is strictly convex, counter-clockwise, when its boundary
    turns strictly left at every vertex, the first two included. *)
Definition strictlyConvex (poly : list Vector2) : Prop :=
  turnsLeft (poly ++ firstn 2 poly).

(** The same cycle, started [k] vertices later. *)
Definition rotate (k : nat) (l : list Vector2) : list Vector2 := skipn k l ++ firstn k l.

(** ** More vocabulary: loaded geometry *)

(** A vertex as web-ifc packs it: position, then normal. *)
Definition packVertex (v : Vector3 * Vector3) : list Q :=
  [x3 (fst v); y3 (fst v); z3 (fst v); x3 (snd v); y3 (snd v); z3 (snd v)].

(** The cells a list of vectors fills, three each. *)
Definition cellsOf (vs : list Vector3) : list num :=
  flat_map (fun v => [Some (x3 v); Some (y3 v); Some (z3 v)]) vs.

(** An array read three cells at a time, as a [BufferAttribute] of item
    size 3 does, when it holds whole vectors of numbers. *)
Fixpoint vectorsOf (arr : list num) : option (list Vector3) :=
  match arr with
  | [] => Some []
  | Some a :: Some b :: Some c :: rest => vs <- vectorsOf rest ;; Some (Vec3 a b c :: vs)
  | _ => None
  end.

(** The geometry [getGeometry] builds from its arrays. *)
Definition asBufferGeometry (arrays : IfcArrays) : option BufferGeometry :=
  pos <- vectorsOf (positionArray arrays) ;;
  Some (Geometry (Some pos) (Some (indexArray arrays))).

(** ** More vocabulary: scenes *)

(** What a scene holds apart from its matrices: which nodes are meshes,
    and their geometries, in traversal order. *)
Definition sceneContent {M : Type} (model : Object3D M) : list (bool * option BufferGeometry) :=
  map (fun child => (isMesh child, geometry child)) (traverse model).

(** The vertices a node adds to the scene's count. *)
Definition contentVertices (c : bool * option BufferGeometry) : nat :=
  if fst c then
    match snd c with
    | Some g => match position g with Some pos => length pos | None => 0%nat end
    | None => 0%nat
    end
  else 0%nat.

(** A buffer that is a triangle list: whole triples, every index naming
    a vertex. *)
Definition triangleList (g : BufferGeometry) : Prop :=
  exists vs, vertexSequence g = Some vs /\ (length vs mod 3 = 0)%nat.

(** A mesh that is a leaf of the scene graph. *)
Definition leafMesh {M : Type} (g : BufferGeometry) (m : M) : Object3D M :=
  Node true (Some g) m [].

(* ================================================================== *)
(** * Part III: the program on doubles                                 *)
(* ================================================================== *)

(** The same functions on IEEE 754 binary64 numbers, the numbers the code
    runs on: every sum, difference, product and quotient is rounded, in
    the order the source writes them.  [undefined], read past the end of a
    typed array, is still [None]; a NaN that arithmetic produces is a
    [float]. *)
Module Double.
Local Open Scope float_scope.

Definition num := option float.

Record Vector3 := Vec3 { x3 : float; y3 : float; z3 : float }.
Record Vector2 := Vec2 { vx : float; vy : float }.

(** three.js, [Vector3.crossVectors] and [Vector3.dot]. *)
Definition crossVectors (a b : Vector3) : Vector3 :=
  Vec3 (y3 a * z3 b - z3 a * y3 b)
       (z3 a * x3 b - x3 a * z3 b)
       (x3 a * y3 b - y3 a * x3 b).

Definition dot (a b : Vector3) : float :=
  x3 a * x3 b + y3 a * y3 b + z3 a * z3 b.

Class WorldTransform (M : Type) := applyMatrix4 : Vector3 -> M -> Vector3.

(** three.js, [Vector3.applyMatrix4], for running examples. *)
Record Matrix4 := Mat4 { elements : list float }.

Definition el (m : Matrix4) (i : nat) : float := nth i (elements m) nan.

#[global] Instance Matrix4_transform : WorldTransform Matrix4 := fun v m =>
  let w := 1 / (el m 3 * x3 v + el m 7 * y3 v + el m 11 * z3 v + el m 15) in
  Vec3 ((el m 0 * x3 v + el m 4 * y3 v + el m 8 * z3 v + el m 12) * w)
       ((el m 1 * x3 v + el m 5 * y3 v + el m 9 * z3 v + el m 13) * w)
       ((el m 2 * x3 v + el m 6 * y3 v + el m 10 * z3 v + el m 14) * w).

(** [Matrix4.makeTranslation] and [Matrix4.makeScale]. *)
Definition makeTranslation (x y z : float) : Matrix4 :=
  Mat4 [1; 0; 0; 0;  0; 1; 0; 0;  0; 0; 1; 0;  x; y; z; 1].

Definition makeScale (x y z : float) : Matrix4 :=
  Mat4 [x; 0; 0; 0;  0; y; 0; 0;  0; 0; z; 0;  0; 0; 0; 1].

Record BufferGeometry := Geometry {
  position : option (list Vector3);
  index : option (list nat)
}.

#[warnings="-register-all"]
Inductive Object3D (M : Type) : Type :=
  Node : bool -> option BufferGeometry -> M -> list (Object3D M) -> Object3D M.

Arguments Node {M} _ _ _ _.

Definition isMesh {M} (o : Object3D M) : bool := let 'Node b _ _ _ := o in b.
Definition geometry {M} (o : Object3D M) : option BufferGeometry := let 'Node _ g _ _ := o in g.
Definition matrixWorld {M} (o : Object3D M) : M := let 'Node _ _ m _ := o in m.

Fixpoint traverse {M} (o : Object3D M) : list (Object3D M) :=
  match o with
  | Node _ _ _ cs => o :: flat_map traverse cs
  end.

(** ** volumeCalculator.js *)

Definition signedVolumeOfTriangle (v0 v1 v2 : Vector3) : float :=
  dot v0 (crossVectors v1 v2) / 6.

Definition vertexAt (pos : list Vector3) (i : nat) : option Vector3 := nth_error pos i.

Section VolumeCalculator.
Context {M : Type} {WT : WorldTransform M}.

Definition indexedBody (pos : list Vector3) (idx : list nat) (worldMatrix : M)
    (i : nat) (volume : num) : num :=
  vol <- volume ;;
  i0 <- nth_error idx i ;;
  i1 <- nth_error idx (i + 1) ;;
  i2 <- nth_error idx (i + 2) ;;
  v0 <- vertexAt pos i0 ;;
  v1 <- vertexAt pos i1 ;;
  v2 <- vertexAt pos i2 ;;
  Some (vol + signedVolumeOfTriangle (applyMatrix4 v0 worldMatrix)
                                     (applyMatrix4 v1 worldMatrix)
                                     (applyMatrix4 v2 worldMatrix)).

Definition plainBody (pos : list Vector3) (worldMatrix : M)
    (i : nat) (volume : num) : num :=
  vol <- volume ;;
  v0 <- vertexAt pos i ;;
  v1 <- vertexAt pos (i + 1) ;;
  v2 <- vertexAt pos (i + 2) ;;
  Some (vol + signedVolumeOfTriangle (applyMatrix4 v0 worldMatrix)
                                     (applyMatrix4 v1 worldMatrix)
                                     (applyMatrix4 v2 worldMatrix)).

Definition calculateMeshVolume (mesh : Object3D M) : num :=
  match geometry mesh with
  | None => Some 0
  | Some g =>
      let worldMatrix := matrixWorld mesh in
      match position g with
      | None => Some 0
      | Some pos =>
          match index g with
          | Some idx =>
              forStep 3 (length idx) 0 (length idx) (indexedBody pos idx worldMatrix) (Some 0)
          | None =>
              forStep 3 (length pos) 0 (length pos) (plainBody pos worldMatrix) (Some 0)
          end
      end
  end.
End VolumeCalculator.

(** ** baseFill.js *)

Definition origin2 : Vector2 := Vec2 0 0.
Definition at2 (points : list Vector2) (i : nat) : Vector2 := nth i points origin2.

Fixpoint update (points : list Vector2) (i : nat) (v : Vector2) : list Vector2 :=
  match points, i with
  | [], _ => []
  | _ :: rest, O => v :: rest
  | p :: rest, S k => p :: update rest k v
  end.

(** [p.y < q.y || (p.y === q.y && p.x < q.x)]. *)
Definition lowerLeft (p q : Vector2) : bool :=
  (vy p <? vy q) || ((vy p =? vy q) && (vx p <? vx q)).

Definition findStart (points : list Vector2) : nat :=
  fold_left (fun start i => if lowerLeft (at2 points i) (at2 points start) then i else start)
            (seq 1 (length points - 1)) 0%nat.

Definition swapToFront (points : list Vector2) (start : nat) : list Vector2 :=
  let a := at2 points start in
  let b := at2 points 0 in
  update (update points 0 a) start b.

(** [Math.atan2] is the engine's: ECMA-262 leaves its values to the
    implementation, so it is a parameter. *)
Class MathAtan2 := atan2 : float -> float -> float.

(** What [sort] makes of the number a comparator returns: negative,
    positive, or neither (zero and NaN leave the two in their order). *)
Definition sign (v : float) : comparison :=
  if v <? 0 then Lt else if 0 <? v then Gt else Eq.

Section Hull.
Context {libm : MathAtan2}.

(** The comparator handed to [sort]; [x ** 2] is [x * x], the double
    nearest the square. *)
Definition compareFn (pivot a b : Vector2) : comparison :=
  let angleA := atan2 (vy a - vy pivot) (vx a - vx pivot) in
  let angleB := atan2 (vy b - vy pivot) (vx b - vx pivot) in
  if negb (angleA =? angleB) then sign (angleA - angleB)
  else
    let distA := (vx a - vx pivot) * (vx a - vx pivot)
                 + (vy a - vy pivot) * (vy a - vy pivot) in
    let distB := (vx b - vx pivot) * (vx b - vx pivot)
                 + (vy b - vy pivot) * (vy b - vy pivot) in
    sign (distA - distB).

Fixpoint insertSorted (cmp : Vector2 -> Vector2 -> comparison) (a : Vector2)
    (l : list Vector2) : list Vector2 :=
  match l with
  | [] => [a]
  | b :: rest =>
      match cmp a b with
      | Gt => b :: insertSorted cmp a rest
      | _ => a :: l
      end
  end.

Fixpoint sort (cmp : Vector2 -> Vector2 -> comparison) (l : list Vector2) : list Vector2 :=
  match l with
  | [] => []
  | a :: rest => insertSorted cmp a (sort cmp rest)
  end.

Definition crossProduct (o a b : Vector2) : float :=
  (vx a - vx o) * (vy b - vy o) - (vy a - vy o) * (vx b - vx o).

Fixpoint popWhile (point : Vector2) (hull : list Vector2) : list Vector2 :=
  match hull with
  | top :: ((under :: _) as rest) =>
      if crossProduct under top point <=? 0
      then popWhile point rest
      else hull
  | _ => hull
  end.

Definition buildHull (pivot : Vector2) (sorted : list Vector2) : list Vector2 :=
  fold_left (fun hull point => point :: popWhile point hull) sorted [pivot].

Definition computeConvexHull2D (points : list Vector2) : list Vector2 * list Vector2 :=
  if (length points <? 3)%nat then (points, points)
  else
    let start := findStart points in
    let points' := swapToFront points start in
    let pivot := at2 points' 0 in
    let sorted := sort (compareFn pivot) (tl points') in
    (rev (buildHull pivot sorted), points').
End Hull.

(** [area += p_i.x * p_j.y; area -= p_j.x * p_i.y], then [area / 2]. *)
Definition calculateShapeArea (points : list Vector2) : float :=
  let n := length points in
  let area :=
    fold_left (fun area i =>
                 let j := ((i + 1) mod n)%nat in
                 area + vx (at2 points i) * vy (at2 points j)
                      - vx (at2 points j) * vy (at2 points i))
              (seq 0 n) 0 in
  area / 2.

(** [Math.max] of two numbers: NaN if either is; of two zeros, +0 unless
    both are -0. *)
Definition max (a b : float) : float :=
  if is_nan a || is_nan b then nan
  else if a <? b then b
  else if b <? a then a
  else if get_sign a then b else a.

Record ExtrudedMesh := Extrude { shape : list Vector2; depth : float }.
Record BaseFillResult := Result { mesh : option ExtrudedMesh; volume : float }.
Record Box3 := Box { bmin : Vector3; bmax : Vector3 }.

Section BaseFill.
Context {M : Type} {WT : WorldTransform M} {libm : MathAtan2}.

Definition projectNode (child : Object3D M) : list Vector2 :=
  if isMesh child then
    match geometry child with
    | None => []
    | Some g =>
        match position g with
        | None => []
        | Some pos =>
            map (fun v => let vertex := applyMatrix4 v (matrixWorld child) in
                          Vec2 (x3 vertex) (z3 vertex)) pos
        end
    end
  else [].

Definition projectedPointsOf (model : Object3D M) : list Vector2 :=
  flat_map projectNode (traverse model).

Definition createBaseFill (model : Object3D M) (bbox : Box3) : BaseFillResult :=
  let projectedPoints := projectedPointsOf model in
  if (length projectedPoints <? 3)%nat then Result None 0
  else
    let hull := fst (computeConvexHull2D projectedPoints) in
    if (length hull <? 3)%nat then Result None 0
    else
      let fillHeight := max 0 (y3 (bmin bbox)) in
      if fillHeight <=? 0.001 then Result None 0
      else
        let area := abs (calculateShapeArea hull) in
        let volume := area * fillHeight in
        Result (Some (Extrude hull fillHeight)) volume.
End BaseFill.

(** ** Vocabulary on doubles *)

Fixpoint lookupAll (pos : list Vector3) (idx : list nat) : option (list Vector3) :=
  match idx with
  | [] => Some []
  | i :: rest => v <- nth_error pos i ;; vs <- lookupAll pos rest ;; Some (v :: vs)
  end.

(** The vertices of the triangle list of a geometry, in buffer order. *)
Definition vertexSequence (g : BufferGeometry) : option (list Vector3) :=
  pos <- position g ;;
  match index g with
  | Some idx => lookupAll pos idx
  | None => Some pos
  end.

(** The term of one triangle, each operation rounded. *)
Definition tetrahedron (t : Vector3 * Vector3 * Vector3) : float :=
  let '(v0, v1, v2) := t in dot v0 (crossVectors v1 v2) / 6.

(** A sum accumulated from 0, first term first, each addition rounded. *)
Definition runningSum (l : list float) : float := fold_left PrimFloat.add l 0.

Fixpoint foldTriangles {A : Type} (f : A -> A -> A -> num -> num) (l : list A)
    (vol : num) : num :=
  match l with
  | [] => vol
  | a :: b :: c :: rest => foldTriangles f rest (f a b c vol)
  | _ => None
  end.

Section TriangleBody.
Context {M : Type} {WT : WorldTransform M}.

Definition triangleBody {A : Type} (look : A -> option Vector3) (worldMatrix : M)
    (a b c : A) (volume : num) : num :=
  vol <- volume ;;
  v0 <- look a ;; v1 <- look b ;; v2 <- look c ;;
  Some (vol + signedVolumeOfTriangle (applyMatrix4 v0 worldMatrix)
                                     (applyMatrix4 v1 worldMatrix)
                                     (applyMatrix4 v2 worldMatrix)).
End TriangleBody.

(** Reversing the winding of a mesh, the [k]-th triangle by the swap
    [sel k]. *)
Definition reverseGeometry (sel : nat -> Swap) (g : BufferGeometry) : BufferGeometry :=
  match index g with
  | Some idx => Geometry (position g) (Some (reverseTriples sel idx))
  | None => Geometry (option_map (reverseTriples sel) (position g)) None
  end.

Definition reverseWinding {M} (sel : nat -> Swap) (mesh : Object3D M) : Object3D M :=
  let 'Node b g m cs := mesh in Node b (option_map (reverseGeometry sel) g) m cs.

(** [b] negated, as a number: the sign of a zero does not count. *)
Definition opposite (a b : float) : Prop :=
  a = - b \/ (is_zero a = true /\ is_zero b = true).

Definition numOpposite (a b : num) : Prop :=
  match a, b with
  | Some x, Some y => opposite x y
  | None, None => True
  | _, _ => False
  end.

Definition cyclicPairs (poly : list Vector2) : list (Vector2 * Vector2) :=
  combine poly (tl poly ++ firstn 1 poly).

(** The shoelace sum as the loop accumulates it: for each edge the
    product added, then the product subtracted, each step rounded. *)
Definition shoelaceStep (area : float) (e : Vector2 * Vector2) : float :=
  area + vx (fst e) * vy (snd e) - vx (snd e) * vy (fst e).

Definition shoelace (poly : list Vector2) : float :=
  fold_left shoelaceStep (cyclicPairs poly) 0 / 2.

(** [Math.atan2] along the positive x axis, the positive y axis and the
    diagonal between them, where it is the double nearest 0, pi/2 and
    pi/4 in every engine; the examples call it nowhere else ([principal]
    says where that is), and there this instance has no value to give. *)
Definition principal (y x : float) : bool :=
  ((y =? 0) && (0 <=? x)) || ((x =? 0) && (0 <? y)) || ((y =? x) && (0 <? x)).

Definition principalAtan2 : MathAtan2 := fun y x =>
  if (y =? 0) && (0 <=? x) then 0
  else if (x =? 0) && (0 <? y) then 0x1.921fb54442d18p+0
  else if (y =? x) && (0 <? x) then 0x1.921fb54442d18p-1
  else nan.

(** Every direction the comparator takes from the pivot is principal. *)
Definition principalFrom (pivot : Vector2) (points : list Vector2) : bool :=
  forallb (fun a => principal (vy a - vy pivot) (vx a - vx pivot)) points.

End Double.

(** ** Doubles as exact numbers *)

(** Two binary floating-point numbers, one the other negated, as
    numbers: the sign of a zero does not count. *)
Definition zeroSF (x : spec_float) : Prop := exists s, x = S754_zero s.
Definition oppSF (x y : spec_float) : Prop := x = SFopp y \/ (zeroSF x /\ zeroSF y).

(** The rational a finite double stands for (0 for the others). *)
Definition SF2Q (f : spec_float) : Q :=
  match f with
  | S754_finite s m e => inject_Z (cond_Zopp s (Zpos m)) * 2 ^ e
  | _ => 0
  end.

Definition toQ (x : float) : Q := SF2Q (Prim2SF x).

Definition toQ2 (p : Double.Vector2) : Vector2 :=
  Vec2 (toQ (Double.vx p)) (toQ (Double.vy p)).

Definition toQ3 (v : Double.Vector3) : Vector3 :=
  Vec3 (toQ (Double.x3 v)) (toQ (Double.y3 v)) (toQ (Double.z3 v)).

Definition comparison_eqb (c c' : comparison) : bool :=
  match c, c' with
  | Eq, Eq | Lt, Lt | Gt, Gt => true
  | _, _ => false
  end.

Section ExactDecisions.
Context {libm : Double.MathAtan2}.

(** The coordinates are numbers, and rounding changes no decision of the
    hull builder on these points: the lowest-point test, the comparator
    around the pivot and the sign test of the cross product give, on the
    doubles, what they give on the numbers the doubles stand for. *)
Definition exactDecisionsb (points : list Double.Vector2) : bool :=
  let pivot := Double.at2 points (Double.findStart points) in
  forallb (fun p => is_finite (Double.vx p) && is_finite (Double.vy p)) points
  && forallb (fun p => forallb (fun q =>
    Bool.eqb (Double.lowerLeft p q) (lowerLeft (toQ2 p) (toQ2 q))) points) points
  && forallb (fun a => forallb (fun b =>
       comparison_eqb (Double.compareFn pivot a b)
                      (compareFn (toQ2 pivot) (toQ2 a) (toQ2 b))) points) points
  && forallb (fun o => forallb (fun a => forallb (fun b =>
       Bool.eqb (PrimFloat.leb (Double.crossProduct o a b) 0%float)
                (Qle_bool (crossProduct (toQ2 o) (toQ2 a) (toQ2 b)) 0))
       points) points) points.

Definition exactDecisions (points : list Double.Vector2) : Prop :=
  exactDecisionsb points = true.
End ExactDecisions.

(** ** Sample data *)

(** The corner of the unit cube at the origin, cut off: one triangle. *)
Definition cornerPositions : list Vector3 := [Vec3 1 0 0; Vec3 0 1 0; Vec3 0 0 1].

Definition cornerMesh : Object3D Matrix4 :=
  Node true (Some (Geometry (Some cornerPositions) (Some [0; 1; 2]%nat))) identity4 [].

(** The same triangle, with a fourth index left over in the buffer. *)
Definition danglingGeometry : BufferGeometry :=
  Geometry (Some cornerPositions) (Some [0; 1; 2; 0]%nat).

Definition danglingMesh : Object3D Matrix4 :=
  Node true (Some danglingGeometry) identity4 [].

(** A slab over the square, raised 2 above the ground, and its box. *)
Definition raisedSlab : Object3D Matrix4 :=
  Node false None identity4
       [Node true
             (Some (Geometry (Some [Vec3 0 2 0; Vec3 10 2 0; Vec3 10 2 10; Vec3 0 2 10;
                                    Vec3 0 3 0; Vec3 10 3 0; Vec3 10 3 10; Vec3 0 3 10])
                             None))
             identity4 []].

Definition raisedSlabBox : Box3 := Box (Vec3 0 2 0) (Vec3 10 3 10).

(** A triangle whose lowest point is not listed first. *)
Definition unsortedTriangle : list Vector2 := [Vec2 1 1; Vec2 0 0; Vec2 2 0].

(** The three corners as web-ifc would hand them over, each with the
    normal (1, 1, 1). *)
Definition cornerRecords : list (Vector3 * Vector3) :=
  map (fun v => (v, Vec3 1 1 1)) cornerPositions.

(** The world matrix that doubles every length. *)
Definition double4 : Matrix4 :=
  Mat4 [2; 0; 0; 0;  0; 2; 0; 0;  0; 0; 2; 0;  0; 0; 0; 1].

(** ** Sample data on doubles *)

(** A tetrahedron of volume 16, its faces wound outwards. *)
Definition tetrahedronPositions : list Double.Vector3 :=
  [Double.Vec3 0 0 0; Double.Vec3 4 0 0; Double.Vec3 0 4 0; Double.Vec3 0 0 6]%float.

Definition tetrahedronIndex : list nat := [0; 2; 1;  0; 1; 3;  0; 3; 2;  1; 2; 3]%nat.

(** The tetrahedron moved by [t] along each axis by its world matrix. *)
Definition tetrahedronAt (t : float) : Double.Object3D Double.Matrix4 :=
  Double.Node true
    (Some (Double.Geometry (Some tetrahedronPositions) (Some tetrahedronIndex)))
    (Double.makeTranslation t t t) [].

(** One face of it, with a fourth index left over in the buffer. *)
Definition danglingTriangle : Double.Object3D Double.Matrix4 :=
  Double.Node true
    (Some (Double.Geometry (Some tetrahedronPositions) (Some [1; 2; 3; 0]%nat)))
    (Double.makeTranslation 0 0 0) [].

(** A slab over a 10 x 10 square, 2 above the ground, moved by [t] along
    x and z by its world matrix; and its box. *)
Definition slabPositions : list Double.Vector3 :=
  [Double.Vec3 0 2 0; Double.Vec3 10 2 0; Double.Vec3 10 2 10; Double.Vec3 0 2 10;
   Double.Vec3 0 3 0; Double.Vec3 10 3 0; Double.Vec3 10 3 10; Double.Vec3 0 3 10]%float.

Definition slabAt (t : float) : Double.Object3D Double.Matrix4 :=
  Double.Node false None (Double.makeTranslation 0 0 0)
    [Double.Node true (Some (Double.Geometry (Some slabPositions) None))
                 (Double.makeTranslation t 0 t) []].

Definition slabBoxAt (t : float) : Double.Box3 :=
  Double.Box (Double.Vec3 t 2 t) (Double.Vec3 (t + 10) 3 (t + 10))%float.

Definition squareAt (t : float) : list Double.Vector2 :=
  [Double.Vec2 t t; Double.Vec2 (t + 10) t; Double.Vec2 (t + 10) (t + 10);
   Double.Vec2 t (t + 10)]%float.

Definition squareWithCentreD : list Double.Vector2 :=
  [Double.Vec2 0 0; Double.Vec2 10 0; Double.Vec2 10 10; Double.Vec2 0 10;
   Double.Vec2 5 5]%float.

(** A unit square, 2 above the ground, scaled by 1e200 along x and z by
    its world matrix; and its box. *)
Definition farQuad : Double.Object3D Double.Matrix4 :=
  Double.Node true
    (Some (Double.Geometry
             (Some [Double.Vec3 1 2 1; Double.Vec3 2 2 1;
                    Double.Vec3 2 2 2; Double.Vec3 1 2 2]%float)
             None))
    (Double.makeScale 1e200 1 1e200) [].

Definition farQuadBox : Double.Box3 :=
  Double.Box (Double.Vec3 1e200 2 1e200) (Double.Vec3 2e200 2 2e200)%float.

(** Four points, the third a corner of their hull by 5.5e-17. *)
Definition shallowCorner : list Double.Vector2 :=
  [Double.Vec2 0 0; Double.Vec2 2 0; Double.Vec2 0.4 0.4; Double.Vec2 0 0.5]%float.

(** A number 4.2e-17 below 0: 1.5 * 2^-55. *)
Definition justBelow0 : float := (-0x1.8p-55)%float.

(** Five points, two of them 4.2e-17 apart, that the subtraction of the
    pivot (-1, 0) makes one; and the same five with those two exchanged. *)
Definition nearTwins : list Double.Vector2 :=
  [Double.Vec2 (-1) 0; Double.Vec2 justBelow0 0; Double.Vec2 0 0;
   Double.Vec2 (-0.5) 0.5; Double.Vec2 (-1) 1]%float.

Definition nearTwins' : list Double.Vector2 :=
  [Double.Vec2 (-1) 0; Double.Vec2 0 0; Double.Vec2 justBelow0 0;
   Double.Vec2 (-0.5) 0.5; Double.Vec2 (-1) 1]%float.

(* ================================================================== *)
(** * Part IV: properties                                              *)
(* ================================================================== *)

(** ** Numbers *)

Lemma num_eq_refl (a : num) : num_eq a a.
Proof. destruct a; simpl; [reflexivity | exact I]. Qed.

Lemma num_eq_trans (a b c : num) : num_eq a b -> num_eq b c -> num_eq a c.
Proof.
  destruct a, b, c; simpl; try tauto.
  intros H1 H2. now rewrite H1.
Qed.

(** ** The volume loops *)

Lemma vertexAt_nth_error (pos : list Vector3) (i : nat) :
  vertexAt pos i = nth_error pos i.
Proof.
  unfold vertexAt, getX, getY, getZ.
  destruct (nth_error pos i) as [[a b c]|]; reflexivity.
Qed.

(** An induction principle that follows the triangle list. *)
Lemma triangle_list_ind (A : Type) (P : list A -> Prop) :
  P [] -> (forall a, P [a]) -> (forall a b, P [a; b]) ->
  (forall a b c rest, P rest -> P (a :: b :: c :: rest)) ->
  forall l, P l.
Proof.
  intros H0 H1 H2 H3.
  fix IH 1.
  intros [|a [|b [|c rest]]].
  - exact H0.
  - apply H1.
  - apply H2.
  - apply H3, IH.
Qed.

Section Loops.
Context {M : Type} {WT : WorldTransform M}.
Variable worldMatrix : M.

Lemma forStep3_NaN fuel i count (body : nat -> num -> num) :
  (forall k, body k None = None) ->
  forStep3 fuel i count body None = None.
Proof.
  intros Hb. revert i.
  induction fuel as [|fuel IH]; intros i; simpl; [reflexivity|].
  destruct (i <? count)%nat; [rewrite Hb; apply IH | reflexivity].
Qed.

(** The loop from counter [i] is the fold over what the buffer holds
    from [i] on, as soon as the fuel covers that remainder. *)
Lemma forStep3_foldTriangles (A : Type) (buf : list A)
      (body : nat -> num -> num) (f : A -> A -> A -> num -> num) :
  (forall k, body k None = None) ->
  (forall k a b c vol,
      nth_error buf k = Some a -> nth_error buf (k + 1) = Some b ->
      nth_error buf (k + 2) = Some c -> body k vol = f a b c vol) ->
  (forall k vol,
      nth_error buf (k + 1) = None \/ nth_error buf (k + 2) = None ->
      body k vol = None) ->
  forall fuel i vol,
    (length (skipn i buf) <= fuel)%nat ->
    forStep3 fuel i (length buf) body vol = foldTriangles f (skipn i buf) vol.
Proof.
  intros Hnan Hfull Hpart.
  induction fuel as [|fuel IH]; intros i vol Hfuel.
  - simpl. destruct (skipn i buf); [reflexivity | simpl in Hfuel; lia].
  - simpl. destruct (Nat.ltb_spec i (length buf)) as [Hlt|Hge].
    + assert (Hs3 : skipn (i + 3) buf = skipn 3 (skipn i buf))
        by (rewrite skipn_skipn; f_equal; lia).
      assert (Hn0 : nth_error buf i = nth_error (skipn i buf) 0)
        by (rewrite nth_error_skipn; f_equal; lia).
      assert (Hn1 : nth_error buf (i + 1) = nth_error (skipn i buf) 1)
        by (rewrite nth_error_skipn; f_equal; lia).
      assert (Hn2 : nth_error buf (i + 2) = nth_error (skipn i buf) 2)
        by (rewrite nth_error_skipn; f_equal; lia).
      rewrite IH by (rewrite Hs3, length_skipn; lia).
      rewrite Hs3.
      destruct (skipn i buf) as [|a [|b [|c rest]]] eqn:Hs; simpl in *.
      * apply (f_equal (@length A)) in Hs. rewrite length_skipn in Hs. simpl in Hs. lia.
      * rewrite Hpart by (left; exact Hn1). reflexivity.
      * rewrite Hpart by (right; exact Hn2). reflexivity.
      * rewrite (Hfull i a b c) by assumption. reflexivity.
    + rewrite skipn_all2 by lia. reflexivity.
Qed.

Lemma indexedBody_loop (pos : list Vector3) (idx : list nat) (vol : num) :
  forStep3 (length idx) 0 (length idx) (indexedBody pos idx worldMatrix) vol
  = foldTriangles (triangleBody (vertexAt pos) worldMatrix) idx vol.
Proof.
  change idx with (skipn 0 idx) at 4.
  apply forStep3_foldTriangles.
  - intros k. reflexivity.
  - intros k a b c v Ha Hb Hc. unfold indexedBody, triangleBody, getIndex.
    rewrite Ha, Hb, Hc. reflexivity.
  - intros k v [H|H]; unfold indexedBody, getIndex; rewrite H;
      destruct v; simpl; try reflexivity;
      destruct (nth_error idx k); simpl; try reflexivity;
      destruct (nth_error idx (k + 1)); reflexivity.
  - simpl. lia.
Qed.

Lemma plainBody_loop (pos : list Vector3) (vol : num) :
  forStep3 (length pos) 0 (length pos) (plainBody pos worldMatrix) vol
  = foldTriangles (triangleBody (@Some Vector3) worldMatrix) pos vol.
Proof.
  change pos with (skipn 0 pos) at 4.
  apply forStep3_foldTriangles.
  - intros k. reflexivity.
  - intros k a b c v Ha Hb Hc. unfold plainBody, triangleBody.
    rewrite !vertexAt_nth_error, Ha, Hb, Hc. reflexivity.
  - intros k v [H|H]; unfold plainBody; rewrite !vertexAt_nth_error, H;
      destruct v; simpl; try reflexivity;
      destruct (nth_error pos k); simpl; try reflexivity;
      destruct (nth_error pos (k + 1)); reflexivity.
  - simpl. lia.
Qed.
End Loops.

(** ** The volume estimator on a triangle list *)

Section VolumeProperties.
Context {M : Type} {WT : WorldTransform M}.
Variable worldMatrix : M.

Let world (v : Vector3) : Vector3 := applyMatrix4 v worldMatrix.

Lemma foldTriangles_NaN (A : Type) (look : A -> option Vector3) (l : list A) :
  foldTriangles (triangleBody look worldMatrix) l None = None.
Proof.
  induction l as [| | |a b c rest IH] using triangle_list_ind; simpl; auto.
Qed.

Lemma foldTriangles_partial (A : Type) (look : A -> option Vector3) (l : list A) :
  (length l mod 3 <> 0)%nat ->
  forall vol, foldTriangles (triangleBody look worldMatrix) l vol = None.
Proof.
  induction l as [| | |a b c rest IH] using triangle_list_ind; intros Hmod vol.
  - exfalso. apply Hmod. reflexivity.
  - reflexivity.
  - reflexivity.
  - simpl. apply IH. intros H. apply Hmod.
    change (length (a :: b :: c :: rest)) with (3 + length rest)%nat.
    rewrite Nat.add_comm. replace 3%nat with (1 * 3)%nat by reflexivity.
    rewrite Nat.Div0.mod_add. exact H.
Qed.

(** On whole triangles whose corners are all found, the fold adds one
    tetrahedron per triangle to the running volume. *)
Lemma foldTriangles_sum (A : Type) (look : A -> option Vector3) (l : list A) :
  forall vs acc,
    Forall2 (fun a v => look a = Some v) l vs ->
    (length vs mod 3 = 0)%nat ->
    foldTriangles (triangleBody look worldMatrix) l (Some acc)
    = Some (fold_left Qplus (map tetrahedron (triples (map world vs))) acc).
Proof.
  induction l as [| | |a b c rest IH] using triangle_list_ind;
    intros vs acc Hall Hmod.
  - inversion Hall; subst. reflexivity.
  - inversion Hall as [|? v0 ? vs0 _ Hrest]; subst.
    inversion Hrest; subst. discriminate Hmod.
  - inversion Hall as [|? v0 ? vs0 _ Hrest]; subst.
    inversion Hrest as [|? v1 ? vs1 _ Hrest']; subst.
    inversion Hrest'; subst. discriminate Hmod.
  - inversion Hall as [|? v0 ? vs0 Ha Hrest]; subst.
    inversion Hrest as [|? v1 ? vs1 Hb Hrest']; subst.
    inversion Hrest' as [|? v2 ? vs2 Hc Hrest'']; subst.
    simpl. rewrite Ha, Hb, Hc. simpl.
    rewrite (IH vs2 _ Hrest''); [reflexivity|].
    change (length (v0 :: v1 :: v2 :: vs2)) with (3 + length vs2)%nat in Hmod.
    rewrite Nat.add_comm in Hmod. replace 3%nat with (1 * 3)%nat in Hmod by reflexivity.
    rewrite Nat.Div0.mod_add in Hmod. exact Hmod.
Qed.

Lemma lookupAll_Forall2 (pos : list Vector3) (idx : list nat) :
  forall vs, lookupAll pos idx = Some vs ->
             Forall2 (fun i v => vertexAt pos i = Some v) idx vs.
Proof.
  induction idx as [|i rest IH]; intros vs H; simpl in H.
  - injection H as <-. constructor.
  - destruct (nth_error pos i) as [v|] eqn:Hv; [|discriminate].
    simpl in H. destruct (lookupAll pos rest) as [vs'|]; [|discriminate].
    injection H as <-. constructor; [|apply IH; reflexivity].
    now rewrite vertexAt_nth_error.
Qed.

Lemma Forall2_Some (l : list Vector3) : Forall2 (fun a v => Some a = Some v) l l.
Proof. induction l; constructor; auto. Qed.

(** The running volume depends on its start only by value. *)
Lemma foldTriangles_num_eq (A : Type) (look : A -> option Vector3) (l : list A) :
  forall v v', v == v' ->
    num_eq (foldTriangles (triangleBody look worldMatrix) l (Some v))
           (foldTriangles (triangleBody look worldMatrix) l (Some v')).
Proof.
  induction l as [| | |a b c rest IH] using triangle_list_ind; intros v v' Hv;
    simpl; auto.
  destruct (look a), (look b), (look c); simpl;
    try (rewrite !foldTriangles_NaN; exact I).
  apply IH. now rewrite Hv.
Qed.

End VolumeProperties.

(** C5 (the code departs from it).  When the count the loop runs against
    is not a multiple of 3, the estimator does not stop at the last whole
    triangle: its last round reads past the end of the buffer and the
    volume is NaN, while [countGeometryStats] reports the floored count. *)
Theorem partial_triangle_read_past_end
    {M : Type} {WT : WorldTransform M} (mesh : Object3D M)
    (g : BufferGeometry) (pos : list Vector3) :
  geometry mesh = Some g ->
  position g = Some pos ->
  (bufferCount g pos mod 3 <> 0)%nat ->
  calculateMeshVolume mesh = None
  /\ triangles (countGeometryStats g) = (bufferCount g pos / 3)%nat.
Proof.
  intros Hg Hpos Hmod. unfold calculateMeshVolume, countGeometryStats, bufferCount in *.
  rewrite Hg, Hpos. destruct (index g) as [idx|]; split; try reflexivity.
  - rewrite indexedBody_loop. now apply foldTriangles_partial.
  - rewrite plainBody_loop. now apply foldTriangles_partial.
Qed.

Lemma partial_triangle_read_past_end_witness :
  (bufferCount danglingGeometry cornerPositions mod 3 <> 0)%nat
  /\ calculateMeshVolume danglingMesh = None
  /\ triangles (countGeometryStats danglingGeometry) = 1%nat
  /\ Qsum (map tetrahedron (triples cornerPositions)) == 1 # 6.
Proof.
  assert (H : (bufferCount danglingGeometry cornerPositions mod 3 <> 0)%nat)
    by (vm_compute; discriminate).
  split; [exact H|].
  destruct (@partial_triangle_read_past_end _ _ danglingMesh danglingGeometry
              cornerPositions eq_refl eq_refl H) as [Hnan Hcount].
  split; [exact Hnan|]. split; [exact Hcount|]. reflexivity.
Defined.

(** ** The base fill *)

Section BaseFillProperties.
Context {M : Type} {WT : WorldTransform M}.

Lemma short_hull_of_short_input (points : list Vector2) :
  (length points < 3)%nat -> fst (computeConvexHull2D points) = points.
Proof.
  intros H. unfold computeConvexHull2D.
  destruct (Nat.ltb_spec (length points) 3); [reflexivity | lia].
Qed.

Lemma createBaseFill_no_fill (model : Object3D M) (bbox : Box3) :
  Qmax 0 (y3 (bmin bbox)) <= tolerance ->
  createBaseFill model bbox = Result None 0.
Proof.
  intros H. unfold createBaseFill.
  destruct (length (projectedPointsOf model) <? 3)%nat; [reflexivity|].
  destruct (length (fst (computeConvexHull2D (projectedPointsOf model))) <? 3)%nat;
    [reflexivity|].
  apply Qle_bool_iff in H. rewrite H. reflexivity.
Qed.

(** The three ways out of [createBaseFill]. *)
Lemma createBaseFill_cases (model : Object3D M) (bbox : Box3) :
  createBaseFill model bbox = Result None 0
  \/ (tolerance < Qmax 0 (y3 (bmin bbox))
      /\ exists hull,
          createBaseFill model bbox
          = Result (Some (Extrude hull (Qmax 0 (y3 (bmin bbox)))))
                   (Qabs (calculateShapeArea hull) * Qmax 0 (y3 (bmin bbox)))).
Proof.
  unfold createBaseFill.
  destruct (length (projectedPointsOf model) <? 3)%nat; [now left|].
  destruct (length (fst (computeConvexHull2D (projectedPointsOf model))) <? 3)%nat;
    [now left|].
  destruct (Qle_bool (Qmax 0 (y3 (bmin bbox))) tolerance) eqn:Hle; [now left|].
  right. split.
  - apply Qnot_le_lt. intros H. apply Qle_bool_iff in H. congruence.
  - eexists. reflexivity.
Qed.
End BaseFillProperties.

(** C4.  Whenever the fill height max(0, minimum elevation) is at most the
    tolerance 0.001, the result has no solid and volume exactly 0, whatever
    the footprint. *)
Theorem createBaseFill_nothing_to_fill
    {M : Type} {WT : WorldTransform M} (model : Object3D M) (bbox : Box3) :
  Qmax 0 (y3 (bmin bbox)) <= 1 # 1000 ->
  mesh (createBaseFill model bbox) = None
  /\ volume (createBaseFill model bbox) = 0.
Proof.
  intros H. rewrite (createBaseFill_no_fill model bbox H). split; reflexivity.
Qed.

Lemma createBaseFill_nothing_to_fill_witness :
  Qmax 0 (y3 (bmin (Box (Vec3 0 (1 # 1000) 0) (Vec3 10 3 10)))) <= 1 # 1000
  /\ mesh (createBaseFill raisedSlab (Box (Vec3 0 (1 # 1000) 0) (Vec3 10 3 10))) = None
  /\ volume (createBaseFill raisedSlab (Box (Vec3 0 (1 # 1000) 0) (Vec3 10 3 10))) = 0.
Proof.
  assert (H : Qmax 0 (y3 (bmin (Box (Vec3 0 (1 # 1000) 0) (Vec3 10 3 10)))) <= 1 # 1000)
    by (vm_compute; discriminate).
  split; [exact H|].
  exact (@createBaseFill_nothing_to_fill _ _ raisedSlab _ H).
Defined.

(** ** Plane geometry around the pivot *)

(** [crossProduct o a b] is twice the signed area of the triangle
    (o, a, b): unchanged by turning the triangle, negated by a swap. *)
Lemma cross_cycle o a b : crossProduct o a b == crossProduct a b o.
Proof. unfold crossProduct. ring. Qed.

Lemma cross_swap o a b : crossProduct o a b == - crossProduct o b a.
Proof. unfold crossProduct. ring. Qed.

(** Three instances of the Grassmann-Pluecker relation among the six
    areas spanned by four directions from one corner.  With the stack
    ... x, t and a new point [p]:

    - a point [q] not further round than [t] stays left of the new edge
      (t, p) when [p] turns left at [t]; *)
Lemma new_edge_before_top P x t p q :
  0 < crossProduct P x t -> 0 <= crossProduct x t q -> 0 <= crossProduct P q t ->
  0 < crossProduct x t p -> 0 <= crossProduct P t p -> 0 <= crossProduct t p q.
Proof.
  intros HC H1 H2 H3 H4.
  assert (E : crossProduct P x t * crossProduct t p q
              == crossProduct x t p * crossProduct P q t
                 + crossProduct x t q * crossProduct P t p)
    by (unfold crossProduct; ring).
  nra.
Qed.

(**  - a point [q] not before [t], left of the popped edge (t, u), stays
      left of the new edge (t, p) when [p] is right of (t, u); *)
Lemma new_edge_after_top P t u p q :
  crossProduct t u p <= 0 -> 0 <= crossProduct t u q -> 0 <= crossProduct P t q ->
  0 < crossProduct P t u -> 0 <= crossProduct P t p -> 0 <= crossProduct t p q.
Proof.
  intros H1 H2 H3 HC H4.
  assert (E : crossProduct P t u * crossProduct t p q
              == crossProduct P t p * crossProduct t u q
                 - crossProduct P t q * crossProduct t u p)
    by (unfold crossProduct; ring).
  nra.
Qed.

(**  - a point [p] left of the edge (x, y) and not before [x] is left
      of the edge (w, x) under it. *)
Lemma lower_edge_sees P w x y p :
  0 < crossProduct P x y -> 0 <= crossProduct w x y -> 0 <= crossProduct P w x ->
  0 <= crossProduct P x p -> 0 <= crossProduct x y p -> 0 <= crossProduct w x p.
Proof.
  intros HC H1 H2 H3 H4.
  assert (E : crossProduct w x p * crossProduct P x y
              == crossProduct w x y * crossProduct P x p
                 + crossProduct P w x * crossProduct x y p)
    by (unfold crossProduct; ring).
  nra.
Qed.

Lemma dot_cross_identity P a b u :
  dist2 P a * crossProduct P u b
  == dotFrom P a b * crossProduct P u a + crossProduct P a b * dotFrom P u a.
Proof. unfold dist2, dotFrom, crossProduct, dx, dy. ring. Qed.

Lemma lagrange_identity P a b :
  dotFrom P a b ^ 2 + crossProduct P a b ^ 2 == dist2 P a * dist2 P b.
Proof. unfold dist2, dotFrom, crossProduct, dx, dy. ring. Qed.

Lemma dist2_nonneg P a : 0 <= dist2 P a.
Proof. unfold dist2. nra. Qed.

Lemma cross_edge P x t p :
  crossProduct x t p == crossProduct P x t + crossProduct P t p - crossProduct P x p.
Proof. unfold crossProduct. ring. Qed.

Lemma Qsquare_zero (x : Q) : x ^ 2 == 0 -> x == 0.
Proof.
  intros H. destruct (Qlt_le_dec 0 x); [nra|].
  destruct (Qlt_le_dec x 0); [nra|lra].
Qed.

Lemma Qsquares_zero (x y : Q) : x ^ 2 + y ^ 2 <= 0 -> x == 0 /\ y == 0.
Proof.
  intros H. split; apply Qsquare_zero; nra.
Qed.

Lemma dist2_zero P a : dist2 P a <= 0 -> dx P a == 0 /\ dy P a == 0.
Proof. apply Qsquares_zero. Qed.

Lemma same_ray_dot P a b :
  crossProduct P a b == 0 -> 0 <= dotFrom P a b -> dist2 P a <= dist2 P b ->
  dist2 P a <= dotFrom P a b.
Proof.
  intros Hc Hd Hl.
  pose proof (lagrange_identity P a b) as L. pose proof (dist2_nonneg P a) as Ha.
  pose proof (dist2_nonneg P b) as Hb.
  assert (E : dotFrom P a b ^ 2 == dist2 P a * dist2 P b) by nra.
  nra.
Qed.

Lemma polarLe_refl P a : polarLe P a a.
Proof.
  split.
  - unfold crossProduct. nra.
  - intros _. split; [|apply Qle_refl].
    unfold dotFrom. nra.
Qed.

(** A point pushed on a strictly convex corner lies strictly further round
    the pivot than the corner: the tie-break by distance rules out the
    same ray. *)
Lemma fan_stays_strict P x t p :
  0 < crossProduct P x t -> 0 < crossProduct x t p -> polarLe P t p ->
  0 < crossProduct P t p.
Proof.
  intros Hxt Hedge [Hge Hray].
  destruct (Qlt_le_dec 0 (crossProduct P t p)) as [|Hle]; [assumption|exfalso].
  assert (Hz : crossProduct P t p == 0) by lra.
  destruct (Hray Hz) as [Hd Hl].
  pose proof (same_ray_dot Hz Hd Hl) as Hdot.
  pose proof (dot_cross_identity P t p x) as I.
  pose proof (cross_edge P x t p) as E.
  pose proof (dist2_nonneg P t) as Ht.
  assert (Hpos : 0 < dist2 P t).
  { destruct (Qlt_le_dec 0 (dist2 P t)) as [|Hn]; [assumption|exfalso].
    destruct (dist2_zero Hn) as [Zx Zy].
    unfold crossProduct in Hxt. unfold dx, dy in Zx, Zy. nra. }
  nra.
Qed.

Lemma three_vectors_x P a b c :
  crossProduct P a c * dx P b == crossProduct P a b * dx P c + crossProduct P b c * dx P a.
Proof. unfold crossProduct, dx. ring. Qed.

Lemma three_vectors_y P a b c :
  crossProduct P a c * dy P b == crossProduct P a b * dy P c + crossProduct P b c * dy P a.
Proof. unfold crossProduct, dy. ring. Qed.

Lemma cross_dxdy P a b : crossProduct P a b == dx P a * dy P b - dy P a * dx P b.
Proof. unfold crossProduct, dx, dy. ring. Qed.

(** Strictly further round than [a], then further still or beyond on
    the same ray: strictly further round than [a]. *)
Lemma strictly_before_trans P a b c :
  above P a -> above P b -> above P c ->
  0 < crossProduct P a b -> polarLe P b c -> 0 < crossProduct P a c.
Proof.
  intros Ha Hb Hc Hab [Hge Hray].
  destruct (Qlt_le_dec 0 (crossProduct P b c)) as [Hbc|Hle].
  - pose proof (three_vectors_y P a b c) as Y.
    pose proof (three_vectors_x P a b c) as X.
    pose proof (cross_dxdy P a b) as Eab.
    pose proof (cross_dxdy P b c) as Ebc.
    destruct Ha as [Ha|[Ha Ha']], Hb as [Hb|[Hb Hb']], Hc as [Hc|[Hc Hc']]; nra.
  - assert (Hz : crossProduct P b c == 0) by lra.
    destruct (Hray Hz) as [Hd Hl].
    pose proof (same_ray_dot Hz Hd Hl) as Hdot.
    pose proof (dot_cross_identity P b c a) as I.
    assert (Hpos : 0 < dist2 P b).
    { destruct (Qlt_le_dec 0 (dist2 P b)) as [|Hn]; [assumption|exfalso].
      destruct (dist2_zero Hn) as [Zx Zy].
      pose proof (cross_dxdy P a b). nra. }
    nra.
Qed.

(** [q] between the pivot and [h] on their ray is left of any edge
    leaving [h] counter-clockwise. *)
Lemma first_ray_inside P q h p :
  polarLe P q h -> 0 <= crossProduct P h q -> 0 <= crossProduct P h p ->
  0 <= crossProduct h p q.
Proof.
  intros [Hge Hray] Hhq Hhp.
  pose proof (cross_swap P q h) as Sw.
  assert (Hz : crossProduct P q h == 0) by lra.
  destruct (Hray Hz) as [Hd Hl].
  pose proof (same_ray_dot Hz Hd Hl) as Hdot.
  pose proof (dot_cross_identity P h p q) as I.
  pose proof (cross_edge P h p q) as E.
  pose proof (cross_swap P q p) as Sw2.
  assert (Hdot' : dotFrom P h q == dotFrom P q h) by (unfold dotFrom; ring).
  assert (Hcr : crossProduct P h q == 0) by lra.
  pose proof (lagrange_identity P q h) as L.
  pose proof (dist2_nonneg P q) as Nq. pose proof (dist2_nonneg P h) as Nh.
  destruct (Qlt_le_dec 0 (dist2 P h)) as [Hpos|Hn].
  - assert (Hle : dotFrom P q h <= dist2 P h) by nra.
    nra.
  - destruct (dist2_zero Hn) as [Zx Zy].
    assert (Hq0 : dist2 P q <= 0) by lra.
    destruct (dist2_zero Hq0) as [Zx' Zy'].
    unfold crossProduct. unfold dx, dy in *. nra.
Qed.

(** Points on one ray from the pivot are collinear with it. *)
Lemma one_ray_collinear P q h p :
  polarLe P q h -> 0 <= crossProduct P h q -> crossProduct P h p == 0 ->
  crossProduct P p q == 0.
Proof.
  intros [Hge Hray] Hhq Hhp.
  pose proof (cross_swap P q h) as Sw.
  assert (Hz : crossProduct P q h == 0) by lra.
  destruct (Hray Hz) as [Hd Hl].
  pose proof (dot_cross_identity P h p q) as I.
  pose proof (cross_swap P q p) as Sw2.
  destruct (Qlt_le_dec 0 (dist2 P h)) as [Hpos|Hn].
  - nra.
  - destruct (dist2_zero Hn) as [Zx Zy].
    assert (Hq0 : dist2 P q <= 0) by lra.
    destruct (dist2_zero Hq0) as [Zx' Zy'].
    unfold crossProduct. unfold dx, dy in *. nra.
Qed.

Lemma atan2Class_above P a :
  above P a ->
  (dy P a == 0 /\ 0 <= dx P a /\ atan2Class (dy P a) (dx P a) = 1%nat)
  \/ (0 < dy P a /\ atan2Class (dy P a) (dx P a) = 2%nat).
Proof.
  intros [H|[H H']]; unfold atan2Class.
  - right. split; [assumption|].
    destruct (Qcompare_spec (dy P a) 0); try lra. reflexivity.
  - left. split; [assumption|]. split; [assumption|].
    destruct (Qcompare_spec (dy P a) 0); try lra.
    destruct (Qcompare_spec (dx P a) 0); try lra; reflexivity.
Qed.

Lemma compareFn_cases P a b :
  above P a -> above P b ->
  (dy P a == 0 /\ dy P b == 0 /\ compareFn P a b = (dist2 P a ?= dist2 P b))
  \/ (dy P a == 0 /\ 0 < dy P b /\ compareFn P a b = Lt)
  \/ (0 < dy P a /\ dy P b == 0 /\ compareFn P a b = Gt)
  \/ (0 < dy P a /\ 0 < dy P b /\
      compareFn P a b = match dy P a * dx P b ?= dx P a * dy P b with
                        | Eq => dist2 P a ?= dist2 P b
                        | c => c
                        end).
Proof.
  intros Ha Hb. unfold compareFn, atan2Compare.
  fold (dy P a) (dx P a) (dy P b) (dx P b).
  destruct (atan2Class_above Ha) as [(Ha0 & Hax & Ca)|(Ha0 & Ca)],
           (atan2Class_above Hb) as [(Hb0 & Hbx & Cb)|(Hb0 & Cb)];
    rewrite Ca, Cb; simpl.
  - left. auto.
  - right; left. auto.
  - right; right; left. auto.
  - right; right; right. auto.
Qed.

(** The comparator on the points the scan meets, case by case. *)
Lemma leP_spec P a b :
  above P a -> above P b ->
  (leP P a b <->
   (dy P a == 0 /\ (0 < dy P b \/ (dy P b == 0 /\ dist2 P a <= dist2 P b)))
   \/ (0 < dy P a /\ 0 < dy P b /\
       (0 < crossProduct P a b \/ (crossProduct P a b == 0 /\ dist2 P a <= dist2 P b)))).
Proof.
  intros Ha Hb. unfold leP.
  pose proof (cross_dxdy P a b) as E.
  destruct (compareFn_cases Ha Hb)
    as [(A & B & C)|[(A & B & C)|[(A & B & C)|(A & B & C)]]]; rewrite C.
  - rewrite <- Qle_alt. split.
    + intros H. left. split; [assumption|]. right. split; assumption.
    + intros [[_ [H|[_ H]]]|[H _]]; lra.
  - split.
    + intros _. left. split; [assumption|]. left; assumption.
    + intros _; discriminate.
  - split.
    + intros H; exfalso; apply H; reflexivity.
    + intros [[H _]|[_ [H _]]]; lra.
  - destruct (Qcompare_spec (dy P a * dx P b) (dx P a * dy P b)) as [Hc|Hc|Hc].
    + rewrite <- Qle_alt. split.
      * intros H. right. split; [assumption|]. split; [assumption|].
        right. split; [lra|assumption].
      * intros [[H _]|[_ [_ [H|[_ H]]]]]; lra.
    + split.
      * intros _. right. split; [assumption|]. split; [assumption|]. left. lra.
      * intros _; discriminate.
    + split.
      * intros H; exfalso; apply H; reflexivity.
      * intros [[H _]|[_ [_ [H|[H _]]]]]; lra.
Qed.

Lemma leP_total P a b : above P a -> above P b -> leP P a b \/ leP P b a.
Proof.
  intros Ha Hb.
  rewrite (leP_spec Ha Hb), (leP_spec Hb Ha).
  pose proof (cross_swap P a b) as Sw.
  destruct (atan2Class_above Ha) as [(Ha0 & Hax & _)|(Ha0 & _)],
           (atan2Class_above Hb) as [(Hb0 & Hbx & _)|(Hb0 & _)].
  - destruct (Qlt_le_dec (dist2 P b) (dist2 P a)).
    + right. left. split; [assumption|]. right. split; [assumption|lra].
    + left. left. split; [assumption|]. right. split; assumption.
  - left. left. split; [assumption|]. left; assumption.
  - right. left. split; [assumption|]. left; assumption.
  - destruct (Qcompare_spec 0 (crossProduct P a b)) as [Hc|Hc|Hc].
    + destruct (Qlt_le_dec (dist2 P b) (dist2 P a)).
      * right. right. repeat split; try assumption. right. split; lra.
      * left. right. repeat split; try assumption. right. split; [lra|assumption].
    + left. right. repeat split; try assumption. left; assumption.
    + right. right. repeat split; try assumption. left. lra.
Qed.

Lemma leP_trans P a b c :
  above P a -> above P b -> above P c -> leP P a b -> leP P b c -> leP P a c.
Proof.
  intros Ha Hb Hc.
  rewrite (leP_spec Ha Hb), (leP_spec Hb Hc), (leP_spec Ha Hc).
  pose proof (three_vectors_y P a b c) as Y.
  intros [[A1 [A2|[A2 A3]]]|(A1 & A2 & A3)] [[B1 [B2|[B2 B3]]]|(B1 & B2 & B3)]; try lra.
  right. split; [assumption|]. split; [assumption|].
  destruct A3 as [A3|[A3 A4]], B3 as [B3|[B3 B4]].
  - left. nra.
  - left. nra.
  - left. nra.
  - right. split; [nra|lra].
Qed.

(** What the sorted order gives the scan. *)
Lemma leP_polarLe P a b : above P a -> above P b -> leP P a b -> polarLe P a b.
Proof.
  intros Ha Hb. rewrite (leP_spec Ha Hb).
  pose proof (cross_dxdy P a b) as E.
  assert (D : dotFrom P a b == dx P a * dx P b + dy P a * dy P b) by reflexivity.
  intros [[A1 [A2|[A2 A3]]]|(A1 & A2 & [A3|[A3 A4]])].
  - destruct Ha as [Ha|[_ Ha]]; [lra|].
    split; [nra|]. intros Hz.
    assert (Zx : dx P a == 0) by nra.
    split; [nra|]. unfold dist2. nra.
  - destruct Ha as [Ha|[_ Ha]]; [lra|]. destruct Hb as [Hb|[_ Hb]]; [lra|].
    split; [nra|]. intros _. split; [nra|assumption].
  - split; [lra|]. intros Hz. lra.
  - split; [lra|]. intros _. split; [|assumption].
    assert (K : dotFrom P a b * dy P a == dist2 P a * dy P b
                                          - crossProduct P a b * dx P a)
      by (unfold dotFrom, dist2, crossProduct, dx, dy; ring).
    pose proof (dist2_nonneg P a). nra.
Qed.

(** Two points the comparator cannot tell apart have the same
    coordinates. *)
Lemma leP_antisym P a b :
  above P a -> above P b -> leP P a b -> leP P b a -> samePoint a b.
Proof.
  intros Ha Hb Hab Hba.
  pose proof (leP_polarLe Ha Hb Hab) as [G1 R1].
  pose proof (leP_polarLe Hb Ha Hba) as [G2 R2].
  pose proof (cross_swap P a b) as Sw.
  assert (Hz : crossProduct P a b == 0) by lra.
  assert (Hz' : crossProduct P b a == 0) by lra.
  destruct (R1 Hz) as [D1 L1]. destruct (R2 Hz') as [D2 L2].
  assert (Hd : dist2 P a == dist2 P b) by lra.
  pose proof (lagrange_identity P a b) as L.
  assert (S : (dx P a - dx P b) ^ 2 + (dy P a - dy P b) ^ 2
              == dist2 P a + dist2 P b - 2 * dotFrom P a b)
    by (unfold dist2, dotFrom; ring).
  assert (Hdot : dotFrom P a b == dist2 P a).
  { pose proof (dist2_nonneg P a).
    assert (E2 : dotFrom P a b ^ 2 == dist2 P a ^ 2) by nra.
    assert (E3 : (dotFrom P a b - dist2 P a) * (dotFrom P a b + dist2 P a) == 0) by nra.
    destruct (Qlt_le_dec 0 (dotFrom P a b + dist2 P a)); [nra|].
    nra. }
  assert (Z : (dx P a - dx P b) ^ 2 + (dy P a - dy P b) ^ 2 <= 0) by lra.
  destruct (Qsquares_zero Z) as [Zx Zy].
  unfold dx, dy in Zx, Zy. split; lra.
Qed.

(** ** The comparator and the angle

    [atan2Compare] decides, on exact numbers, how the two-argument
    arctangents of two directions compare. *)

Section Angles.
Lemma Rcompare_Q2R (a b : Q) : Rcompare (Q2R a) (Q2R b) = (a ?= b).
Proof.
  destruct (Qcompare_spec a b) as [H|H|H];
    [apply Qeq_eqR in H | apply Qlt_Rlt in H | apply Qlt_Rlt in H];
    destruct (Rcompare_spec (Q2R a) (Q2R b)); try reflexivity; lra.
Qed.

Lemma Q2R_zero : Q2R 0 = 0%R.
Proof. unfold Q2R. simpl. lra. Qed.

Lemma Rcompare_Q2R_zero (a : Q) : Rcompare (Q2R a) 0 = (a ?= 0).
Proof. rewrite <- Q2R_zero. apply Rcompare_Q2R. Qed.

Local Open Scope R_scope.

(** Where the angle lies, by the class of the direction. *)
Lemma atan2R_range (y x : R) :
  match Rcompare y 0 with
  | Lt => - PI < atan2R y x < 0
  | Gt => 0 < atan2R y x < PI
  | Eq => match Rcompare x 0 with
          | Lt => atan2R y x = PI
          | _ => atan2R y x = 0
          end
  end.
Proof.
  unfold atan2R. pose proof (atan_bound (x / y)) as [B1 B2].
  destruct (Rcompare y 0); [destruct (Rcompare x 0); reflexivity | lra | lra].
Qed.

Lemma ratio_lt (xa ya xb yb : R) :
  0 < ya * yb -> (xa / ya < xb / yb <-> xa * yb < ya * xb).
Proof.
  intros H.
  assert (Hya : ya <> 0) by (intros E; rewrite E in H; lra).
  assert (Hyb : yb <> 0) by (intros E; rewrite E in H; lra).
  assert (E : xb / yb - xa / ya = (ya * xb - xa * yb) / (ya * yb)) by (field; auto).
  split; intros K.
  - assert (0 < (ya * xb - xa * yb) / (ya * yb)) by lra.
    assert (0 < (ya * xb - xa * yb) / (ya * yb) * (ya * yb)) by (apply Rmult_lt_0_compat; lra).
    replace ((ya * xb - xa * yb) / (ya * yb) * (ya * yb)) with (ya * xb - xa * yb) in *
      by (field; auto).
    lra.
  - assert (0 < (ya * xb - xa * yb) / (ya * yb)).
    { apply Rdiv_lt_0_compat; lra. }
    lra.
Qed.

Lemma Rcompare_lt (a b : R) : a < b -> Rcompare a b = Lt.
Proof. intros H. destruct (Rcompare_spec a b); try reflexivity; lra. Qed.

Lemma Rcompare_gt (a b : R) : b < a -> Rcompare a b = Gt.
Proof. intros H. destruct (Rcompare_spec a b); try reflexivity; lra. Qed.

Lemma Rcompare_eq (a b : R) : a = b -> Rcompare a b = Eq.
Proof. intros H. destruct (Rcompare_spec a b); try reflexivity; lra. Qed.

Lemma atan_compare (s t : R) : Rcompare (atan s) (atan t) = Rcompare s t.
Proof.
  destruct (Rcompare_spec s t) as [->|H|H].
  - now apply Rcompare_eq.
  - apply Rcompare_lt. now apply atan_increasing.
  - apply Rcompare_gt. now apply atan_increasing.
Qed.

(** Within one open half plane the angles compare as the cross product
    says. *)
Lemma atan2R_compare_same_side (ya xa yb xb : R) :
  0 < ya * yb ->
  Rcompare (atan2R ya xa) (atan2R yb xb) = Rcompare (ya * xb) (xa * yb).
Proof.
  intros H.
  assert (Hsame : (0 < ya /\ 0 < yb) \/ (ya < 0 /\ yb < 0)).
  { destruct (Rlt_le_dec 0 ya), (Rlt_le_dec 0 yb); try (left; lra); nra. }
  pose proof (atan_compare (xb / yb) (xa / ya)) as A.
  assert (R : Rcompare (xb / yb) (xa / ya) = Rcompare (ya * xb) (xa * yb)).
  { destruct (Rcompare_spec (ya * xb) (xa * yb)) as [E|L|G].
    - apply Rcompare_eq.
      assert (Hya : ya <> 0) by (intros E'; rewrite E' in H; lra).
      assert (Hyb : yb <> 0) by (intros E'; rewrite E' in H; lra).
      apply Rmult_eq_reg_r with (ya * yb); [|nra].
      replace (xb / yb * (ya * yb)) with (ya * xb) by (field; auto).
      replace (xa / ya * (ya * yb)) with (xa * yb) by (field; auto).
      exact E.
    - apply Rcompare_lt. apply ratio_lt; [lra|]. lra.
    - apply Rcompare_gt. apply ratio_lt; lra. }
  unfold atan2R.
  destruct Hsame as [[Ha Hb]|[Ha Hb]].
  - rewrite (Rcompare_gt Ha), (Rcompare_gt Hb).
    rewrite <- R, <- A.
    destruct (Rcompare_spec (atan (xb / yb)) (atan (xa / ya)));
      [apply Rcompare_eq | apply Rcompare_lt | apply Rcompare_gt]; lra.
  - rewrite (Rcompare_lt Ha), (Rcompare_lt Hb).
    rewrite <- R, <- A.
    destruct (Rcompare_spec (atan (xb / yb)) (atan (xa / ya)));
      [apply Rcompare_eq | apply Rcompare_lt | apply Rcompare_gt]; lra.
Qed.

(** [atan2Compare] is the comparison of the two angles. *)
Theorem atan2Compare_exact (ya xa yb xb : Q) :
  atan2Compare ya xa yb xb
  = Rcompare (atan2R (Q2R ya) (Q2R xa)) (atan2R (Q2R yb) (Q2R xb)).
Proof.
  pose proof (atan2R_range (Q2R ya) (Q2R xa)) as Ra.
  pose proof (atan2R_range (Q2R yb) (Q2R xb)) as Rb.
  pose proof PI_RGT_0 as Hpi.
  rewrite !Rcompare_Q2R_zero in Ra, Rb.
  unfold atan2Compare, atan2Class.
  destruct (Qcompare_spec ya 0) as [Ea|La|Ga], (Qcompare_spec yb 0) as [Eb|Lb|Gb];
    cbn [Nat.compare].
  - destruct (Qcompare_spec xa 0), (Qcompare_spec xb 0); cbn [Nat.compare];
      symmetry; (apply Rcompare_eq || apply Rcompare_lt || apply Rcompare_gt); lra.
  - destruct (Qcompare_spec xa 0); cbn [Nat.compare];
      symmetry; apply Rcompare_gt; lra.
  - destruct (Qcompare_spec xa 0); cbn [Nat.compare];
      symmetry; (apply Rcompare_lt || apply Rcompare_gt); lra.
  - destruct (Qcompare_spec xb 0); cbn [Nat.compare];
      symmetry; apply Rcompare_lt; lra.
  - rewrite atan2R_compare_same_side.
    + rewrite <- !Q2R_mult. symmetry. apply Rcompare_Q2R.
    + apply Qlt_Rlt in La, Lb. rewrite Q2R_zero in La, Lb. nra.
  - symmetry; apply Rcompare_lt; lra.
  - destruct (Qcompare_spec xb 0); cbn [Nat.compare];
      symmetry; (apply Rcompare_lt || apply Rcompare_gt); lra.
  - symmetry; apply Rcompare_gt; lra.
  - rewrite atan2R_compare_same_side.
    + rewrite <- !Q2R_mult. symmetry. apply Rcompare_Q2R.
    + apply Qlt_Rlt in Ga, Gb. rewrite Q2R_zero in Ga, Gb. nra.
Qed.

Lemma atan_inv_neg (t : R) : t < 0 -> atan (/ t) = - (PI / 2) - atan t.
Proof.
  intros H.
  assert (E : / t = - / (- t)) by (field; lra).
  rewrite E, atan_opp, atan_inv by lra.
  rewrite atan_opp. ring.
Qed.

(** [atan2R] is the two-argument arctangent of the textbooks. *)
Lemma atan2R_textbook (y x : R) :
  (0 < x -> atan2R y x = atan (y / x))
  /\ (x < 0 -> 0 <= y -> atan2R y x = atan (y / x) + PI)
  /\ (x < 0 -> y < 0 -> atan2R y x = atan (y / x) - PI)
  /\ (x = 0 -> 0 < y -> atan2R y x = PI / 2)
  /\ (x = 0 -> y < 0 -> atan2R y x = - (PI / 2))
  /\ (x = 0 -> y = 0 -> atan2R y x = 0).
Proof.
  unfold atan2R.
  assert (Hinv : forall a b, a <> 0 -> b <> 0 -> b / a = / (a / b))
    by (intros; field; auto).
  destruct (Rcompare_spec y 0) as [Ey|Ly|Gy]; repeat split; intros; subst; try lra.
  - rewrite (Rcompare_gt H). unfold Rdiv. rewrite Rmult_0_l, atan_0. reflexivity.
  - rewrite (Rcompare_lt H). unfold Rdiv. rewrite Rmult_0_l, atan_0. field.
  - rewrite (Rcompare_eq eq_refl). reflexivity.
  - rewrite (Hinv x y) by lra. rewrite atan_inv_neg; [field|].
    apply Ropp_lt_cancel. rewrite Ropp_0.
    replace (- (x / y)) with (x / - y) by (field; lra).
    apply Rdiv_lt_0_compat; lra.
  - rewrite (Hinv x y) by lra. rewrite atan_inv; [field|].
    replace (x / y) with (- x / - y) by (field; lra).
    apply Rdiv_lt_0_compat; lra.
  - unfold Rdiv. rewrite Rmult_0_l, atan_0. field.
  - rewrite (Hinv x y) by lra. rewrite atan_inv; [field|].
    apply Rdiv_lt_0_compat; lra.
  - rewrite (Hinv x y) by lra. rewrite atan_inv_neg; [field|].
    apply Ropp_lt_cancel. rewrite Ropp_0.
    replace (- (x / y)) with (- x / y) by (field; lra).
    apply Rdiv_lt_0_compat; lra.
  - unfold Rdiv. rewrite Rmult_0_l, atan_0. field.
Qed.
End Angles.

Section Sorting.
Variable cmp : Vector2 -> Vector2 -> comparison.
Variable D : Vector2 -> Prop.
Let le (a b : Vector2) : Prop := cmp a b <> Gt.
Hypothesis le_total : forall a b, D a -> D b -> le a b \/ le b a.
Hypothesis le_trans : forall a b c, D a -> D b -> D c -> le a b -> le b c -> le a c.

Lemma insertSorted_perm a l : Permutation (a :: l) (insertSorted cmp a l).
Proof.
  induction l as [|b l IH]; simpl; [reflexivity|].
  destruct (cmp a b); try reflexivity.
  rewrite perm_swap. now apply perm_skip.
Qed.

Lemma sort_perm l : Permutation l (sort cmp l).
Proof.
  induction l as [|a l IH]; simpl; [reflexivity|].
  rewrite <- insertSorted_perm. now apply perm_skip.
Qed.

Lemma insertSorted_sorted a l :
  D a -> Forall D l -> StronglySorted le l -> StronglySorted le (insertSorted cmp a l).
Proof.
  intros Da Dl Hs. induction Hs as [|b l Hs IH Hb]; simpl.
  - repeat constructor.
  - inversion Dl as [|? ? Db Dl']; subst.
    assert (Hcase : le a b \/ cmp a b = Gt)
      by (unfold le; destruct (cmp a b); auto; left; discriminate).
    destruct Hcase as [Hab|Hgt].
    + assert (E : match cmp a b with Gt => b :: insertSorted cmp a l | _ => a :: b :: l end
                  = a :: b :: l)
        by (unfold le in Hab; destruct (cmp a b); congruence).
      rewrite E. constructor; [constructor; assumption|].
      constructor; [assumption|].
      rewrite Forall_forall in *. intros c Hc.
      apply le_trans with b; auto.
    + rewrite Hgt. constructor; [apply IH; assumption|].
      assert (Hba : le b a).
      { destruct (le_total Da Db) as [H|H]; [|assumption].
        exfalso. apply H. assumption. }
      rewrite Forall_forall in *. intros c Hc.
      apply Permutation_in with (l' := a :: l) in Hc;
        [|symmetry; apply insertSorted_perm].
      destruct Hc as [<-|Hc]; auto.
Qed.

Lemma sort_sorted l : Forall D l -> StronglySorted le (sort cmp l).
Proof.
  induction l as [|a l IH]; intros Dl; simpl; [constructor|].
  inversion Dl; subst.
  apply insertSorted_sorted; auto.
  rewrite Forall_forall in *. intros c Hc.
  apply Permutation_in with (l' := l) in Hc; [auto|symmetry; apply sort_perm].
Qed.
End Sorting.

Lemma Qltb_lt a b : Qltb a b = true <-> a < b.
Proof.
  unfold Qltb. rewrite Qlt_alt. destruct (a ?= b); split; congruence.
Qed.

Lemma Qltb_ge a b : Qltb a b = false <-> b <= a.
Proof.
  rewrite <- not_true_iff_false, Qltb_lt. split; [apply Qnot_lt_le | apply Qle_not_lt].
Qed.

Lemma lowerLeft_true p q : lowerLeft p q = true -> lexLe p q.
Proof.
  unfold lowerLeft, lexLe. intros H. apply orb_true_iff in H.
  destruct H as [H|H].
  - left. now apply Qltb_lt.
  - apply andb_true_iff in H. destruct H as [H1 H2].
    apply Qeq_bool_iff in H1. apply Qltb_lt in H2. right. split; [assumption|lra].
Qed.

Lemma lowerLeft_false p q : lowerLeft p q = false -> lexLe q p.
Proof.
  unfold lowerLeft, lexLe. intros H. apply orb_false_iff in H.
  destruct H as [H1 H2].
  apply Qltb_ge in H1.
  apply andb_false_iff in H2.
  destruct (Qlt_le_dec (vy q) (vy p)) as [|Hy']; [left; assumption|].
  right. split; [lra|].
  destruct H2 as [H2|H2].
  - exfalso. assert (E : vy p == vy q) by lra.
    apply Qeq_bool_iff in E. congruence.
  - now apply Qltb_ge.
Qed.

Lemma lexLe_trans p q r : lexLe p q -> lexLe q r -> lexLe p r.
Proof. unfold lexLe. intros [H|[H H']] [K|[K K']]; [left|left|left|right; split]; lra. Qed.

Lemma lexLe_refl p : lexLe p p.
Proof. right. split; lra. Qed.

Lemma lexLe_above P q : lexLe P q <-> above P q.
Proof.
  unfold lexLe, above, dx, dy. split; intros [H|[H H']]; [left|right; split|left|right; split]; lra.
Qed.

Lemma findStart_loop points :
  forall len i0 start,
    (start < i0)%nat -> (i0 + len = length points)%nat ->
    (forall j, (j < i0)%nat -> lexLe (at2 points start) (at2 points j)) ->
    let r := fold_left (fun start i => if lowerLeft (at2 points i) (at2 points start)
                                       then i else start) (seq i0 len) start in
    (r < length points)%nat /\
    (forall j, (j < length points)%nat -> lexLe (at2 points r) (at2 points j)).
Proof.
  induction len as [|len IH]; intros i0 start Hs Hn Hmin; simpl.
  - split; [lia|]. intros j Hj. apply Hmin. lia.
  - destruct (lowerLeft (at2 points i0) (at2 points start)) eqn:E.
    + apply IH; [lia|lia|]. intros j Hj.
      destruct (Nat.eq_dec j i0) as [->|Hne]; [apply lexLe_refl|].
      apply lexLe_trans with (at2 points start);
        [apply lowerLeft_true; assumption | apply Hmin; lia].
    + apply IH; [lia|lia|]. intros j Hj.
      destruct (Nat.eq_dec j i0) as [->|Hne];
        [apply lowerLeft_false; assumption | apply Hmin; lia].
Qed.

Lemma findStart_spec points :
  points <> [] ->
  (findStart points < length points)%nat /\
  (forall q, In q points -> above (at2 points (findStart points)) q).
Proof.
  intros Hne. unfold findStart.
  destruct points as [|p0 rest]; [congruence|].
  destruct (@findStart_loop (p0 :: rest) (length (p0 :: rest) - 1) 1 0) as [H1 H2].
  - lia.
  - simpl. lia.
  - intros j Hj. replace j with 0%nat by lia. apply lexLe_refl.
  - split; [exact H1|]. intros q Hq.
    apply lexLe_above. destruct (In_nth _ _ origin2 Hq) as (j & Hj & <-).
    apply H2. exact Hj.
Qed.

Lemma update_swap_perm (p0 : Vector2) rest k :
  (k < length rest)%nat ->
  Permutation (p0 :: rest) (nth k rest origin2 :: update rest k p0).
Proof.
  revert k. induction rest as [|r rest IH]; intros k Hk; simpl in Hk; [lia|].
  destruct k as [|k]; simpl.
  - apply perm_swap.
  - rewrite perm_swap. rewrite (perm_swap r (nth k rest origin2)).
    apply perm_skip. apply IH. lia.
Qed.

Lemma swapToFront_spec points start :
  (start < length points)%nat ->
  exists rest, swapToFront points start = at2 points start :: rest
               /\ Permutation points (at2 points start :: rest).
Proof.
  intros Hs. unfold swapToFront, at2.
  destruct points as [|p0 rest]; [simpl in Hs; lia|].
  destruct start as [|k]; simpl.
  - exists rest. split; reflexivity.
  - exists (update rest k p0). split; [reflexivity|].
    apply update_swap_perm. simpl in Hs. lia.
Qed.

Lemma Chain_inv P Q S :
  Chain P Q S ->
  match S with
  | [] => False
  | [a] => a = P
  | [t; a] => a = P /\ In t Q /\ (forall q, In q Q -> 0 <= crossProduct P t q)
  | t :: x :: w :: r =>
      In t Q /\ Chain P Q (x :: w :: r) /\ 0 < crossProduct P x t
      /\ 0 < crossProduct w x t /\ (forall q, In q Q -> 0 <= crossProduct x t q)
  end.
Proof. destruct 1; auto. Qed.

Lemma popWhile_nonempty p S : S <> [] -> popWhile p S <> [].
Proof.
  induction S as [|t S IH]; [congruence|]. intros _.
  destruct S as [|x S']; [discriminate|].
  change (popWhile p (t :: x :: S'))
    with (if Qle_bool (crossProduct x t p) 0 then popWhile p (x :: S')
          else t :: x :: S').
  destruct (Qle_bool _ _); [apply IH; discriminate | discriminate].
Qed.

Section Step.
Variables (P p : Vector2) (Q : list Vector2).
Hypothesis Q_above : forall q, In q Q -> above P q.
Hypothesis p_above : above P p.
Hypothesis p_last : forall q, In q Q -> polarLe P q p.

Lemma cross_pivot_left x : 0 <= crossProduct P P x.
Proof. unfold crossProduct. nra. Qed.

Lemma chain_second_nonneg x w r : Chain P Q (x :: w :: r) -> 0 <= crossProduct P w x.
Proof.
  intros H. apply Chain_inv in H. destruct r as [|v r].
  - destruct H as (-> & _). apply cross_pivot_left.
  - destruct H as (_ & _ & H & _). lra.
Qed.

Lemma chain_top_in t x r : Chain P Q (t :: x :: r) -> In t Q.
Proof.
  intros H. apply Chain_inv in H.
  destruct r as [|v r]; [destruct H as (_ & H & _) | destruct H as (H & _)]; exact H.
Qed.

Lemma chain_sees t x r :
  Chain P Q (t :: x :: r) -> 0 <= crossProduct x t p -> leftOfChain p (t :: x :: r).
Proof.
  revert t x. induction r as [|w r IH]; intros t x H Hp.
  - simpl. auto.
  - destruct (Chain_inv H) as (Ht & Hrest & Hfan & Hconv & Hleft).
    split; [exact Hp|]. apply IH; [exact Hrest|].
    apply (@lower_edge_sees P w x t p); try lra.
    + apply (chain_second_nonneg Hrest).
    + apply p_last. apply (chain_top_in Hrest).
Qed.

Lemma chain_grow S : Chain P Q S -> leftOfChain p S -> Chain P (p :: Q) S.
Proof.
  induction 1 as [|t Ht Hleft|t x w r Ht Hrest IH Hfan Hconv Hleft]; intros Hp.
  - constructor.
  - constructor; [right; exact Ht|].
    intros q [<-|Hq]; [apply Hp | apply Hleft, Hq].
  - destruct Hp as [Hp Hp'].
    constructor; auto; [right; exact Ht|].
    intros q [<-|Hq]; [exact Hp | apply Hleft, Hq].
Qed.

Lemma cross_self t : crossProduct t p p == 0.
Proof. unfold crossProduct. ring. Qed.

(** Pushing [p] on a stack whose top edge [p] sees strictly from the left. *)
Lemma chain_push_new t x r :
  Chain P Q (t :: x :: r) -> 0 < crossProduct x t p ->
  (forall q, In q Q -> 0 <= crossProduct t p q) ->
  Chain P (p :: Q) (p :: t :: x :: r).
Proof.
  intros H Hexit Hnew.
  assert (Ht : In t Q) by apply (chain_top_in H).
  assert (Hfan : 0 < crossProduct P t p).
  { destruct r as [|w r].
    - destruct (Chain_inv H) as (-> & _). exact Hexit.
    - destruct (Chain_inv H) as (_ & _ & Hfan & _).
      apply (@fan_stays_strict P x t p); auto. }
  constructor.
  - left; reflexivity.
  - apply chain_grow; [exact H|]. apply chain_sees; [exact H|lra].
  - exact Hfan.
  - exact Hexit.
  - intros q [<-|Hq]; [rewrite cross_self; lra | apply Hnew, Hq].
Qed.

(** After at least one pop: [u] is the element popped last. *)
Lemma pop_after S :
  Chain P Q S ->
  forall t rest u, S = t :: rest -> rest <> [] ->
    In u Q -> 0 < crossProduct P t u -> crossProduct t u p <= 0 ->
    (forall q, In q Q -> 0 <= crossProduct t u q) ->
    Chain P (p :: Q) (p :: popWhile p S).
Proof.
  induction 1 as [|t Ht Hleft|t x w r Ht Hrest IH Hfan Hconv Hleft];
    intros t' rest u E Hne Hu Hfu Hpop Hedge.
  - injection E as <- <-. congruence.
  - injection E as <- <-.
    assert (Hp : 0 < crossProduct P t p)
      by (apply (@strictly_before_trans P t u p); auto).
    simpl. destruct (Qle_bool (crossProduct P t p) 0) eqn:Eb.
    + apply Qle_bool_iff in Eb. lra.
    + apply chain_push_new; [constructor; assumption | exact Hp |].
      intros q Hq. apply (@new_edge_after_top P t u p q); auto; lra.
  - injection E as <- <-.
    change (popWhile p (t :: x :: w :: r))
      with (if Qle_bool (crossProduct x t p) 0 then popWhile p (x :: w :: r)
            else t :: x :: w :: r).
    destruct (Qle_bool (crossProduct x t p) 0) eqn:Eb.
    + apply Qle_bool_iff in Eb.
      apply (IH x (w :: r) t); auto. discriminate.
    + assert (Hexit : 0 < crossProduct x t p).
      { apply Qnot_le_lt. intros Hle. apply Qle_bool_iff in Hle. congruence. }
      apply chain_push_new; [constructor; assumption | exact Hexit |].
      assert (Hp : 0 <= crossProduct P t p) by (apply p_last; exact Ht).
      intros q Hq.
      destruct (Qlt_le_dec (crossProduct P t q) 0) as [Hneg|Hpos].
      * apply (@new_edge_before_top P x t p q); auto.
        pose proof (cross_swap P q t). lra.
      * apply (@new_edge_after_top P t u p q); auto.
Qed.

(** One round of the loop. *)
Lemma scan_step S :
  Chain P Q S -> TopMax P Q S ->
  Chain P (p :: Q) (p :: popWhile p S) /\ TopMax P (p :: Q) (p :: popWhile p S).
Proof.
  intros HC HT. split.
  - destruct HC as [|t Ht Hleft|t x w r Ht Hrest Hfan Hconv Hleft].
    + simpl in *. subst Q. constructor; [left; reflexivity|].
      intros q [<-|[]]. unfold crossProduct. nra.
    + simpl in HT.
      assert (Hp : 0 <= crossProduct P t p) by (apply p_last; exact Ht).
      simpl. destruct (Qle_bool (crossProduct P t p) 0) eqn:Eb.
      * apply Qle_bool_iff in Eb.
        constructor; [left; reflexivity|].
        intros q [<-|Hq]; [unfold crossProduct; nra|].
        assert (E : crossProduct P p q == 0).
        { apply (@one_ray_collinear P q t p); auto. lra. }
        lra.
      * assert (Hexit : 0 < crossProduct P t p).
        { apply Qnot_le_lt. intros Hle. apply Qle_bool_iff in Hle. congruence. }
        apply chain_push_new; [constructor; assumption | exact Hexit |].
        intros q Hq. apply (@first_ray_inside P q t p); auto.
    + simpl in HT.
      change (popWhile p (t :: x :: w :: r))
        with (if Qle_bool (crossProduct x t p) 0 then popWhile p (x :: w :: r)
              else t :: x :: w :: r).
      destruct (Qle_bool (crossProduct x t p) 0) eqn:Eb.
      * apply Qle_bool_iff in Eb.
        apply (@pop_after (x :: w :: r) Hrest x (w :: r) t); auto. discriminate.
      * assert (Hexit : 0 < crossProduct x t p).
        { apply Qnot_le_lt. intros Hle. apply Qle_bool_iff in Hle. congruence. }
        apply chain_push_new; [constructor; assumption | exact Hexit |].
        assert (Hp : 0 <= crossProduct P t p) by (apply p_last; exact Ht).
        intros q Hq. apply (@new_edge_before_top P x t p q); auto.
        apply (HT q Hq).
  - assert (Hne : popWhile p S <> []).
    { apply popWhile_nonempty. destruct HC; discriminate. }
    unfold TopMax. destruct (popWhile p S) as [|s l]; [congruence|].
    intros q [<-|Hq]; [apply polarLe_refl | apply p_last, Hq].
Qed.
End Step.

Lemma buildHull_fold P sorted : buildHull P sorted = fold_left scanStep sorted [P].
Proof. reflexivity. Qed.

Lemma scan_all P l :
  forall Q S,
    (forall q, In q Q -> above P q) ->
    Forall (above P) l ->
    StronglySorted (leP P) l ->
    (forall q r, In q Q -> In r l -> polarLe P q r) ->
    Chain P Q S -> TopMax P Q S ->
    Chain P (rev l ++ Q) (fold_left scanStep l S)
    /\ TopMax P (rev l ++ Q) (fold_left scanStep l S).
Proof.
  induction l as [|p l IH]; intros Q S HQ Hl Hs Hord HC HT.
  - simpl. auto.
  - inversion Hl as [|? ? Hp Hl']; subst.
    inversion Hs as [|? ? Hs' Hpl]; subst.
    destruct (@scan_step P p Q HQ Hp (fun q Hq => Hord q p Hq (or_introl eq_refl)) S HC HT)
      as [HC' HT'].
    simpl. rewrite <- app_assoc. simpl.
    apply IH; auto.
    + intros q [<-|Hq]; auto.
    + intros q r [<-|Hq] Hr.
      * rewrite Forall_forall in Hpl, Hl'. apply leP_polarLe; auto.
      * apply Hord; [exact Hq | right; exact Hr].
Qed.

Lemma cyclicPairs_closing c l f :
  combine (c :: l) (l ++ [f]) = adjacentPairs (c :: l) ++ [(last (c :: l) c, f)].
Proof.
  revert c. induction l as [|b l IH]; intros c; [reflexivity|].
  change (combine (c :: b :: l) ((b :: l) ++ [f]))
    with ((c, b) :: combine (b :: l) (l ++ [f])).
  rewrite IH.
  change (adjacentPairs (c :: b :: l)) with ((c, b) :: adjacentPairs (b :: l)).
  simpl app. do 3 f_equal.
  clear. revert b. induction l as [|a l IH]; intros b; [reflexivity|].
  change (last (b :: a :: l) b) with (last (a :: l) b).
  change (last (c :: b :: a :: l) c) with (last (a :: l) c).
  clear. revert a. induction l as [|a' l IH]; intros a; [reflexivity|].
  change (last (a :: a' :: l) b) with (last (a' :: l) b).
  change (last (a :: a' :: l) c) with (last (a' :: l) c).
  apply IH.
Qed.

Lemma adjacentPairs_snoc l a d :
  l <> [] -> adjacentPairs (l ++ [a]) = adjacentPairs l ++ [(last l d, a)].
Proof.
  induction l as [|b l IH]; intros Hne; [congruence|].
  destruct l as [|c l]; [reflexivity|].
  change (adjacentPairs ((b :: c :: l) ++ [a]))
    with ((b, c) :: adjacentPairs ((c :: l) ++ [a])).
  rewrite IH by discriminate. reflexivity.
Qed.

Lemma adjacentPairs_rev S e : In e (adjacentPairs (rev S)) -> In e (chainEdges S).
Proof.
  induction S as [|t S IH]; [intros []|].
  destruct S as [|x S]; [intros []|].
  change (rev (t :: x :: S)) with (rev (x :: S) ++ [t]).
  rewrite (@adjacentPairs_snoc _ t x)
    by (simpl; intros H; apply app_eq_nil in H; destruct H; discriminate).
  rewrite in_app_iff. intros [H|[<-|[]]].
  - right. apply IH, H.
  - left. f_equal. simpl rev. rewrite last_last. reflexivity.
Qed.

Lemma leftOfChain_edges q S a b :
  leftOfChain q S -> In (a, b) (chainEdges S) -> 0 <= crossProduct a b q.
Proof.
  induction S as [|t S IH]; [intros _ []|].
  destruct S as [|x S]; [intros _ []|].
  intros [H1 H2] [E|H].
  - injection E as <- <-. exact H1.
  - apply IH; assumption.
Qed.

Lemma last_default (A : Type) (l : list A) (d d' : A) : l <> [] -> last l d = last l d'.
Proof.
  induction l as [|a l IH]; [congruence|]. intros _.
  destruct l as [|b l]; [reflexivity|].
  change (last (b :: l) d = last (b :: l) d'). apply IH. discriminate.
Qed.

Lemma last_rev (A : Type) (l : list A) (d : A) : last (rev l) d = hd d l.
Proof. destruct l as [|a l]; [reflexivity|]. simpl. apply last_last. Qed.

Lemma hd_rev (A : Type) (l : list A) (d : A) : hd d (rev l) = last l d.
Proof. rewrite <- (rev_involutive l) at 2. now rewrite last_rev. Qed.

Lemma cyclicPairs_nonempty l :
  l <> [] ->
  cyclicPairs l = adjacentPairs l ++ [(last l origin2, hd origin2 l)].
Proof.
  destruct l as [|c l]; [congruence|]. intros Hne.
  unfold cyclicPairs. simpl tl. simpl firstn. rewrite cyclicPairs_closing.
  rewrite (@last_default _ (c :: l) c origin2 Hne). reflexivity.
Qed.

Lemma insidePolygon_rev S q :
  S <> [] -> leftOfChain q S -> 0 <= crossProduct (hd origin2 S) (last S origin2) q ->
  insidePolygon (rev S) q.
Proof.
  intros Hne Hleft Hclose a b Hab.
  assert (Hr : rev S <> []).
  { intros E. apply Hne. rewrite <- (rev_involutive S), E. reflexivity. }
  rewrite (cyclicPairs_nonempty Hr), last_rev, hd_rev in Hab.
  apply in_app_iff in Hab. destruct Hab as [Hab|[Eab|[]]].
  - apply adjacentPairs_rev in Hab. exact (@leftOfChain_edges q S a b Hleft Hab).
  - injection Eab as <- <-. exact Hclose.
Qed.

Lemma chain_members P Q S : Chain P Q S -> forall s, In s S -> s = P \/ In s Q.
Proof.
  induction 1 as [|t Ht Hleft|t x w r Ht Hrest IH Hfan Hconv Hleft]; intros s Hs.
  - destruct Hs as [<-|[]]. now left.
  - destruct Hs as [<-|[<-|[]]]; auto.
  - destruct Hs as [<-|Hs]; auto.
Qed.

Lemma chain_last P Q S : Chain P Q S -> last S origin2 = P.
Proof.
  induction 1 as [|t Ht Hleft|t x w r Ht Hrest IH Hfan Hconv Hleft]; auto.
Qed.

Lemma chain_left P Q S : Chain P Q S -> forall q, In q Q -> leftOfChain q S.
Proof.
  induction 1 as [|t Ht Hleft|t x w r Ht Hrest IH Hfan Hconv Hleft]; intros q Hq.
  - exact I.
  - split; [apply Hleft, Hq | exact I].
  - split; [apply Hleft, Hq | apply IH, Hq].
Qed.

Lemma chain_pivot_left P Q S : Chain P Q S -> leftOfChain P S.
Proof.
  induction 1 as [|t Ht Hleft|t x w r Ht Hrest IH Hfan Hconv Hleft].
  - exact I.
  - split; [unfold crossProduct; nra | exact I].
  - split; [|exact IH].
    pose proof (cross_cycle P x t). pose proof (cross_cycle x t P). lra.
Qed.

Lemma chain_inside P Q S :
  Chain P Q S -> TopMax P Q S ->
  forall q, q = P \/ In q Q -> insidePolygon (rev S) q.
Proof.
  intros HC HT q Hq.
  assert (Hne : S <> []) by (destruct HC; discriminate).
  apply insidePolygon_rev; [exact Hne| |].
  - destruct Hq as [->|Hq]; [apply (chain_pivot_left HC) | apply (chain_left HC _ Hq)].
  - rewrite (chain_last HC).
    destruct Hq as [->|Hq].
    + unfold crossProduct. nra.
    + destruct S as [|t [|x r]]; [congruence| |].
      * simpl in HT. subst Q. destruct Hq.
      * simpl in HT. simpl hd.
        destruct (HT q Hq) as [Hge _].
        pose proof (cross_cycle P q t). pose proof (cross_cycle q t P). lra.
Qed.

Lemma turnsLeft_snoc l w x t :
  turnsLeft (l ++ [w; x]) -> 0 < crossProduct w x t -> turnsLeft (l ++ [w; x; t]).
Proof.
  intros H Ht. induction l as [|a l IH].
  - simpl. auto.
  - destruct l as [|b [|c l]].
    + simpl in *. destruct H as [H1 _]. auto.
    + simpl in *. destruct H as [H1 [H2 _]]. auto.
    + change (turnsLeft (a :: b :: c :: (l ++ [w; x; t]))).
      change (turnsLeft (a :: b :: c :: (l ++ [w; x]))) in H.
      destruct H as [H1 H2]. split; [exact H1|]. apply IH. exact H2.
Qed.

Lemma chain_turnsLeft P Q S : Chain P Q S -> turnsLeft (rev S).
Proof.
  induction 1 as [|t Ht Hleft|t x w r Ht Hrest IH Hfan Hconv Hleft].
  - exact I.
  - exact I.
  - change (rev (t :: x :: w :: r)) with (((rev r ++ [w]) ++ [x]) ++ [t]).
    change (rev (x :: w :: r)) with ((rev r ++ [w]) ++ [x]) in IH.
    rewrite <- !app_assoc in *. simpl in *.
    now apply turnsLeft_snoc.
Qed.

Lemma polarLe_of_strict P a b : 0 < crossProduct P a b -> polarLe P a b.
Proof. intros H. split; [lra|]. intros E. lra. Qed.

Lemma chain_fan_first P Q S :
  (forall q, In q Q -> above P q) ->
  Chain P Q S ->
  forall h1 rest, rev S = P :: h1 :: rest -> rest <> [] ->
                  0 < crossProduct P h1 (hd origin2 S).
Proof.
  intros HQ. induction 1 as [|t Ht Hleft|t x w r Ht Hrest IH Hfan Hconv Hleft];
    intros h1 rest E Hne.
  - discriminate E.
  - simpl in E. injection E as <- <-. congruence.
  - change (rev (t :: x :: w :: r)) with (rev (x :: w :: r) ++ [t]) in E.
    destruct (rev (x :: w :: r)) as [|p0 [|p1 rest0]] eqn:E0.
    + apply (f_equal (@length _)) in E0. rewrite length_rev in E0. simpl in E0. lia.
    + apply (f_equal (@length _)) in E0. rewrite length_rev in E0. simpl in E0. lia.
    + simpl in E. injection E as -> -> <-.
      destruct rest0 as [|p2 rest0].
      * (* the stack under [t] is [h1; P] *)
        assert (Ex : x :: w :: r = rev [P; h1])
          by (rewrite <- E0, rev_involutive; reflexivity).
        simpl in Ex. injection Ex as -> _ _. exact Hfan.
      * simpl hd.
        assert (Hx : 0 < crossProduct P h1 x).
        { apply (IH h1 (p2 :: rest0)); [reflexivity | discriminate]. }
        assert (Hh1 : In h1 (x :: w :: r)).
        { apply in_rev. rewrite E0. right; now left. }
        assert (Hh1Q : In h1 Q).
        { destruct (chain_members Hrest _ Hh1) as [->|H']; [|exact H'].
          exfalso. unfold crossProduct in Hx. nra. }
        apply (@strictly_before_trans P h1 x t); auto.
        apply HQ. apply (chain_top_in Hrest).
        now apply polarLe_of_strict.
Qed.

Lemma chain_strictlyConvex P Q S :
  (forall q, In q Q -> above P q) ->
  Chain P Q S -> (3 <= length S)%nat -> strictlyConvex (rev S).
Proof.
  intros HQ HC Hlen. unfold strictlyConvex.
  destruct S as [|t [|x [|w r]]]; try (simpl in Hlen; lia).
  destruct (Chain_inv HC) as (Ht & Hrest & Hfan & Hconv & Hleft).
  pose proof (chain_turnsLeft HC) as Hturn.
  pose proof (chain_last HC) as Hlast.
  destruct (rev (t :: x :: w :: r)) as [|p0 [|h1 rest]] eqn:E.
  - apply (f_equal (@length _)) in E. rewrite length_rev in E. simpl in E. lia.
  - apply (f_equal (@length _)) in E. rewrite length_rev in E. simpl in E. lia.
  - assert (Ep : p0 = P).
    { pose proof (hd_rev (t :: x :: w :: r) origin2) as Hh.
      rewrite E in Hh. simpl hd in Hh. congruence. }
    subst p0.
    assert (Hne : rest <> []).
    { intros ->. apply (f_equal (@length _)) in E. rewrite length_rev in E.
      simpl in E. lia. }
    pose proof (chain_fan_first HQ HC E Hne) as Hfirst. simpl hd in Hfirst.
    simpl firstn. rewrite <- E. rewrite <- E in Hturn.
    change (rev (t :: x :: w :: r)) with (((rev r ++ [w]) ++ [x]) ++ [t]) in *.
    rewrite <- !app_assoc in *. simpl app in *.
    replace (rev r ++ [w; x; t; P; h1]) with ((rev r ++ [w; x]) ++ [t; P; h1])
      by (rewrite <- app_assoc; reflexivity).
    apply turnsLeft_snoc.
    + rewrite <- app_assoc. simpl app.
      replace (rev r ++ [w; x; t; P]) with ((rev r ++ [w]) ++ [x; t; P])
        by (rewrite <- app_assoc; reflexivity).
      apply turnsLeft_snoc.
      * rewrite <- app_assoc. exact Hturn.
      * pose proof (cross_cycle P x t). lra.
    + pose proof (cross_cycle P h1 t). pose proof (cross_cycle h1 t P). lra.
Qed.

Lemma hull_structure points :
  (3 <= length points)%nat ->
  exists P rest sorted S,
    Permutation points (P :: rest)
    /\ Permutation rest sorted
    /\ (forall q, In q points -> above P q)
    /\ S = buildHull P sorted
    /\ fst (computeConvexHull2D points) = rev S
    /\ snd (computeConvexHull2D points) = P :: rest
    /\ P = at2 points (findStart points)
    /\ sorted = sort (compareFn P) rest
    /\ StronglySorted (leP P) sorted
    /\ Chain P (rev sorted) S /\ TopMax P (rev sorted) S.
Proof.
  intros Hlen.
  assert (Hne : points <> []) by (destruct points; [simpl in Hlen; lia | discriminate]).
  destruct (findStart_spec Hne) as [Hstart Habove].
  destruct (swapToFront_spec points Hstart) as (rest & Eswap & Hperm).
  set (P := at2 points (findStart points)) in *.
  set (sorted := sort (compareFn P) rest).
  assert (Hrest : Forall (above P) rest).
  { apply Forall_forall. intros q Hq. apply Habove.
    apply Permutation_in with (P :: rest); [symmetry; exact Hperm | right; exact Hq]. }
  assert (Hps : Permutation rest sorted) by apply sort_perm.
  assert (Hsorted_above : Forall (above P) sorted).
  { apply Forall_forall. intros q Hq. rewrite Forall_forall in Hrest. apply Hrest.
    apply Permutation_in with sorted; [symmetry; exact Hps | exact Hq]. }
  assert (Hss : StronglySorted (leP P) sorted).
  { apply (@sort_sorted (compareFn P) (above P)); auto.
    - intros a b. apply leP_total.
    - intros a b c. apply leP_trans. }
  destruct (@scan_all P sorted [] [P]) as [HC HT]; auto.
  - intros q [].
  - intros q r [].
  - constructor.
  - reflexivity.
  - rewrite app_nil_r in HC, HT.
    exists P, rest, sorted, (buildHull P sorted).
    unfold computeConvexHull2D.
    destruct (Nat.ltb_spec (length points) 3); [lia|].
    rewrite Eswap. unfold at2. simpl nth. simpl tl. simpl fst. simpl snd.
    repeat split; auto.
Qed.

Lemma hull_contains_input points :
  (3 <= length (fst (computeConvexHull2D points)))%nat ->
  (forall q, In q points -> insidePolygon (fst (computeConvexHull2D points)) q)
  /\ incl (fst (computeConvexHull2D points)) points
  /\ strictlyConvex (fst (computeConvexHull2D points)).
Proof.
  intros Hhull.
  assert (Hlen : (3 <= length points)%nat).
  { unfold computeConvexHull2D in Hhull.
    destruct (Nat.ltb_spec (length points) 3); [simpl in Hhull; lia | assumption]. }
  destruct (hull_structure points Hlen)
    as (P & rest & sorted & S & Hperm & Hps & Habove & _ & Ehull & _ & _ & _ & _ & HC & HT).
  rewrite Ehull in *. split; [|split].
  - intros q Hq. apply (chain_inside HC HT).
    apply Permutation_in with (l' := P :: rest) in Hq; [|exact Hperm].
    destruct Hq as [<-|Hq]; [now left|right].
    apply in_rev. rewrite rev_involutive.
    apply Permutation_in with rest; assumption.
  - intros s Hs. apply in_rev in Hs.
    apply Permutation_in with (P :: rest); [symmetry; exact Hperm|].
    destruct (chain_members HC _ Hs) as [->|Hq]; [now left|right].
    apply in_rev in Hq.
    apply Permutation_in with sorted; [symmetry; exact Hps | exact Hq].
  - apply (@chain_strictlyConvex P (rev sorted)); [|exact HC|].
    + intros q Hq. apply in_rev in Hq. apply Habove.
      apply Permutation_in with (P :: rest); [symmetry; exact Hperm|right].
      apply Permutation_in with sorted; [symmetry; exact Hps | exact Hq].
    + rewrite length_rev in Hhull. exact Hhull.
Qed.

(** ** The caller's array *)

Lemma length_update points i v : length (update points i v) = length points.
Proof.
  revert i. induction points as [|p rest IH]; intros [|i]; simpl; auto.
Qed.

Lemma nth_error_update_same points i v :
  (i < length points)%nat -> nth_error (update points i v) i = Some v.
Proof.
  revert i. induction points as [|p rest IH]; intros [|i] H; simpl in *; try lia; auto.
  apply IH. lia.
Qed.

Lemma nth_error_update_other points i j v :
  i <> j -> nth_error (update points i v) j = nth_error points j.
Proof.
  revert i j. induction points as [|p rest IH]; intros [|i] [|j] H; simpl; auto.
  congruence.
Qed.

Lemma at2_nth_error points i :
  (i < length points)%nat -> nth_error points i = Some (at2 points i).
Proof. intros H. unfold at2. now apply nth_error_nth'. Qed.

Lemma update_same points i :
  (i < length points)%nat -> update points i (at2 points i) = points.
Proof.
  revert i. induction points as [|p rest IH]; intros [|i] H; simpl in *; try lia; auto.
  f_equal. apply IH. lia.
Qed.

Lemma computeConvexHull2D_short points :
  (length points < 3)%nat -> computeConvexHull2D points = (points, points).
Proof.
  intros H. unfold computeConvexHull2D.
  destruct (Nat.ltb_spec (length points) 3); [reflexivity | lia].
Qed.

Lemma computeConvexHull2D_after points :
  (3 <= length points)%nat ->
  snd (computeConvexHull2D points) = swapToFront points (findStart points).
Proof.
  intros H. unfold computeConvexHull2D.
  destruct (Nat.ltb_spec (length points) 3); [lia | reflexivity].
Qed.

(** C6 (as the code has it).  The hull builder works in place: when it
    returns, the caller's sequence holds the same points with the first
    one and the pivot exchanged and every other position as it was; it is
    unchanged when it has fewer than 3 points or the pivot came first. *)
Theorem computeConvexHull2D_exchanges_pivot (points : list Vector2) :
  Permutation points (snd (computeConvexHull2D points))
  /\ ((length points < 3)%nat \/ findStart points = 0%nat ->
      snd (computeConvexHull2D points) = points)
  /\ ((3 <= length points)%nat ->
      nth_error (snd (computeConvexHull2D points)) 0
      = nth_error points (findStart points)
      /\ nth_error (snd (computeConvexHull2D points)) (findStart points)
         = nth_error points 0
      /\ forall i, i <> 0%nat -> i <> findStart points ->
                   nth_error (snd (computeConvexHull2D points)) i = nth_error points i).
Proof.
  destruct (Nat.lt_ge_cases (length points) 3) as [Hshort|Hlong].
  - rewrite (computeConvexHull2D_short points Hshort). simpl.
    split; [reflexivity|]. split; [reflexivity|]. lia.
  - rewrite (computeConvexHull2D_after points Hlong).
    assert (Hne : points <> []) by (destruct points; [simpl in Hlong; lia | discriminate]).
    destruct (findStart_spec Hne) as [Hstart _].
    split; [|split].
    + destruct (swapToFront_spec points Hstart) as (rest & -> & Hperm). exact Hperm.
    + intros [H|H]; [lia|]. rewrite H. unfold swapToFront.
      rewrite update_same by lia. apply update_same. lia.
    + intros _. unfold swapToFront.
      assert (H0 : (0 < length points)%nat) by lia.
      split; [|split].
      * destruct (Nat.eq_dec (findStart points) 0) as [E|E].
        -- rewrite E. rewrite nth_error_update_same by (rewrite length_update; lia).
           symmetry. apply at2_nth_error. lia.
        -- rewrite nth_error_update_other by exact E.
           rewrite nth_error_update_same by lia.
           symmetry. now apply at2_nth_error.
      * rewrite nth_error_update_same by (rewrite length_update; exact Hstart).
        symmetry. now apply at2_nth_error.
      * intros i Hi0 His.
        rewrite !nth_error_update_other by congruence. reflexivity.
Qed.

Lemma computeConvexHull2D_exchanges_pivot_witness :
  (3 <= length unsortedTriangle)%nat
  /\ nth_error (snd (computeConvexHull2D unsortedTriangle)) 0 = Some (Vec2 0 0)
  /\ nth_error (snd (computeConvexHull2D unsortedTriangle)) 1 = Some (Vec2 1 1).
Proof.
  assert (H : (3 <= length unsortedTriangle)%nat) by (simpl; lia).
  split; [exact H|].
  destruct (proj2 (proj2 (computeConvexHull2D_exchanges_pivot unsortedTriangle)) H)
    as (H0 & H1 & _).
  split; [exact H0 | exact H1].
Defined.

(** Against C6 as stated: the caller's sequence is not always left as it
    was. *)
Lemma computeConvexHull2D_mutates_input :
  ~ (forall points : list Vector2, snd (computeConvexHull2D points) = points).
Proof.
  intros H. specialize (H unsortedTriangle). vm_compute in H. discriminate H.
Qed.

(** ** Order of the input *)

Lemma samePoint_refl a : samePoint a a.
Proof. split; reflexivity. Qed.

Lemma samePoint_sym a b : samePoint a b -> samePoint b a.
Proof. intros [H1 H2]. split; symmetry; assumption. Qed.

Lemma samePoint_trans a b c : samePoint a b -> samePoint b c -> samePoint a c.
Proof. intros [H1 H2] [K1 K2]. split; etransitivity; eassumption. Qed.

Lemma samePointb_spec a b : samePointb a b = true <-> samePoint a b.
Proof.
  unfold samePointb, samePoint. rewrite andb_true_iff, !Qeq_bool_iff. tauto.
Qed.

Lemma samePointb_congr x a a' : samePoint a a' -> samePointb x a = samePointb x a'.
Proof.
  intros H. apply eq_true_iff_eq. rewrite !samePointb_spec.
  split; intros K; [apply (samePoint_trans K H) | apply (samePoint_trans K (samePoint_sym H))].
Qed.

Lemma crossProduct_congr o o' a a' b b' :
  samePoint o o' -> samePoint a a' -> samePoint b b' ->
  crossProduct o a b == crossProduct o' a' b'.
Proof.
  intros [O1 O2] [A1 A2] [B1 B2]. unfold crossProduct.
  rewrite O1, O2, A1, A2, B1, B2. reflexivity.
Qed.

Lemma atan2Class_congr y y' x x' :
  y == y' -> x == x' -> atan2Class y x = atan2Class y' x'.
Proof. intros Hy Hx. unfold atan2Class. rewrite Hy, Hx. reflexivity. Qed.

Lemma compareFn_congr P P' a a' b b' :
  samePoint P P' -> samePoint a a' -> samePoint b b' ->
  compareFn P a b = compareFn P' a' b'.
Proof.
  intros [P1 P2] [A1 A2] [B1 B2]. unfold compareFn, atan2Compare.
  assert (Eya : vy a - vy P == vy a' - vy P') by (rewrite A2, P2; reflexivity).
  assert (Exa : vx a - vx P == vx a' - vx P') by (rewrite A1, P1; reflexivity).
  assert (Eyb : vy b - vy P == vy b' - vy P') by (rewrite B2, P2; reflexivity).
  assert (Exb : vx b - vx P == vx b' - vx P') by (rewrite B1, P1; reflexivity).
  rewrite (atan2Class_congr Eya Exa), (atan2Class_congr Eyb Exb).
  assert (E1 : ((vy a - vy P) * (vx b - vx P) ?= (vx a - vx P) * (vy b - vy P))
               = ((vy a' - vy P') * (vx b' - vx P') ?= (vx a' - vx P') * (vy b' - vy P')))
    by (apply Qcompare_comp; [rewrite Eya, Exb | rewrite Exa, Eyb]; reflexivity).
  assert (E2 : ((vx a - vx P) ^ 2 + (vy a - vy P) ^ 2
                ?= (vx b - vx P) ^ 2 + (vy b - vy P) ^ 2)
               = ((vx a' - vx P') ^ 2 + (vy a' - vy P') ^ 2
                  ?= (vx b' - vx P') ^ 2 + (vy b' - vy P') ^ 2))
    by (apply Qcompare_comp; [rewrite Exa, Eya | rewrite Exb, Eyb]; reflexivity).
  rewrite E1, E2. reflexivity.
Qed.

Lemma leP_congr P P' a a' b b' :
  samePoint P P' -> samePoint a a' -> samePoint b b' -> leP P a b -> leP P' a' b'.
Proof.
  intros HP Ha Hb. unfold leP. now rewrite (compareFn_congr HP Ha Hb).
Qed.

Lemma above_congr P P' q q' : samePoint P P' -> samePoint q q' -> above P q -> above P' q'.
Proof.
  intros [P1 P2] [Q1 Q2]. unfold above, dx, dy. intros [H|[H H']]; [left|right; split]; lra.
Qed.

Lemma popWhile_congr p p' S S' :
  samePoint p p' -> Forall2 samePoint S S' ->
  Forall2 samePoint (popWhile p S) (popWhile p' S').
Proof.
  intros Hp HS. induction HS as [|t t' S S' Ht HS IH]; [constructor|].
  destruct HS as [|x x' r r' Hx Hr].
  - simpl. constructor; [exact Ht | constructor].
  - change (popWhile p (t :: x :: r))
      with (if Qle_bool (crossProduct x t p) 0 then popWhile p (x :: r) else t :: x :: r).
    change (popWhile p' (t' :: x' :: r'))
      with (if Qle_bool (crossProduct x' t' p') 0 then popWhile p' (x' :: r')
            else t' :: x' :: r').
    assert (E : Qle_bool (crossProduct x t p) 0 = Qle_bool (crossProduct x' t' p') 0).
    { apply eq_true_iff_eq. rewrite !Qle_bool_iff.
      rewrite (crossProduct_congr Hx Ht Hp). reflexivity. }
    rewrite E. destruct (Qle_bool (crossProduct x' t' p') 0).
    + exact IH.
    + constructor; [exact Ht|]. constructor; assumption.
Qed.

Lemma scan_congr l l' :
  Forall2 samePoint l l' ->
  forall S S', Forall2 samePoint S S' ->
    Forall2 samePoint (fold_left scanStep l S) (fold_left scanStep l' S').
Proof.
  induction 1 as [|p p' l l' Hp Hl IH]; intros S S' HS; [exact HS|].
  simpl. apply IH. constructor; [exact Hp | now apply popWhile_congr].
Qed.

Lemma Forall2_rev_samePoint l l' :
  Forall2 samePoint l l' -> Forall2 samePoint (rev l) (rev l').
Proof.
  induction 1 as [|a a' l l' Ha Hl IH]; [constructor|].
  simpl. apply Forall2_app; [exact IH | constructor; [exact Ha | constructor]].
Qed.

Lemma Forall2_samePoint_refl l : Forall2 samePoint l l.
Proof. induction l; constructor; [apply samePoint_refl | assumption]. Qed.

Lemma countSame_perm x l l' : Permutation l l' -> countSame x l = countSame x l'.
Proof.
  unfold countSame. induction 1 as [|a l l' H IH|a b l|l1 l2 l3 H1 IH1 H2 IH2]; simpl.
  - reflexivity.
  - destruct (samePointb x a); simpl; congruence.
  - destruct (samePointb x a), (samePointb x b); reflexivity.
  - congruence.
Qed.

Lemma countSame_cons x a l :
  countSame x (a :: l) = ((if samePointb x a then 1 else 0) + countSame x l)%nat.
Proof. unfold countSame. simpl. destruct (samePointb x a); reflexivity. Qed.

Lemma countSame_pos x l : (0 < countSame x l)%nat -> exists y, In y l /\ samePoint x y.
Proof.
  induction l as [|a l IH]; [simpl; unfold countSame; simpl; lia|].
  rewrite countSame_cons. destruct (samePointb x a) eqn:E.
  - intros _. exists a. split; [now left | now apply samePointb_spec].
  - intros H. destruct (IH H) as (y & Hy & Hs). exists y. split; [now right | exact Hs].
Qed.

Lemma leP_refl P a : above P a -> leP P a a.
Proof. intros Ha. destruct (leP_total Ha Ha); assumption. Qed.

Lemma sorted_head_least P a l y :
  above P a -> StronglySorted (leP P) (a :: l) -> In y (a :: l) -> leP P a y.
Proof.
  intros Ha Hs [<-|Hy]; [now apply leP_refl|].
  inversion Hs as [|? ? _ Hall]; subst. rewrite Forall_forall in Hall. now apply Hall.
Qed.

Lemma sorted_unique P l :
  forall l',
    (forall a, In a l -> above P a) -> (forall a, In a l' -> above P a) ->
    StronglySorted (leP P) l -> StronglySorted (leP P) l' ->
    (forall x, countSame x l = countSame x l') ->
    Forall2 samePoint l l'.
Proof.
  induction l as [|a l IH]; intros [|a' l'] Dl Dl' Hs Hs' Hc.
  - constructor.
  - specialize (Hc a'). rewrite countSame_cons in Hc.
    rewrite (proj2 (samePointb_spec a' a') (samePoint_refl a')) in Hc.
    unfold countSame in Hc. simpl in Hc. lia.
  - specialize (Hc a). rewrite countSame_cons in Hc.
    rewrite (proj2 (samePointb_spec a a) (samePoint_refl a)) in Hc.
    unfold countSame in Hc. simpl in Hc. lia.
  - assert (Da : above P a) by (apply Dl; now left).
    assert (Da' : above P a') by (apply Dl'; now left).
    assert (Haa' : samePoint a a').
    { apply (@leP_antisym P); auto.
      - destruct (@countSame_pos a' (a :: l)) as (y & Hy & Hsame).
        + rewrite Hc, countSame_cons.
          rewrite (proj2 (samePointb_spec a' a') (samePoint_refl a')). lia.
        + apply (leP_congr (samePoint_refl P) (samePoint_refl a) (samePoint_sym Hsame)).
          now apply sorted_head_least with l.
      - destruct (@countSame_pos a (a' :: l')) as (y & Hy & Hsame).
        + rewrite <- Hc, countSame_cons.
          rewrite (proj2 (samePointb_spec a a) (samePoint_refl a)). lia.
        + apply (leP_congr (samePoint_refl P) (samePoint_refl a') (samePoint_sym Hsame)).
          now apply sorted_head_least with l'. }
    constructor; [exact Haa'|].
    apply IH.
    + intros b Hb. apply Dl. now right.
    + intros b Hb. apply Dl'. now right.
    + now inversion Hs.
    + now inversion Hs'.
    + intros x. specialize (Hc x). rewrite !countSame_cons in Hc.
      rewrite (samePointb_congr x Haa') in Hc. lia.
Qed.

(** Whatever algorithm [Array.prototype.sort] runs, its result is the one
    of [sort]: a sorted permutation is unique up to the coordinates of its
    points. *)
Lemma any_sort_agrees P rest l :
  (forall a, In a rest -> above P a) ->
  Permutation rest l -> StronglySorted (leP P) l ->
  Forall2 samePoint l (sort (compareFn P) rest).
Proof.
  intros Hrest Hperm Hs.
  assert (Hps : Permutation rest (sort (compareFn P) rest)) by apply sort_perm.
  apply (@sorted_unique P).
  - intros a Ha. apply Hrest. apply Permutation_in with l; [symmetry|]; assumption.
  - intros a Ha. apply Hrest.
    apply Permutation_in with (sort (compareFn P) rest); [symmetry|]; assumption.
  - exact Hs.
  - apply (@sort_sorted (compareFn P) (above P)).
    + intros a b. apply leP_total.
    + intros a b c. apply leP_trans.
    + apply Forall_forall. exact Hrest.
  - intros x. apply countSame_perm. rewrite <- Hperm. exact Hps.
Qed.

Lemma leP_pivot_least P q : above P q -> leP P P q.
Proof.
  intros Hq.
  assert (HP : above P P) by (right; unfold dx, dy; split; lra).
  apply (leP_spec HP Hq). left.
  assert (E : dy P P == 0) by (unfold dy; ring).
  split; [exact E|].
  destruct Hq as [Hq|[Hq Hq']]; [left; exact Hq | right].
  split; [exact Hq|].
  assert (E0 : dist2 P P == 0) by (unfold dist2, dx, dy; ring).
  pose proof (dist2_nonneg P q). lra.
Qed.

Lemma StronglySorted_leP_congr P P' l :
  samePoint P P' -> StronglySorted (leP P) l -> StronglySorted (leP P') l.
Proof.
  intros HP. induction 1 as [|a l Hs IH Hall]; constructor; [exact IH|].
  rewrite Forall_forall in *. intros b Hb.
  apply (leP_congr HP (samePoint_refl a) (samePoint_refl b)). now apply Hall.
Qed.

Lemma pivot_unique P P' :
  above P P' -> above P' P -> samePoint P P'.
Proof.
  unfold above, dx, dy, samePoint. intros [H|[H H']] [K|[K K']]; split; lra.
Qed.

Lemma rotate_0 l : rotate 0 l = l.
Proof. unfold rotate. simpl. apply app_nil_r. Qed.

Lemma hull_of_long_input points points' :
  (3 <= length points)%nat -> Permutation points points' ->
  Forall2 samePoint (fst (computeConvexHull2D points'))
                    (fst (computeConvexHull2D points)).
Proof.
  intros Hlen Hperm.
  assert (Hlen' : (3 <= length points')%nat)
    by (rewrite <- (Permutation_length Hperm); exact Hlen).
  destruct (hull_structure points Hlen)
    as (P & rest & sorted & S & HP & Hps & Habove & ES & Ehull & _ & EP & _ & Hss & _).
  destruct (hull_structure points' Hlen')
    as (P' & rest' & sorted' & S' & HP' & Hps' & Habove' & ES' & Ehull' & _ & EP' & _ & Hss' & _).
  rewrite Ehull, Ehull', ES, ES'.
  assert (HinP : In P points)
    by (apply Permutation_in with (P :: rest); [symmetry; exact HP | now left]).
  assert (HinP' : In P' points')
    by (apply Permutation_in with (P' :: rest'); [symmetry; exact HP' | now left]).
  assert (Hsame : samePoint P' P).
  { apply pivot_unique.
    - apply Habove'. apply Permutation_in with points; assumption.
    - apply Habove. apply Permutation_in with points'; [symmetry|]; assumption. }
  assert (Hfull : Permutation (P' :: sorted') (P :: sorted)).
  { rewrite <- Hps', <- Hps, <- HP', <- HP. symmetry. exact Hperm. }
  assert (Hin' : forall a, In a (P' :: sorted') -> above P a).
  { intros a Ha. apply Habove.
    apply Permutation_in with (P :: sorted); [|apply Permutation_in with (P' :: sorted'); auto].
    rewrite <- Hps. symmetry. exact HP. }
  assert (Hin : forall a, In a (P :: sorted) -> above P a).
  { intros a Ha. apply Habove.
    apply Permutation_in with (P :: sorted); [|exact Ha].
    rewrite <- Hps. symmetry. exact HP. }
  assert (Hall : Forall2 samePoint (P' :: sorted') (P :: sorted)).
  { apply (@sorted_unique P); auto.
    - apply (StronglySorted_leP_congr Hsame). constructor; [exact Hss'|].
      apply Forall_forall. intros b Hb. apply leP_pivot_least.
      apply Habove'. apply Permutation_in with (P' :: rest'); [symmetry; exact HP'|].
      right. apply Permutation_in with sorted'; [symmetry; exact Hps' | exact Hb].
    - constructor; [exact Hss|].
      apply Forall_forall. intros b Hb. apply leP_pivot_least.
      apply Hin. now right.
    - intros x. now apply countSame_perm. }
  inversion Hall as [|? ? ? ? _ Hsorted]; subst.
  apply Forall2_rev_samePoint. rewrite !buildHull_fold.
  apply scan_congr; [exact Hsorted|].
  constructor; [exact Hsame | constructor].
Qed.

(** On exact numbers the hull of a permuted input is the hull of the
    input, vertex for vertex, up to the vertex the cycle starts from. *)
Lemma hull_of_permuted_input (points points' : list Vector2) :
  Permutation points points' ->
  exists k,
    Forall2 samePoint (fst (computeConvexHull2D points'))
                      (rotate k (fst (computeConvexHull2D points))).
Proof.
  intros Hperm.
  destruct (Nat.lt_ge_cases (length points) 3) as [Hshort|Hlong].
  - assert (Hshort' : (length points' < 3)%nat)
      by (rewrite <- (Permutation_length Hperm); exact Hshort).
    rewrite (short_hull_of_short_input points Hshort),
            (short_hull_of_short_input points' Hshort').
    destruct points as [|a [|b [|c r]]]; [| | |simpl in Hshort; lia].
    + apply Permutation_nil in Hperm. subst. exists 0%nat. constructor.
    + apply Permutation_length_1_inv in Hperm. subst. exists 0%nat.
      apply Forall2_samePoint_refl.
    + apply Permutation_length_2_inv in Hperm. destruct Hperm as [->| ->].
      * exists 0%nat. apply Forall2_samePoint_refl.
      * exists 1%nat. apply Forall2_samePoint_refl.
  - exists 0%nat. rewrite rotate_0. now apply hull_of_long_input.
Qed.

(* ================================================================== *)
(** * Part V: further properties of the code                           *)
(* ================================================================== *)

(** ** The hull as a polygon *)

(** In hull order the stack, without the pivot, goes strictly round it. *)
Lemma chain_fan P Q S :
  Chain P Q S ->
  Forall (fun e => 0 < crossProduct P (fst e) (snd e)) (adjacentPairs (tl (rev S))).
Proof.
  induction 1 as [|t Ht Hleft|t x w r Ht Hrest IH Hfan Hconv Hleft].
  - constructor.
  - constructor.
  - change (rev (t :: x :: w :: r)) with (rev (x :: w :: r) ++ [t]).
    assert (Hlen : (2 <= length (rev (x :: w :: r)))%nat)
      by (rewrite length_rev; simpl; lia).
    destruct (rev (x :: w :: r)) as [|p0 l'] eqn:E; [simpl in Hlen; lia|].
    simpl tl in *.
    assert (Hne : l' <> []) by (destruct l'; [simpl in Hlen; lia | discriminate]).
    rewrite (@adjacentPairs_snoc l' t x Hne).
    apply Forall_app. split; [exact IH|].
    constructor; [|constructor]. simpl.
    assert (El : last l' x = x).
    { pose proof (last_rev (x :: w :: r) x) as L. rewrite E in L. simpl hd in L.
      destruct l' as [|v l']; [congruence|]. exact L. }
    rewrite El. exact Hfan.
Qed.

Lemma hull_head points :
  (3 <= length points)%nat ->
  exists P l,
    fst (computeConvexHull2D points) = P :: l
    /\ hd origin2 (snd (computeConvexHull2D points)) = P
    /\ In P points
    /\ (forall q, In q points -> lexLe P q).
Proof.
  intros Hlen.
  destruct (hull_structure points Hlen)
    as (P & rest & sorted & S & Hperm & Hps & Habove & _ & Ehull & Esnd & _ & _ & _ & HC & HT).
  pose proof (hd_rev S origin2) as Hh. rewrite (chain_last HC) in Hh.
  destruct (rev S) as [|p0 l] eqn:E.
  - exfalso. destruct HC; simpl in E;
      repeat (apply app_eq_nil in E; destruct E as [E ?]); discriminate.
  - simpl in Hh. subst p0. exists P, l. rewrite Ehull, Esnd. repeat split.
    + apply Permutation_in with (P :: rest); [symmetry; exact Hperm | now left].
    + intros q Hq. apply lexLe_above. now apply Habove.
Qed.

(** ** The hull of a hull *)
Lemma lowerLeft_above_false P q : above P q -> lowerLeft q P = false.
Proof.
  unfold above, dx, dy, lowerLeft. intros Hq.
  apply orb_false_iff. split.
  - apply Qltb_ge. destruct Hq as [H|[H _]]; lra.
  - destruct Hq as [H|[_ H]].
    + destruct (Qeq_bool (vy q) (vy P)) eqn:E; [|reflexivity].
      apply Qeq_bool_iff in E. lra.
    + apply andb_false_iff. right. apply Qltb_ge. lra.
Qed.

Lemma findStart_first points :
  (forall q, In q points -> lowerLeft q (at2 points 0) = false) ->
  findStart points = 0%nat.
Proof.
  intros H. unfold findStart.
  assert (G : forall l, (forall i, In i l -> (i < length points)%nat) ->
                        fold_left (fun start i =>
                                     if lowerLeft (at2 points i) (at2 points start)
                                     then i else start) l 0%nat = 0%nat).
  { induction l as [|i l IH]; intros Hl; [reflexivity|]. simpl.
    rewrite H; [apply IH; intros j Hj; apply Hl; now right|].
    apply nth_In. apply Hl. now left. }
  apply G. intros i Hi. apply in_seq in Hi. lia.
Qed.

Lemma leP_of_strict P a b :
  above P a -> above P b -> 0 < crossProduct P a b -> leP P a b.
Proof.
  intros Ha Hb Hc. apply (leP_spec Ha Hb).
  pose proof (cross_dxdy P a b) as E.
  destruct Ha as [Ha|[Ha Ha']], Hb as [Hb|[Hb Hb']].
  - right. split; [exact Ha|]. split; [exact Hb|]. left. exact Hc.
  - exfalso. nra.
  - left. split; [exact Ha|]. left. exact Hb.
  - exfalso. nra.
Qed.

Lemma sort_of_sorted cmp l :
  Forall (fun e => cmp (fst e) (snd e) <> Gt) (adjacentPairs l) -> sort cmp l = l.
Proof.
  induction l as [|a l IH]; intros H; [reflexivity|].
  simpl. destruct l as [|b l]; [reflexivity|].
  change (adjacentPairs (a :: b :: l)) with ((a, b) :: adjacentPairs (b :: l)) in H.
  inversion H as [|? ? Hab Hrest]; subst.
  rewrite (IH Hrest). simpl in *. destruct (cmp a b); congruence.
Qed.

Lemma turnsLeft_at l1 x t p l2 :
  turnsLeft (l1 ++ x :: t :: p :: l2) -> 0 < crossProduct x t p.
Proof.
  induction l1 as [|a l1 IH]; intros H.
  - simpl in H. tauto.
  - apply IH. destruct l1 as [|b [|c l1]]; simpl in H |- *; tauto.
Qed.

Lemma scan_no_pop rest :
  forall stack, stack <> [] -> turnsLeft (rev stack ++ rest) ->
                fold_left scanStep rest stack = rev rest ++ stack.
Proof.
  induction rest as [|p rest IH]; intros stack Hne H; [reflexivity|].
  assert (Hpop : popWhile p stack = stack).
  { destruct stack as [|t [|x r]]; [congruence|reflexivity|].
    change (popWhile p (t :: x :: r))
      with (if Qle_bool (crossProduct x t p) 0 then popWhile p (x :: r) else t :: x :: r).
    change (rev (t :: x :: r)) with ((rev r ++ [x]) ++ [t]) in H.
    rewrite <- !app_assoc in H. simpl app in H.
    apply turnsLeft_at in H.
    destruct (Qle_bool (crossProduct x t p) 0) eqn:E; [|reflexivity].
    apply Qle_bool_iff in E. lra. }
  simpl. unfold scanStep at 2. rewrite Hpop.
  rewrite IH; [rewrite <- app_assoc; reflexivity | discriminate |].
  simpl rev. rewrite <- app_assoc. exact H.
Qed.

(** X1.  The hull of a hull is that hull: the same vertices
    in the same order, whatever the input was. *)
Theorem computeConvexHull2D_idempotent (points : list Vector2) :
  fst (computeConvexHull2D (fst (computeConvexHull2D points)))
  = fst (computeConvexHull2D points).
Proof.
  destruct (Nat.lt_ge_cases (length (fst (computeConvexHull2D points))) 3) as [Hs|Hhull].
  - apply short_hull_of_short_input. exact Hs.
  - assert (Hlen : (3 <= length points)%nat).
    { unfold computeConvexHull2D in Hhull.
      destruct (Nat.ltb_spec (length points) 3); [simpl in Hhull; lia | assumption]. }
    destruct (hull_structure points Hlen)
      as (P & rest & sorted & S & Hperm & Hps & Habove & _ & Ehull & _ & _ & _ & _ & HC & HT).
    rewrite Ehull in *.
    pose proof (hd_rev S origin2) as Hh. rewrite (chain_last HC) in Hh.
    pose proof (chain_fan HC) as Hfan.
    pose proof (chain_turnsLeft HC) as Hturn.
    assert (HQ : forall s, In s (rev S) -> above P s).
    { intros s Hs. apply in_rev in Hs. apply Habove.
      apply Permutation_in with (P :: rest); [symmetry; exact Hperm|].
      destruct (chain_members HC _ Hs) as [->|Hq]; [now left|right].
      apply in_rev in Hq. apply Permutation_in with sorted; [symmetry|]; assumption. }
    destruct (rev S) as [|p0 l] eqn:E; [simpl in Hhull; lia|].
    simpl in Hh. subst p0. simpl tl in Hfan.
    unfold computeConvexHull2D.
    destruct (Nat.ltb_spec (length (P :: l)) 3); [lia|].
    assert (Hstart : findStart (P :: l) = 0%nat).
    { apply findStart_first. intros q Hq. apply lowerLeft_above_false.
      apply HQ. exact Hq. }
    rewrite Hstart. unfold swapToFront.
    rewrite !update_same by (simpl; lia).
    unfold at2. simpl nth. simpl tl. simpl fst.
    rewrite sort_of_sorted.
    + rewrite buildHull_fold, scan_no_pop; [|discriminate|exact Hturn].
      rewrite rev_app_distr, rev_involutive. reflexivity.
    + clear -Hfan HQ.
      assert (Hl : forall e, In e (adjacentPairs l) -> In (fst e) l /\ In (snd e) l).
      { intros [u v] He. unfold adjacentPairs in He. split.
        - apply (in_combine_l _ _ _ _ He).
        - apply in_combine_r in He. destruct l; [destruct He | now right]. }
      rewrite Forall_forall in *. intros e He.
      destruct (Hl e He) as [H1 H2].
      apply leP_of_strict; [apply HQ; now right | apply HQ; now right | now apply Hfan].
Qed.

(** ** The first vertex *)

(** X2.  With at least 3 input points the hull starts at the
    lowest input point, the leftmost of the lowest: that point is its
    first vertex and, after the call, the first element of the caller's
    array. *)
Theorem computeConvexHull2D_starts_at_lowest (points : list Vector2) :
  (3 <= length points)%nat ->
  exists P l,
    fst (computeConvexHull2D points) = P :: l
    /\ hd origin2 (snd (computeConvexHull2D points)) = P
    /\ In P points
    /\ (forall q, In q points -> lexLe P q).
Proof. exact (@hull_head points). Qed.

Lemma computeConvexHull2D_starts_at_lowest_witness :
  (3 <= length unsortedTriangle)%nat
  /\ exists P l,
       fst (computeConvexHull2D unsortedTriangle) = P :: l
       /\ hd origin2 (snd (computeConvexHull2D unsortedTriangle)) = P
       /\ In P unsortedTriangle
       /\ (forall q, In q unsortedTriangle -> lexLe P q).
Proof.
  assert (H : (3 <= length unsortedTriangle)%nat) by (simpl; lia).
  split; [exact H|].
  exact (@computeConvexHull2D_starts_at_lowest unsortedTriangle H).
Defined.

(** ** More on the volume estimator *)

Lemma num_eq_sym (a b : num) : num_eq a b -> num_eq b a.
Proof. destruct a, b; simpl; auto. intros H. now rewrite H. Qed.

Section VolumeExtras.
Context {M : Type} {WT : WorldTransform M}.
Variable worldMatrix : M.

(** A number comes out of the fold only from whole triangles whose
    corners are all found. *)
Lemma foldTriangles_number (A : Type) (look : A -> option Vector3) (l : list A) :
  forall acc v,
    foldTriangles (triangleBody look worldMatrix) l (Some acc) = Some v ->
    exists vs, Forall2 (fun a v => look a = Some v) l vs /\ (length vs mod 3 = 0)%nat.
Proof.
  induction l as [| | |a b c rest IH] using triangle_list_ind; intros acc v H.
  - exists []. split; [constructor | reflexivity].
  - discriminate H.
  - discriminate H.
  - simpl in H.
    destruct (look a) as [v0|] eqn:Ha; simpl in H;
      [|rewrite foldTriangles_NaN in H; discriminate].
    destruct (look b) as [v1|] eqn:Hb; simpl in H;
      [|rewrite foldTriangles_NaN in H; discriminate].
    destruct (look c) as [v2|] eqn:Hc; simpl in H;
      [|rewrite foldTriangles_NaN in H; discriminate].
    destruct (IH _ _ H) as (vs & Hall & Hmod).
    exists (v0 :: v1 :: v2 :: vs). split.
    + repeat (constructor; [assumption|]). exact Hall.
    + change (length (v0 :: v1 :: v2 :: vs)) with (3 + length vs)%nat.
      rewrite Nat.add_comm. replace 3%nat with (1 * 3)%nat by reflexivity.
      rewrite Nat.Div0.mod_add. exact Hmod.
Qed.

Lemma Forall2_lookupAll (pos : list Vector3) (idx : list nat) :
  forall vs, Forall2 (fun i v => vertexAt pos i = Some v) idx vs ->
             lookupAll pos idx = Some vs.
Proof.
  induction idx as [|i rest IH]; intros vs H; inversion H as [|? v ? vs' Hv Hrest]; subst.
  - reflexivity.
  - simpl. rewrite vertexAt_nth_error in Hv. rewrite Hv. simpl.
    rewrite (IH _ Hrest). reflexivity.
Qed.

Lemma Forall2_Some_eq (l vs : list Vector3) :
  Forall2 (fun a v => Some a = Some v) l vs -> l = vs.
Proof.
  induction 1 as [|a v l vs Hav _ IH]; [reflexivity|].
  injection Hav as ->. now rewrite IH.
Qed.

(** The fold over a buffer in two parts, the first of whole triangles. *)
Lemma foldTriangles_app (A : Type) (f : A -> A -> A -> num -> num) (l1 l2 : list A) :
  (length l1 mod 3 = 0)%nat ->
  forall vol, foldTriangles f (l1 ++ l2) vol = foldTriangles f l2 (foldTriangles f l1 vol).
Proof.
  induction l1 as [| | |a b c rest IH] using triangle_list_ind; intros Hmod vol.
  - reflexivity.
  - discriminate Hmod.
  - discriminate Hmod.
  - simpl. apply IH.
    change (length (a :: b :: c :: rest)) with (3 + length rest)%nat in Hmod.
    rewrite Nat.add_comm in Hmod. replace 3%nat with (1 * 3)%nat in Hmod by reflexivity.
    rewrite Nat.Div0.mod_add in Hmod. exact Hmod.
Qed.

(** Starting the fold from [acc] adds [acc] to what it gives from 0. *)
Lemma foldTriangles_shift (A : Type) (look : A -> option Vector3) (l : list A) :
  forall acc,
    num_eq (foldTriangles (triangleBody look worldMatrix) l (Some acc))
           (num_add (Some acc) (foldTriangles (triangleBody look worldMatrix) l (Some 0))).
Proof.
  induction l as [| | |a b c rest IH] using triangle_list_ind; intros acc;
    try (simpl; auto; fail).
  - simpl. ring.
  - simpl. destruct (look a), (look b), (look c); simpl;
      try (rewrite !foldTriangles_NaN; exact I).
    match goal with |- context [Some (acc + ?t)] => set (term := t) end.
    pose proof (IH (acc + term)) as H1.
    pose proof (IH (0 + term)) as H2.
    destruct (foldTriangles (triangleBody look worldMatrix) rest (Some 0)) as [r|];
      destruct (foldTriangles (triangleBody look worldMatrix) rest (Some (acc + term))) as [r1|];
      destruct (foldTriangles (triangleBody look worldMatrix) rest (Some (0 + term))) as [r2|];
      simpl in *; try tauto.
    rewrite H1, H2. ring.
Qed.
End VolumeExtras.

Lemma volume_number_iff
    {M : Type} {WT : WorldTransform M} (mesh : Object3D M)
    (g : BufferGeometry) (pos : list Vector3) :
  geometry mesh = Some g ->
  position g = Some pos ->
  ((exists v, calculateMeshVolume mesh = Some v) <-> triangleList g)
  /\ (calculateMeshVolume mesh = None <-> ~ triangleList g).
Proof.
  intros Hg Hpos.
  assert (Hiff : (exists v, calculateMeshVolume mesh = Some v) <-> triangleList g).
  { unfold triangleList, vertexSequence, calculateMeshVolume.
    rewrite Hg, Hpos. simpl. destruct (index g) as [idx|]; split.
    - intros [v Hv]. rewrite indexedBody_loop in Hv.
      apply foldTriangles_number in Hv. destruct Hv as (vs & Hall & Hmod).
      exists vs. split; [now apply Forall2_lookupAll | exact Hmod].
    - intros (vs & Hvs & Hmod). rewrite indexedBody_loop.
      erewrite foldTriangles_sum; [eexists; reflexivity | | exact Hmod].
      apply lookupAll_Forall2. exact Hvs.
    - intros [v Hv]. rewrite plainBody_loop in Hv.
      apply foldTriangles_number in Hv. destruct Hv as (vs & Hall & Hmod).
      exists vs. split; [|exact Hmod]. f_equal. now apply Forall2_Some_eq.
    - intros (vs & Hvs & Hmod). injection Hvs as <-. rewrite plainBody_loop.
      erewrite foldTriangles_sum; [eexists; reflexivity | apply Forall2_Some | exact Hmod]. }
  split; [exact Hiff|].
  rewrite <- Hiff. destruct (calculateMeshVolume mesh) as [v|]; split.
  - discriminate.
  - intros H. exfalso. apply H. now exists v.
  - intros _ [v Hv]. discriminate.
  - reflexivity.
Qed.





(** ** The statistics of the viewer *)

Section ViewerExtras.
Context {M : Type} {WT : WorldTransform M}.

Lemma tally_vertexCount (l : list (Object3D M)) :
  forall acc,
    vertexCountAcc (fold_left tallyNode l acc)
    = (vertexCountAcc acc
       + list_sum (map contentVertices
                       (map (fun child => (isMesh child, geometry child)) l)))%nat.
Proof.
  induction l as [|child l IH]; intros acc; simpl; [lia|].
  rewrite IH. unfold tallyNode, contentVertices, countGeometryStats. simpl.
  destruct (isMesh child); [|lia].
  destruct (geometry child) as [g|]; [|lia].
  destruct (position g); simpl; lia.
Qed.

Lemma projected_length (l : list (Object3D M)) :
  length (flat_map projectNode l)
  = list_sum (map contentVertices
                  (map (fun child => (isMesh child, geometry child)) l)).
Proof.
  induction l as [|child l IH]; simpl; [reflexivity|].
  rewrite length_app, IH. f_equal.
  unfold projectNode, contentVertices. simpl.
  destruct (isMesh child); [|reflexivity].
  destruct (geometry child) as [g|]; [|reflexivity].
  destruct (position g); [apply length_map | reflexivity].
Qed.

(** The running volume is lost for good once it is NaN, and only a mesh
    can make it so. *)
Lemma tally_volume_NaN (l : list (Object3D M)) :
  forall acc,
    originalVolumeAcc (fold_left tallyNode l acc) = None
    <-> originalVolumeAcc acc = None
        \/ exists child, In child l /\ isMesh child = true
                         /\ geometry child <> None
                         /\ calculateMeshVolume child = None.
Proof.
  induction l as [|child l IH]; intros acc; simpl.
  - split; [now left | intros [H|(c & [] & _)]; exact H].
  - rewrite IH. unfold tallyNode.
    destruct (isMesh child) eqn:Hm.
    + destruct (geometry child) as [g|] eqn:Hg; simpl.
      * destruct (originalVolumeAcc acc) as [v|]; simpl.
        -- destruct (calculateMeshVolume child) as [w|] eqn:Hw; simpl.
           ++ split.
              ** intros [H|(c & Hc & H)]; [discriminate|].
                 right. exists c. split; [now right | exact H].
              ** intros [H|(c & [<-|Hc] & H1 & H2 & H3)]; [discriminate| |].
                 --- congruence.
                 --- right. exists c. tauto.
           ++ split; [|now left].
              intros _. right. exists child.
              split; [now left|]. repeat split; congruence.
        -- split; intros _; now left.
      * split.
        -- intros [H|(c & Hc & H)]; [now left|].
           right. exists c. split; [now right | exact H].
        -- intros [H|(c & [<-|Hc] & H1 & H2 & H3)]; [now left | congruence |].
           right. exists c. tauto.
    + split.
      * intros [H|(c & Hc & H)]; [now left|].
        right. exists c. split; [now right | exact H].
      * intros [H|(c & [<-|Hc] & H1 & H2 & H3)]; [now left | congruence |].
        right. exists c. tauto.
Qed.
End ViewerExtras.

(** X11.  The vertex count the viewer reports is the
    number of points the base fill projects, whatever the world matrices
    were at either moment; a model reported with fewer than 3 vertices
    gets no base fill. *)
Theorem reportStats_vertexCount_is_projected_points
    {M : Type} {WT : WorldTransform M} (ifcModel refreshed : Object3D M)
    (newBbox : Box3) (demoRaise : Q) :
  sceneContent ifcModel = sceneContent refreshed ->
  vertexCount (reportStats ifcModel refreshed newBbox demoRaise)
  = length (projectedPointsOf refreshed)
  /\ ((vertexCount (reportStats ifcModel refreshed newBbox demoRaise) < 3)%nat ->
      baseFillVolume (reportStats ifcModel refreshed newBbox demoRaise) = 0).
Proof.
  intros Hsame.
  assert (E : vertexCount (reportStats ifcModel refreshed newBbox demoRaise)
              = length (projectedPointsOf refreshed)).
  { unfold reportStats, tallyModel, projectedPointsOf. cbn [vertexCount].
    rewrite tally_vertexCount, projected_length. simpl.
    unfold sceneContent in Hsame. now rewrite Hsame. }
  split; [exact E|].
  rewrite E. intros Hlt. unfold reportStats. cbn [baseFillVolume].
  unfold createBaseFill.
  destruct (Nat.ltb_spec (length (projectedPointsOf refreshed)) 3); [reflexivity | lia].
Qed.

Lemma reportStats_vertexCount_is_projected_points_witness :
  vertexCount (reportStats (Node true (geometry cornerMesh) double4 []) cornerMesh
                           raisedSlabBox 0)
  = 3%nat
  /\ length (projectedPointsOf cornerMesh) = 3%nat.
Proof.
  assert (H : sceneContent (Node true (geometry cornerMesh) double4 [])
              = sceneContent cornerMesh) by reflexivity.
  pose proof (@reportStats_vertexCount_is_projected_points Matrix4 Matrix4_transform
                (Node true (geometry cornerMesh) double4 []) cornerMesh raisedSlabBox 0 H)
    as [E _].
  split; [|reflexivity].
  rewrite E. reflexivity.
Defined.





(** ** The loader's geometry *)

Lemma length_setCell (arr : list num) (i : nat) (v : num) :
  length (setCell arr i v) = length arr.
Proof.
  revert i. induction arr as [|a arr IH]; intros [|i]; simpl; auto.
Qed.

Lemma setCell_three (pre rest : list num) (a b c x y z : num) :
  setCell (setCell (setCell (pre ++ a :: b :: c :: rest) (length pre) x)
                   (length pre + 1) y)
          (length pre + 2) z
  = pre ++ x :: y :: z :: rest.
Proof.
  induction pre as [|p pre IH]; simpl; [reflexivity|].
  now rewrite IH.
Qed.

Lemma forStep_invariant (S : Type) (P : S -> Prop) (step count : nat)
      (body : nat -> S -> S) :
  (forall i s, P s -> P (body i s)) ->
  forall fuel i s, P s -> P (forStep step fuel i count body s).
Proof.
  intros Hbody. induction fuel as [|fuel IH]; intros i s Hs; simpl; [exact Hs|].
  destruct (i <? count)%nat; [apply IH, Hbody, Hs | exact Hs].
Qed.

Lemma length_packed (records : list (Vector3 * Vector3)) :
  length (flat_map packVertex records) = (6 * length records)%nat.
Proof.
  induction records as [|r records IH]; simpl; [reflexivity|].
  rewrite IH. lia.
Qed.

(** The unpacking loop, from the moment the vertices [pre_v] are done:
    the arrays hold what was unpacked, then zeros; the loop fills the
    zeros with what is left. *)
Lemma unpack_loop (rem : list (Vector3 * Vector3)) :
  forall fuel vertices pre_v pre_p pre_n,
    vertices = pre_v ++ flat_map packVertex rem ->
    length pre_v = (2 * length pre_p)%nat ->
    length pre_n = length pre_p ->
    (length rem <= fuel)%nat ->
    forStep 6 fuel (length pre_v) (length vertices) (unpackBody vertices)
            (pre_p ++ repeat (Some 0) (3 * length rem),
             pre_n ++ repeat (Some 0) (3 * length rem))
    = (pre_p ++ cellsOf (map fst rem), pre_n ++ cellsOf (map snd rem)).
Proof.
  induction rem as [|r rem IH]; intros fuel vertices pre_v pre_p pre_n Hv Hp Hn Hfuel.
  - simpl in *. rewrite app_nil_r in Hv. subst vertices.
    destruct fuel; simpl; [reflexivity|].
    now rewrite Nat.ltb_irrefl.
  - destruct fuel as [|fuel]; [simpl in Hfuel; lia|].
    cbn [forStep].
    assert (Hlt : (length pre_v <? length vertices)%nat = true).
    { apply Nat.ltb_lt. rewrite Hv, length_app. simpl. lia. }
    rewrite Hlt.
    assert (Hidx : (length pre_v / 2 = length pre_p)%nat).
    { rewrite Hp, Nat.mul_comm. apply Nat.div_mul. discriminate. }
    assert (Hread : forall j, (j < 6)%nat ->
                      nth_error vertices (length pre_v + j) = nth_error (packVertex r) j).
    { intros j Hj. rewrite Hv, nth_error_app2 by lia.
      replace (length pre_v + j - length pre_v)%nat with j by lia.
      cbn [flat_map]. rewrite nth_error_app1 by (simpl; lia). reflexivity. }
    assert (Hzeros : repeat (Some 0) (3 * length (r :: rem))
                     = Some 0 :: Some 0 :: Some 0 :: repeat (Some 0) (3 * length rem)).
    { replace (3 * length (r :: rem))%nat with (3 + 3 * length rem)%nat by (simpl; lia).
      reflexivity. }
    unfold unpackBody at 2. cbn [fst snd].
    rewrite Hidx, Hzeros.
    rewrite <- (Nat.add_0_r (length pre_v)) at 2.
    rewrite !Hread by lia.
    rewrite setCell_three. rewrite <- Hn at 1 2 3. rewrite setCell_three.
    cbn [packVertex nth_error].
    specialize (IH fuel vertices (pre_v ++ packVertex r)
                   (pre_p ++ [Some (x3 (fst r)); Some (y3 (fst r)); Some (z3 (fst r))])
                   (pre_n ++ [Some (x3 (snd r)); Some (y3 (snd r)); Some (z3 (snd r))])).
    rewrite !length_app in IH. cbn [length packVertex] in IH.
    rewrite <- !app_assoc in IH. cbn [app] in IH.
    etransitivity.
    { apply IH; [exact Hv | lia | lia | simpl in Hfuel; lia]. }
    cbn [map cellsOf flat_map app]. reflexivity.
Qed.

Lemma vectorsOf_cellsOf (vs : list Vector3) : vectorsOf (cellsOf vs) = Some vs.
Proof.
  induction vs as [|[a b c] vs IH]; [reflexivity|].
  change (cellsOf (Vec3 a b c :: vs)) with (Some a :: Some b :: Some c :: cellsOf vs).
  cbn [vectorsOf]. rewrite IH. reflexivity.
Qed.

Lemma getGeometry_packed (records : list (Vector3 * Vector3)) (indices : list nat) :
  records <> [] -> indices <> [] ->
  getGeometry (flat_map packVertex records) indices
  = Some (MkArrays (cellsOf (map fst records)) (cellsOf (map snd records)) indices).
Proof.
  intros Hr Hi.
  destruct records as [|r records]; [congruence|].
  destruct indices as [|i indices]; [congruence|].
  set (vertices := flat_map packVertex (r :: records)).
  assert (Hlen : length vertices = (6 * length (r :: records))%nat)
    by apply length_packed.
  assert (Hhalf : (length vertices / 2 = 3 * length (r :: records))%nat).
  { rewrite Hlen.
    replace (6 * length (r :: records))%nat with (3 * length (r :: records) * 2)%nat by lia.
    apply Nat.div_mul. discriminate. }
  assert (Hloop : forStep 6 (length vertices) 0 (length vertices) (unpackBody vertices)
                          (newFloat32Array (length vertices / 2),
                           newFloat32Array (length vertices / 2))
                  = (cellsOf (map fst (r :: records)), cellsOf (map snd (r :: records)))).
  { rewrite Hhalf.
    apply (@unpack_loop (r :: records) (length vertices) vertices [] [] []);
      try reflexivity.
    rewrite Hlen. lia. }
  assert (Hc : ((length vertices =? 0)%nat || (length (i :: indices) =? 0)%nat) = false).
  { rewrite Hlen. reflexivity. }
  unfold getGeometry. rewrite Hc.
  exact (f_equal (fun s => Some (MkArrays (fst s) (snd s) (i :: indices))) Hloop).
Qed.

(** X16.  From vertex data that packs position and
    normal, six numbers per vertex, and a non-empty index array, the loader
    builds a geometry whose position attribute holds the positions, whose
    normal attribute holds the normals, vertex for vertex and in order, and
    whose index is the index array as it came. *)
Theorem getGeometry_unpacks (records : list (Vector3 * Vector3)) (indices : list nat) :
  records <> [] -> indices <> [] ->
  exists arrays,
    getGeometry (flat_map packVertex records) indices = Some arrays
    /\ vectorsOf (positionArray arrays) = Some (map fst records)
    /\ vectorsOf (normalArray arrays) = Some (map snd records)
    /\ indexArray arrays = indices
    /\ asBufferGeometry arrays = Some (Geometry (Some (map fst records)) (Some indices)).
Proof.
  intros Hr Hi. eexists. split; [apply getGeometry_packed; assumption|].
  cbn [positionArray normalArray indexArray]. unfold asBufferGeometry.
  cbn [positionArray indexArray].
  rewrite !vectorsOf_cellsOf. repeat split; reflexivity.
Qed.

Lemma getGeometry_unpacks_witness :
  cornerRecords <> [] /\ [0; 1; 2]%nat <> []
  /\ exists arrays,
       getGeometry (flat_map packVertex cornerRecords) [0; 1; 2]%nat = Some arrays
       /\ vectorsOf (positionArray arrays) = Some cornerPositions.
Proof.
  assert (H1 : cornerRecords <> []) by discriminate.
  assert (H2 : [0; 1; 2]%nat <> []) by discriminate.
  split; [exact H1|]. split; [exact H2|].
  destruct (@getGeometry_unpacks cornerRecords [0; 1; 2]%nat H1 H2)
    as (arrays & E & Hp & _).
  exists arrays. split; [exact E | exact Hp].
Defined.

(** X17.  The loader returns no geometry exactly when the
    vertex data or the index array is empty.  Otherwise both attribute
    arrays have half as many cells as the vertex data has numbers (rounded
    down), whatever that length is, and the index is the index array as it
    came. *)
Theorem getGeometry_null_iff_empty (vertices : list Q) (indices : list nat) :
  (getGeometry vertices indices = None <-> vertices = [] \/ indices = [])
  /\ forall arrays,
       getGeometry vertices indices = Some arrays ->
       length (positionArray arrays) = (length vertices / 2)%nat
       /\ length (normalArray arrays) = (length vertices / 2)%nat
       /\ indexArray arrays = indices.
Proof.
  unfold getGeometry. split.
  - destruct vertices as [|v vertices]; [simpl; tauto|].
    destruct indices as [|i indices]; [simpl; tauto|].
    cbn [length Nat.eqb orb]. split; [discriminate|].
    intros [H|H]; discriminate H.
  - intros arrays.
    destruct ((length vertices =? 0)%nat || (length indices =? 0)%nat); [discriminate|].
    intros E. injection E as <-. cbn [positionArray normalArray indexArray].
    assert (H : length (fst (forStep 6 (length vertices) 0 (length vertices)
                               (unpackBody vertices)
                               (newFloat32Array (length vertices / 2),
                                newFloat32Array (length vertices / 2))))
                = (length vertices / 2)%nat
                /\ length (snd (forStep 6 (length vertices) 0 (length vertices)
                                  (unpackBody vertices)
                                  (newFloat32Array (length vertices / 2),
                                   newFloat32Array (length vertices / 2))))
                   = (length vertices / 2)%nat).
    { apply (@forStep_invariant _
               (fun s => length (fst s) = (length vertices / 2)%nat
                         /\ length (snd s) = (length vertices / 2)%nat)).
      - intros i [p n] [Hp Hn]. unfold unpackBody. cbn [fst snd] in *.
        rewrite !length_setCell. now split.
      - unfold newFloat32Array. cbn [fst snd]. rewrite repeat_length. now split. }
    destruct H as [Hp Hn]. repeat split; assumption.
Qed.

Lemma getGeometry_null_iff_empty_witness :
  getGeometry [] [0%nat] = None /\ getGeometry [1; 2; 3] [] = None.
Proof.
  split.
  - apply (proj2 (proj1 (@getGeometry_null_iff_empty [] [0%nat]))). now left.
  - apply (proj2 (proj1 (@getGeometry_null_iff_empty [1; 2; 3] []))). now right.
Defined.

Lemma lookupAll_in_range (pos : list Vector3) (idx : list nat) :
  (exists vs, lookupAll pos idx = Some vs /\ length vs = length idx)
  <-> Forall (fun i => (i < length pos)%nat) idx.
Proof.
  induction idx as [|i idx IH]; simpl.
  - split; [constructor | intros _; exists []; now split].
  - split.
    + intros (vs & H & _).
      destruct (nth_error pos i) as [v|] eqn:Hv; [|discriminate].
      simpl in H. destruct (lookupAll pos idx) as [vs'|] eqn:Hl; [|discriminate].
      constructor.
      * apply nth_error_Some. congruence.
      * apply IH. exists vs'. split; [reflexivity|].
        apply lookupAll_Forall2 in Hl. symmetry. exact (Forall2_length Hl).
    + intros H. inversion H as [|? ? Hi Hrest]; subst.
      apply IH in Hrest. destruct Hrest as (vs' & Hl & Hlen).
      destruct (nth_error pos i) as [v|] eqn:Hv.
      * exists (v :: vs'). rewrite Hl. simpl. split; [reflexivity | now rewrite Hlen].
      * apply nth_error_None in Hv. lia.
Qed.



(* ================================================================== *)
(** * Part VI: properties on doubles                                   *)
(* ================================================================== *)

(** ** Negation in binary64 arithmetic *)

(** Rounding is symmetric: the operations commute with negation, except
    that a zero result may keep its sign. *)
Section Symmetry.
Variables prec emax : Z.

Lemma binary_round_aux_negb s m e l :
  binary_round_aux prec emax (negb s) m e l = SFopp (binary_round_aux prec emax s m e l).
Proof.
  unfold binary_round_aux.
  destruct (shr_fexp prec emax m e l) as [mrs e'].
  destruct (shr_fexp prec emax (round_nearest_even (shr_m mrs) (loc_of_shr_record mrs))
                     e' loc_Exact) as [mrs' e''].
  destruct (shr_m mrs'); try reflexivity.
  destruct (e'' <=? emax - prec)%Z; reflexivity.
Qed.

Lemma binary_round_negb s m e :
  binary_round prec emax (negb s) m e = SFopp (binary_round prec emax s m e).
Proof.
  unfold binary_round.
  destruct (shl_align m e (fexp prec emax (Z.pos (digits2_pos m) + e))) as [mz ez].
  apply binary_round_aux_negb.
Qed.

Lemma binary_normalize_opp m e :
  oppSF (binary_normalize prec emax (- m) e false) (binary_normalize prec emax m e false).
Proof.
  destruct m as [|p|p]; simpl.
  - right. split; exists false; reflexivity.
  - left. apply (binary_round_negb false).
  - left. rewrite (binary_round_negb false). simpl.
    destruct (binary_round prec emax false p e); simpl; rewrite ?negb_involutive; reflexivity.
Qed.

Lemma SFsub_anti x y : oppSF (SFsub prec emax y x) (SFsub prec emax x y).
Proof.
  destruct x as [sx|sx| |sx mx ex], y as [sy|sy| |sy my ey];
    try (left; simpl; rewrite ?negb_involutive; reflexivity);
    try (destruct sx, sy; simpl; first [ left; reflexivity
                                       | right; split; eexists; reflexivity ]).
  cbn [SFsub]. rewrite (Z.min_comm ey ex).
  match goal with
  | |- oppSF (binary_normalize _ _ ?a _ _) (binary_normalize _ _ ?b _ _) =>
      replace a with (- b)%Z by lia
  end.
  apply binary_normalize_opp.
Qed.

Lemma SFmul_comm x y : SFmul prec emax x y = SFmul prec emax y x.
Proof.
  destruct x as [sx|sx| |sx mx ex], y as [sy|sy| |sy my ey]; simpl;
    rewrite ?(xorb_comm sx sy); try reflexivity.
  now rewrite (Pos.mul_comm mx my), (Z.add_comm ex ey).
Qed.

Lemma SFmul_opp_r x y : SFmul prec emax x (SFopp y) = SFopp (SFmul prec emax x y).
Proof.
  destruct x as [sx|sx| |sx mx ex], y as [sy|sy| |sy my ey]; simpl;
    rewrite <- ?negb_xorb_r; try reflexivity.
  apply binary_round_aux_negb.
Qed.

Lemma SFmul_oppSF x a b : oppSF a b -> oppSF (SFmul prec emax x a) (SFmul prec emax x b).
Proof.
  intros [->|[[s ->] [s' ->]]].
  - left. apply SFmul_opp_r.
  - destruct x as [sx|sx| |sx mx ex]; simpl;
      first [ right; split; eexists; reflexivity | left; reflexivity ].
Qed.

Lemma SFdiv_oppSF a b c : oppSF a b -> oppSF (SFdiv prec emax a c) (SFdiv prec emax b c).
Proof.
  intros [->|[[s ->] [s' ->]]].
  - left.
    destruct b as [sb|sb| |sb mb eb], c as [sc|sc| |sc mc ec]; simpl;
      rewrite <- ?negb_xorb_l; try reflexivity.
    destruct (SFdiv_core_binary prec emax (Z.pos mb) eb (Z.pos mc) ec) as [[mz ez] lz].
    apply binary_round_aux_negb.
  - destruct c as [sc|sc| |sc mc ec]; simpl;
      first [ right; split; eexists; reflexivity | left; reflexivity ].
Qed.

Lemma SFadd_opp x y :
  oppSF (SFadd prec emax (SFopp x) (SFopp y)) (SFadd prec emax x y).
Proof.
  destruct x as [sx|sx| |sx mx ex], y as [sy|sy| |sy my ey];
    try (left; simpl; rewrite ?negb_involutive; reflexivity);
    try (destruct sx, sy; simpl; first [ left; reflexivity
                                       | right; split; eexists; reflexivity ]).
  cbn [SFadd SFopp].
  match goal with
  | |- oppSF (binary_normalize _ _ ?a _ _) (binary_normalize _ _ ?b _ _) =>
      replace a with (- b)%Z by (destruct sx, sy; cbn [cond_Zopp negb]; lia)
  end.
  apply binary_normalize_opp.
Qed.

Lemma SFadd_zero_r x s s' :
  oppSF (SFadd prec emax (SFopp x) (S754_zero s)) (SFadd prec emax x (S754_zero s')).
Proof.
  destruct x as [sx|sx| |sx mx ex]; simpl; try (left; reflexivity).
  destruct sx, s, s'; simpl; right; split; eexists; reflexivity.
Qed.

Lemma SFadd_zero_l x s s' :
  oppSF (SFadd prec emax (S754_zero s) (SFopp x)) (SFadd prec emax (S754_zero s') x).
Proof.
  destruct x as [sx|sx| |sx mx ex]; simpl; try (left; reflexivity).
  destruct sx, s, s'; simpl; right; split; eexists; reflexivity.
Qed.

Lemma SFadd_oppSF a b a' b' :
  oppSF a b -> oppSF a' b' ->
  oppSF (SFadd prec emax a a') (SFadd prec emax b b').
Proof.
  intros [->|[[s ->] [t ->]]] [->|[[s' ->] [t' ->]]].
  - apply SFadd_opp.
  - apply SFadd_zero_r.
  - apply SFadd_zero_l.
  - right. destruct s, s', t, t'; simpl; split; eexists; reflexivity.
Qed.

Lemma SFabs_oppSF a b : oppSF a b -> SFabs a = SFabs b.
Proof.
  intros [->|[[s ->] [t ->]]]; [|reflexivity].
  destruct b; reflexivity.
Qed.
End Symmetry.

Lemma is_zero_spec (a : float) : is_zero a = true <-> zeroSF (Prim2SF a).
Proof.
  unfold is_zero. rewrite eqb_spec.
  change (Prim2SF zero) with (S754_zero false).
  unfold SFeqb, zeroSF. destruct (Prim2SF a) as [s|s| |s m e]; simpl.
  - split; [intros _; now exists s | reflexivity].
  - destruct s; split; try discriminate; intros [t H]; discriminate.
  - split; try discriminate; intros [t H]; discriminate.
  - destruct s; split; try discriminate; intros [t H]; discriminate.
Qed.

Lemma opposite_spec (a b : float) :
  Double.opposite a b <-> oppSF (Prim2SF a) (Prim2SF b).
Proof.
  unfold Double.opposite, oppSF. rewrite !is_zero_spec.
  split; (intros [H|H]; [left | now right]).
  - now rewrite H, opp_spec.
  - apply Prim2SF_inj. now rewrite opp_spec.
Qed.

Section FloatSymmetry.
Local Open Scope float_scope.

Lemma mul_comm (a b : float) : a * b = b * a.
Proof. apply Prim2SF_inj. rewrite !mul_spec. apply SFmul_comm. Qed.

Lemma sub_opposite (p q : float) : Double.opposite (q - p) (p - q).
Proof. apply opposite_spec. rewrite !sub_spec. apply SFsub_anti. Qed.

Lemma mul_opposite (x a b : float) :
  Double.opposite a b -> Double.opposite (x * a) (x * b).
Proof.
  rewrite !opposite_spec, !mul_spec. apply SFmul_oppSF.
Qed.

Lemma add_opposite (a b a' b' : float) :
  Double.opposite a b -> Double.opposite a' b' -> Double.opposite (a + a') (b + b').
Proof.
  rewrite !opposite_spec, !add_spec. apply SFadd_oppSF.
Qed.

Lemma div_opposite (a b c : float) :
  Double.opposite a b -> Double.opposite (a / c) (b / c).
Proof.
  rewrite !opposite_spec, !div_spec. apply SFdiv_oppSF.
Qed.

Lemma abs_opposite (a b : float) : Double.opposite a b -> abs a = abs b.
Proof.
  rewrite opposite_spec. intros H. apply Prim2SF_inj.
  rewrite !abs_spec. now apply SFabs_oppSF.
Qed.

Lemma opposite_zero : Double.opposite 0 0.
Proof. right. split; reflexivity. Qed.

(** Exchanging the last two corners negates the term of a triangle. *)
Lemma signedVolume_swap12_opposite (a b c : Double.Vector3) :
  Double.opposite (Double.signedVolumeOfTriangle a c b)
                  (Double.signedVolumeOfTriangle a b c).
Proof.
  unfold Double.signedVolumeOfTriangle, Double.dot, Double.crossVectors.
  cbn [Double.x3 Double.y3 Double.z3].
  apply div_opposite.
  repeat apply add_opposite; apply mul_opposite.
  - rewrite (mul_comm (Double.y3 b) (Double.z3 c)), (mul_comm (Double.z3 b) (Double.y3 c)).
    apply sub_opposite.
  - rewrite (mul_comm (Double.z3 b) (Double.x3 c)), (mul_comm (Double.x3 b) (Double.z3 c)).
    apply sub_opposite.
  - rewrite (mul_comm (Double.x3 b) (Double.y3 c)), (mul_comm (Double.y3 b) (Double.x3 c)).
    apply sub_opposite.
Qed.
End FloatSymmetry.

(** ** The volume loops on doubles *)

Section DoubleLoops.
Context {M : Type} {WT : Double.WorldTransform M}.
Variable worldMatrix : M.

Lemma double_foldTriangles_NaN (A : Type) (look : A -> option Double.Vector3) (l : list A) :
  Double.foldTriangles (Double.triangleBody look worldMatrix) l None = None.
Proof.
  induction l as [| | |a b c rest IH] using triangle_list_ind; simpl; auto.
Qed.

(** The loop from counter [i] is the fold over what the buffer holds
    from [i] on, as soon as the fuel covers that remainder. *)
Lemma forStep_foldTriangles (A : Type) (buf : list A)
      (body : nat -> Double.num -> Double.num)
      (f : A -> A -> A -> Double.num -> Double.num) :
  (forall k a b c vol,
      nth_error buf k = Some a -> nth_error buf (k + 1) = Some b ->
      nth_error buf (k + 2) = Some c -> body k vol = f a b c vol) ->
  (forall k vol,
      nth_error buf (k + 1) = None \/ nth_error buf (k + 2) = None ->
      body k vol = None) ->
  forall fuel i vol,
    (length (skipn i buf) <= fuel)%nat ->
    forStep 3 fuel i (length buf) body vol = Double.foldTriangles f (skipn i buf) vol.
Proof.
  intros Hfull Hpart.
  induction fuel as [|fuel IH]; intros i vol Hfuel.
  - simpl. destruct (skipn i buf); [reflexivity | simpl in Hfuel; lia].
  - simpl. destruct (Nat.ltb_spec i (length buf)) as [Hlt|Hge].
    + assert (Hs3 : skipn (i + 3) buf = skipn 3 (skipn i buf))
        by (rewrite skipn_skipn; f_equal; lia).
      assert (Hn0 : nth_error buf i = nth_error (skipn i buf) 0)
        by (rewrite nth_error_skipn; f_equal; lia).
      assert (Hn1 : nth_error buf (i + 1) = nth_error (skipn i buf) 1)
        by (rewrite nth_error_skipn; f_equal; lia).
      assert (Hn2 : nth_error buf (i + 2) = nth_error (skipn i buf) 2)
        by (rewrite nth_error_skipn; f_equal; lia).
      rewrite IH by (rewrite Hs3, length_skipn; lia).
      rewrite Hs3.
      destruct (skipn i buf) as [|a [|b [|c rest]]] eqn:Hs; simpl in *.
      * apply (f_equal (@length A)) in Hs. rewrite length_skipn in Hs. simpl in Hs. lia.
      * rewrite Hpart by (left; exact Hn1). reflexivity.
      * rewrite Hpart by (right; exact Hn2). reflexivity.
      * rewrite (Hfull i a b c) by assumption. reflexivity.
    + rewrite skipn_all2 by lia. reflexivity.
Qed.

Lemma double_indexedBody_loop (pos : list Double.Vector3) (idx : list nat) (vol : Double.num) :
  forStep 3 (length idx) 0 (length idx) (Double.indexedBody pos idx worldMatrix) vol
  = Double.foldTriangles (Double.triangleBody (Double.vertexAt pos) worldMatrix) idx vol.
Proof.
  change idx with (skipn 0 idx) at 4.
  apply forStep_foldTriangles.
  - intros k a b c v Ha Hb Hc. unfold Double.indexedBody, Double.triangleBody.
    rewrite Ha, Hb, Hc. reflexivity.
  - intros k v [H|H]; unfold Double.indexedBody; rewrite H;
      destruct v; simpl; try reflexivity;
      destruct (nth_error idx k); simpl; try reflexivity;
      destruct (nth_error idx (k + 1)); reflexivity.
  - simpl. lia.
Qed.

Lemma double_plainBody_loop (pos : list Double.Vector3) (vol : Double.num) :
  forStep 3 (length pos) 0 (length pos) (Double.plainBody pos worldMatrix) vol
  = Double.foldTriangles (Double.triangleBody (@Some Double.Vector3) worldMatrix) pos vol.
Proof.
  change pos with (skipn 0 pos) at 4.
  apply forStep_foldTriangles.
  - intros k a b c v Ha Hb Hc. unfold Double.plainBody, Double.triangleBody, Double.vertexAt.
    rewrite Ha, Hb, Hc. reflexivity.
  - intros k v [H|H]; unfold Double.plainBody, Double.vertexAt; rewrite H;
      destruct v; simpl; try reflexivity;
      destruct (nth_error pos k); simpl; try reflexivity;
      destruct (nth_error pos (k + 1)); reflexivity.
  - simpl. lia.
Qed.

Let world (v : Double.Vector3) : Double.Vector3 := Double.applyMatrix4 v worldMatrix.

(** On whole triangles whose corners are all found, the fold adds the
    term of each triangle to the running volume, in order. *)
Lemma double_foldTriangles_sum (A : Type) (look : A -> option Double.Vector3) (l : list A) :
  forall vs acc,
    Forall2 (fun a v => look a = Some v) l vs ->
    (length vs mod 3 = 0)%nat ->
    Double.foldTriangles (Double.triangleBody look worldMatrix) l (Some acc)
    = Some (fold_left PrimFloat.add (map Double.tetrahedron (triples (map world vs))) acc).
Proof.
  induction l as [| | |a b c rest IH] using triangle_list_ind;
    intros vs acc Hall Hmod.
  - inversion Hall; subst. reflexivity.
  - inversion Hall as [|? v0 ? vs0 _ Hrest]; subst.
    inversion Hrest; subst. discriminate Hmod.
  - inversion Hall as [|? v0 ? vs0 _ Hrest]; subst.
    inversion Hrest as [|? v1 ? vs1 _ Hrest']; subst.
    inversion Hrest'; subst. discriminate Hmod.
  - inversion Hall as [|? v0 ? vs0 Ha Hrest]; subst.
    inversion Hrest as [|? v1 ? vs1 Hb Hrest']; subst.
    inversion Hrest' as [|? v2 ? vs2 Hc Hrest'']; subst.
    simpl. rewrite Ha, Hb, Hc. simpl.
    rewrite (IH vs2 _ Hrest''); [reflexivity|].
    change (length (v0 :: v1 :: v2 :: vs2)) with (3 + length vs2)%nat in Hmod.
    rewrite Nat.add_comm in Hmod. replace 3%nat with (1 * 3)%nat in Hmod by reflexivity.
    rewrite Nat.Div0.mod_add in Hmod. exact Hmod.
Qed.

Lemma double_lookupAll_Forall2 (pos : list Double.Vector3) (idx : list nat) :
  forall vs, Double.lookupAll pos idx = Some vs ->
             Forall2 (fun i v => Double.vertexAt pos i = Some v) idx vs.
Proof.
  induction idx as [|i rest IH]; intros vs H; simpl in H.
  - injection H as <-. constructor.
  - destruct (nth_error pos i) as [v|] eqn:Hv; [|discriminate].
    simpl in H. destruct (Double.lookupAll pos rest) as [vs'|]; [|discriminate].
    injection H as <-. constructor; [exact Hv | apply IH; reflexivity].
Qed.

Lemma double_Forall2_Some (l : list Double.Vector3) :
  Forall2 (fun a v => Some a = Some v) l l.
Proof. induction l; constructor; auto. Qed.

(** With the last two corners of every triangle exchanged, the running
    volume is the negated one at every step. *)
Lemma double_foldTriangles_swap12 (A : Type) (look : A -> option Double.Vector3)
      (l : list A) :
  forall sel v v',
    (forall k, sel k = Swap12) ->
    Double.opposite v' v ->
    Double.numOpposite
      (Double.foldTriangles (Double.triangleBody look worldMatrix)
                            (reverseTriples sel l) (Some v'))
      (Double.foldTriangles (Double.triangleBody look worldMatrix) l (Some v)).
Proof.
  induction l as [| | |a b c rest IH] using triangle_list_ind; intros sel v v' Hsel Hv;
    try (simpl; auto; fail).
  cbn [reverseTriples]. rewrite Hsel.
  cbn [swapCorners app Double.foldTriangles Double.triangleBody bind].
  destruct (look a), (look b), (look c); cbn [bind];
    try (rewrite !double_foldTriangles_NaN; exact I).
  apply IH; [intros k; apply Hsel|].
  apply add_opposite; [exact Hv | apply signedVolume_swap12_opposite].
Qed.
End DoubleLoops.

(** ** The volume estimator on doubles *)

(** C1 (as the code has it).  For a mesh whose buffer is a triangle list
    (whole triples, every index naming a vertex), the volume estimator
    returns the sum, accumulated from 0 in buffer order, of
    dot(v0, cross(v1, v2)) / 6 over the world-space triangles, every
    operation rounded to a double. *)
Theorem calculateMeshVolume_running_sum
    {M : Type} {WT : Double.WorldTransform M} (mesh : Double.Object3D M)
    (g : Double.BufferGeometry) (vs : list Double.Vector3) :
  Double.geometry mesh = Some g ->
  Double.vertexSequence g = Some vs ->
  (length vs mod 3 = 0)%nat ->
  Double.calculateMeshVolume mesh
  = Some (Double.runningSum
            (map Double.tetrahedron
                 (triples (map (fun v => Double.applyMatrix4 v (Double.matrixWorld mesh))
                               vs)))).
Proof.
  intros Hg Hvs Hmod.
  unfold Double.calculateMeshVolume, Double.vertexSequence, Double.runningSum in *.
  rewrite Hg. destruct (Double.position g) as [pos|]; [|discriminate].
  simpl in Hvs. destruct (Double.index g) as [idx|].
  - rewrite double_indexedBody_loop.
    apply double_foldTriangles_sum; [apply double_lookupAll_Forall2; exact Hvs | exact Hmod].
  - injection Hvs as <-. rewrite double_plainBody_loop.
    apply double_foldTriangles_sum; [apply double_Forall2_Some | exact Hmod].
Qed.

Lemma calculateMeshVolume_running_sum_witness :
  Double.geometry (tetrahedronAt 0)
  = Some (Double.Geometry (Some tetrahedronPositions) (Some tetrahedronIndex))
  /\ Double.vertexSequence
       (Double.Geometry (Some tetrahedronPositions) (Some tetrahedronIndex))
     = Some (map (fun i => nth i tetrahedronPositions (Double.Vec3 0 0 0)) tetrahedronIndex)
  /\ (length (map (fun i => nth i tetrahedronPositions (Double.Vec3 0 0 0))
                  tetrahedronIndex) mod 3 = 0)%nat
  /\ Double.calculateMeshVolume (tetrahedronAt 0) = Some 16%float.
Proof.
  split; [reflexivity|]. split; [reflexivity|]. split; [reflexivity|].
  rewrite (@calculateMeshVolume_running_sum _ _ (tetrahedronAt 0)
             (Double.Geometry (Some tetrahedronPositions) (Some tetrahedronIndex))
             (map (fun i => nth i tetrahedronPositions (Double.Vec3 0 0 0)) tetrahedronIndex)
             eq_refl eq_refl eq_refl).
  vm_compute. reflexivity.
Defined.

(** C1 does not hold as stated.  A mesh with a position attribute and 4
    indices gives NaN, not the term of its one whole triangle; and for the
    tetrahedron of volume 16 moved by 1e9 along each axis the estimator
    returns 6666666666.666667, where the sum of dot(v0, cross(v1, v2)) / 6
    over its world-space triangles is 16. *)
Lemma calculateMeshVolume_not_the_sum :
  (Double.calculateMeshVolume danglingTriangle = None
   /\ Double.runningSum
        (map Double.tetrahedron
             (triples (map (fun v => Double.applyMatrix4 v (Double.makeTranslation 0 0 0))
                           (firstn 3 (skipn 1 tetrahedronPositions)))))
      = 16%float)
  /\ (Double.calculateMeshVolume (tetrahedronAt 1e9) = Some 6666666666.666667%float
      /\ Qsum (map tetrahedron
                   (triples (map (fun i => toQ3 (Double.applyMatrix4
                                                   (nth i tetrahedronPositions
                                                        (Double.Vec3 0 0 0))
                                                   (Double.makeTranslation 1e9 1e9 1e9)))
                                 tetrahedronIndex)))
         == 16).
Proof.
  split; split; vm_compute; reflexivity.
Qed.

(** C7 (as the code has it).  Reversing every triangle by exchanging its
    last two corners negates what the volume estimator returns, exactly
    (a zero may keep its sign), and leaves its absolute value as it was;
    a NaN result stays NaN. *)
Theorem reverseWinding_last_two_negates
    {M : Type} {WT : Double.WorldTransform M} (mesh : Double.Object3D M) :
  Double.numOpposite
    (Double.calculateMeshVolume (Double.reverseWinding (fun _ => Swap12) mesh))
    (Double.calculateMeshVolume mesh)
  /\ option_map abs (Double.calculateMeshVolume
                       (Double.reverseWinding (fun _ => Swap12) mesh))
     = option_map abs (Double.calculateMeshVolume mesh).
Proof.
  assert (Hneg : Double.numOpposite
                   (Double.calculateMeshVolume
                      (Double.reverseWinding (fun _ => Swap12) mesh))
                   (Double.calculateMeshVolume mesh)).
  { destruct mesh as [b [g|] m cs]; [|simpl; apply opposite_zero].
    unfold Double.calculateMeshVolume, Double.reverseWinding, Double.reverseGeometry. simpl.
    destruct (Double.index g) as [idx|] eqn:Hidx; simpl.
    - destruct (Double.position g) as [pos|]; [|apply opposite_zero].
      rewrite !double_indexedBody_loop.
      apply double_foldTriangles_swap12; [reflexivity | apply opposite_zero].
    - destruct (Double.position g) as [pos|]; [|apply opposite_zero]. simpl.
      rewrite !double_plainBody_loop.
      apply double_foldTriangles_swap12; [reflexivity | apply opposite_zero]. }
  split; [exact Hneg|].
  destruct (Double.calculateMeshVolume (Double.reverseWinding (fun _ => Swap12) mesh)) as [p|],
           (Double.calculateMeshVolume mesh) as [q|]; simpl in *; try tauto.
  f_equal. now apply abs_opposite.
Qed.

(** C7 does not hold as stated.  For the tetrahedron moved by 1e9 along
    each axis the estimator returns 6666666666.666667; with the first two
    corners of every triangle exchanged it returns 3999999999.999999:
    neither the negated value nor the same absolute value. *)
Lemma reverseWinding_does_not_negate :
  Double.calculateMeshVolume (tetrahedronAt 1e9) = Some 6666666666.666667%float
  /\ Double.calculateMeshVolume (Double.reverseWinding (fun _ => Swap01) (tetrahedronAt 1e9))
     = Some 3999999999.999999%float
  /\ ~ Double.opposite 3999999999.999999%float 6666666666.666667%float
  /\ abs 3999999999.999999%float <> abs 6666666666.666667%float.
Proof.
  split; [vm_compute; reflexivity|]. split; [vm_compute; reflexivity|]. split.
  - intros [H|[H _]]; [|vm_compute in H; discriminate].
    apply (f_equal Prim2SF) in H. vm_compute in H. discriminate.
  - intros H. apply (f_equal Prim2SF) in H. vm_compute in H. discriminate.
Qed.

(** ** The polygon area on doubles *)

Lemma double_cyclicPairs_by_index (poly : list Double.Vector2) :
  map (fun i => (Double.at2 poly i, Double.at2 poly ((i + 1) mod length poly)%nat))
      (seq 0 (length poly))
  = Double.cyclicPairs poly.
Proof.
  unfold Double.cyclicPairs. destruct poly as [|p0 rest]; [reflexivity|].
  set (poly := p0 :: rest). set (n := length poly).
  assert (Hn : n = S (length rest)) by reflexivity.
  assert (Hlen : length (tl poly ++ firstn 1 poly) = n)
    by (subst poly; simpl; rewrite length_app; simpl; lia).
  apply nth_ext with (d := (Double.origin2, Double.origin2))
                     (d' := (Double.origin2, Double.origin2)).
  - rewrite length_map, length_seq, length_combine, Hlen. fold n. lia.
  - intros i Hi. rewrite length_map, length_seq in Hi.
    rewrite combine_nth by (rewrite Hlen; reflexivity).
    rewrite nth_indep
      with (d' := (Double.at2 poly 0, Double.at2 poly ((0 + 1) mod n)%nat))
      by (rewrite length_map, length_seq; exact Hi).
    rewrite (map_nth (fun i => (Double.at2 poly i, Double.at2 poly ((i + 1) mod n)%nat))).
    rewrite seq_nth by exact Hi. rewrite !Nat.add_0_l.
    unfold Double.at2. f_equal.
    destruct (Nat.eq_dec (i + 1) n) as [Hlast|Hin].
    + rewrite Hlast, Nat.Div0.mod_same.
      rewrite app_nth2 by (subst poly; simpl; lia).
      replace (i - length (tl poly))%nat with 0%nat by (subst poly; simpl; lia).
      reflexivity.
    + rewrite Nat.mod_small by lia.
      rewrite app_nth1 by (subst poly; simpl; lia).
      subst poly. simpl tl. replace (i + 1)%nat with (S i) by lia. reflexivity.
Qed.

Lemma fold_left_map_step (A B S : Type) (f : A -> B) (F : S -> B -> S) (l : list A) :
  forall acc, fold_left F (map f l) acc = fold_left (fun s a => F s (f a)) l acc.
Proof. induction l as [|a l IH]; intros acc; simpl; [reflexivity | apply IH]. Qed.

(** C9 (as the code has it).  The polygon-area function returns half of
    the shoelace sum accumulated around the cyclically closed boundary in
    double arithmetic: for each edge the product x_i * y_(i+1) added, then
    x_(i+1) * y_i subtracted, every step rounded.  For the 10 x 10 square
    at the origin that is 100. *)
Theorem calculateShapeArea_rounded_shoelace :
  (forall poly : list Double.Vector2,
      Double.calculateShapeArea poly = Double.shoelace poly)
  /\ Double.calculateShapeArea (squareAt 0) = 100%float.
Proof.
  split; [|vm_compute; reflexivity].
  intros poly. unfold Double.calculateShapeArea, Double.shoelace.
  rewrite <- double_cyclicPairs_by_index, fold_left_map_step.
  reflexivity.
Qed.

(** C9 does not hold as stated.  For the 10 x 10 square at (1e9, 1e9)
    the function returns 128, where the shoelace value of those four
    points is 100. *)
Lemma calculateShapeArea_not_the_shoelace_value :
  Double.calculateShapeArea (squareAt 1e9) = 128%float
  /\ shoelace (map toQ2 (squareAt 1e9)) == 100.
Proof. split; vm_compute; reflexivity. Qed.

(** ** The base fill on doubles *)




(** ** The hull builder on doubles, when rounding changes no decision *)

Lemma comparison_eqb_eq (c c' : comparison) : comparison_eqb c c' = true -> c = c'.
Proof. destruct c, c'; simpl; intros H; try reflexivity; discriminate. Qed.

Section Simulation.
Context {libm : Double.MathAtan2}.
Variable points : list Double.Vector2.
Hypothesis exact : exactDecisions points.

Lemma exact_lowerLeft p q :
  In p points -> In q points -> Double.lowerLeft p q = lowerLeft (toQ2 p) (toQ2 q).
Proof.
  intros Hp Hq. unfold exactDecisions, exactDecisionsb in exact.
  apply andb_true_iff in exact. destruct exact as [H _].
  apply andb_true_iff in H. destruct H as [H _].
  apply andb_true_iff in H. destruct H as [_ H].
  rewrite forallb_forall in H. specialize (H p Hp).
  rewrite forallb_forall in H. specialize (H q Hq).
  now apply eqb_prop.
Qed.

Lemma exact_compareFn a b :
  In a points -> In b points ->
  Double.compareFn (Double.at2 points (Double.findStart points)) a b
  = compareFn (toQ2 (Double.at2 points (Double.findStart points))) (toQ2 a) (toQ2 b).
Proof.
  intros Ha Hb. unfold exactDecisions, exactDecisionsb in exact.
  apply andb_true_iff in exact. destruct exact as [H _].
  apply andb_true_iff in H. destruct H as [_ H].
  rewrite forallb_forall in H. specialize (H a Ha).
  rewrite forallb_forall in H. specialize (H b Hb).
  now apply comparison_eqb_eq.
Qed.

Lemma exact_crossProduct o a b :
  In o points -> In a points -> In b points ->
  PrimFloat.leb (Double.crossProduct o a b) 0%float
  = Qle_bool (crossProduct (toQ2 o) (toQ2 a) (toQ2 b)) 0.
Proof.
  intros Ho Ha Hb. unfold exactDecisions, exactDecisionsb in exact.
  apply andb_true_iff in exact. destruct exact as [_ H].
  rewrite forallb_forall in H. specialize (H o Ho).
  rewrite forallb_forall in H. specialize (H a Ha).
  rewrite forallb_forall in H. specialize (H b Hb).
  now apply eqb_prop.
Qed.

Lemma at2_toQ2 (l : list Double.Vector2) i :
  (i < length l)%nat -> at2 (map toQ2 l) i = toQ2 (Double.at2 l i).
Proof.
  intros H. unfold at2, Double.at2.
  rewrite (nth_indep _ origin2 (toQ2 Double.origin2)) by (now rewrite length_map).
  apply map_nth.
Qed.

Lemma double_at2_In (l : list Double.Vector2) i :
  (i < length l)%nat -> In (Double.at2 l i) l.
Proof. intros H. unfold Double.at2. now apply nth_In. Qed.

Lemma findStart_loop_toQ2 :
  forall s start,
    (start < length points)%nat ->
    Forall (fun i => (i < length points)%nat) s ->
    fold_left (fun start i => if lowerLeft (at2 (map toQ2 points) i)
                                           (at2 (map toQ2 points) start)
                              then i else start) s start
    = fold_left (fun start i => if Double.lowerLeft (Double.at2 points i)
                                                    (Double.at2 points start)
                                then i else start) s start.
Proof.
  induction s as [|i s IH]; intros start Hs Hall; simpl; [reflexivity|].
  inversion Hall as [|? ? Hi Hrest]; subst.
  rewrite !at2_toQ2 by assumption.
  rewrite <- exact_lowerLeft by (apply double_at2_In; assumption).
  destruct (Double.lowerLeft (Double.at2 points i) (Double.at2 points start));
    apply IH; assumption.
Qed.

Lemma findStart_toQ2 : findStart (map toQ2 points) = Double.findStart points.
Proof.
  unfold findStart, Double.findStart. rewrite length_map.
  destruct (Nat.eq_dec (length points) 0) as [E|E].
  - rewrite E. reflexivity.
  - apply findStart_loop_toQ2; [lia|].
    apply Forall_forall. intros i Hi. apply in_seq in Hi. lia.
Qed.

Lemma double_findStart_bound : points <> [] -> (Double.findStart points < length points)%nat.
Proof.
  intros Hne. rewrite <- findStart_toQ2, <- (length_map toQ2).
  apply findStart_spec. destruct points; [congruence | discriminate].
Qed.
End Simulation.

Lemma update_toQ2 (l : list Double.Vector2) i v :
  update (map toQ2 l) i (toQ2 v) = map toQ2 (Double.update l i v).
Proof.
  revert i. induction l as [|p rest IH]; intros [|i]; simpl; try reflexivity.
  now rewrite IH.
Qed.

Lemma swapToFront_toQ2 (l : list Double.Vector2) start :
  (start < length l)%nat ->
  swapToFront (map toQ2 l) start = map toQ2 (Double.swapToFront l start).
Proof.
  intros Hs. unfold swapToFront, Double.swapToFront.
  rewrite !at2_toQ2 by lia. now rewrite !update_toQ2.
Qed.

Lemma double_In_update (l : list Double.Vector2) i v x :
  In x (Double.update l i v) -> x = v \/ In x l.
Proof.
  revert i. induction l as [|p rest IH]; intros [|i]; simpl; try tauto.
  - intros [H|H]; auto.
  - intros [H|H]; auto. destruct (IH _ H); auto.
Qed.

Lemma double_swapToFront_spec (l : list Double.Vector2) start :
  (start < length l)%nat ->
  exists rest, Double.swapToFront l start = Double.at2 l start :: rest
               /\ forall x, In x rest -> In x l.
Proof.
  intros Hs. unfold Double.swapToFront, Double.at2.
  destruct l as [|p0 rest]; [simpl in Hs; lia|].
  destruct start as [|k]; simpl.
  - exists rest. split; [reflexivity | intros x Hx; now right].
  - exists (Double.update rest k p0). split; [reflexivity|].
    intros x Hx. destruct (double_In_update _ _ _ _ Hx) as [->|H]; [now left | now right].
Qed.

Lemma double_insertSorted_In cmp a l x :
  In x (Double.insertSorted cmp a l) -> x = a \/ In x l.
Proof.
  induction l as [|b l IH]; simpl.
  - intros [H|[]]; auto.
  - destruct (cmp a b); simpl; intros [H|H]; auto.
    destruct (IH H); auto.
Qed.

Lemma double_sort_In cmp l x : In x (Double.sort cmp l) -> In x l.
Proof.
  induction l as [|a l IH]; simpl; [tauto|].
  intros H. destruct (double_insertSorted_In _ _ _ _ H); auto.
Qed.

Lemma double_popWhile_In p S x : In x (Double.popWhile p S) -> In x S.
Proof.
  induction S as [|t S IH]; [tauto|].
  destruct S as [|u S]; [tauto|].
  change (Double.popWhile p (t :: u :: S))
    with (if PrimFloat.leb (Double.crossProduct u t p) 0%float
          then Double.popWhile p (u :: S) else t :: u :: S).
  destruct (PrimFloat.leb (Double.crossProduct u t p) 0%float); [|tauto].
  intros H. right. now apply IH.
Qed.

Section Scan.
Context {libm : Double.MathAtan2}.
Variable points : list Double.Vector2.
Hypothesis exact : exactDecisions points.

Let pivot := Double.at2 points (Double.findStart points).

Lemma insertSorted_toQ2 a l :
  In a points -> (forall b, In b l -> In b points) ->
  insertSorted (compareFn (toQ2 pivot)) (toQ2 a) (map toQ2 l)
  = map toQ2 (Double.insertSorted (Double.compareFn pivot) a l).
Proof.
  intros Ha. induction l as [|b l IH]; intros Hl; simpl; [reflexivity|].
  unfold pivot. rewrite <- (exact_compareFn exact) by (auto; apply Hl; now left).
  fold pivot.
  destruct (Double.compareFn pivot a b); simpl; try reflexivity.
  rewrite IH; [reflexivity|]. intros c Hc. apply Hl. now right.
Qed.

Lemma sort_toQ2 l :
  (forall b, In b l -> In b points) ->
  sort (compareFn (toQ2 pivot)) (map toQ2 l)
  = map toQ2 (Double.sort (Double.compareFn pivot) l).
Proof.
  induction l as [|a l IH]; intros Hl; simpl; [reflexivity|].
  rewrite IH by (intros b Hb; apply Hl; now right).
  apply insertSorted_toQ2; [apply Hl; now left|].
  intros b Hb. apply Hl. right. now apply double_sort_In in Hb.
Qed.

Lemma popWhile_toQ2 p S :
  In p points -> (forall x, In x S -> In x points) ->
  popWhile (toQ2 p) (map toQ2 S) = map toQ2 (Double.popWhile p S).
Proof.
  intros Hp. induction S as [|t S IH]; intros HS; [reflexivity|].
  destruct S as [|u S]; [reflexivity|].
  change (Double.popWhile p (t :: u :: S))
    with (if PrimFloat.leb (Double.crossProduct u t p) 0%float
          then Double.popWhile p (u :: S) else t :: u :: S).
  change (popWhile (toQ2 p) (map toQ2 (t :: u :: S)))
    with (if Qle_bool (crossProduct (toQ2 u) (toQ2 t) (toQ2 p)) 0
          then popWhile (toQ2 p) (map toQ2 (u :: S))
          else map toQ2 (t :: u :: S)).
  rewrite <- (exact_crossProduct exact)
    by (auto; apply HS; simpl; auto).
  destruct (PrimFloat.leb (Double.crossProduct u t p) 0%float); [|reflexivity].
  apply IH. intros x Hx. apply HS. now right.
Qed.

Lemma scan_toQ2 l :
  forall S,
    (forall x, In x l -> In x points) -> (forall x, In x S -> In x points) ->
    fold_left (fun hull point => point :: popWhile point hull) (map toQ2 l) (map toQ2 S)
    = map toQ2 (fold_left (fun hull point => point :: Double.popWhile point hull) l S).
Proof.
  induction l as [|p l IH]; intros S Hl HS; simpl; [reflexivity|].
  rewrite popWhile_toQ2 by (auto; apply Hl; now left).
  apply (IH (p :: Double.popWhile p S)).
  - intros x Hx. apply Hl. now right.
  - intros x [<-|Hx]; [apply Hl; now left|].
    apply HS. now apply double_popWhile_In in Hx.
Qed.

(** The hull on the doubles is the hull on the numbers they stand for:
    the same points, kept and dropped alike, in the same order. *)
Lemma computeConvexHull2D_toQ2 :
  map toQ2 (fst (Double.computeConvexHull2D points))
  = fst (computeConvexHull2D (map toQ2 points)).
Proof.
  unfold computeConvexHull2D, Double.computeConvexHull2D. rewrite length_map.
  destruct (Nat.ltb_spec (length points) 3) as [Hs|Hl]; [reflexivity|].
  assert (Hne : points <> []) by (destruct points; [simpl in Hl; lia | discriminate]).
  pose proof (double_findStart_bound exact Hne) as Hstart.
  rewrite (findStart_toQ2 exact), swapToFront_toQ2 by exact Hstart.
  destruct (double_swapToFront_spec points Hstart) as (rest & E & Hrest).
  rewrite E. cbn [map fst tl]. unfold at2, Double.at2 at 1 3. cbn [nth].
  fold (Double.at2 points (Double.findStart points)). fold pivot.
  unfold buildHull, Double.buildHull.
  rewrite sort_toQ2 by exact Hrest.
  rewrite (scan_toQ2 _ [pivot]).
  - now rewrite map_rev.
  - intros x Hx. apply Hrest. now apply double_sort_In in Hx.
  - intros x [<-|[]]. unfold pivot. now apply double_at2_In.
Qed.
End Scan.

(** ** Hull properties on doubles *)







(** ** The fill that is not needed, and the sign of the volume *)

Section Signs.
Variables prec emax : Z.

(** A product of two numbers that are not negative is not negative (it
    may be NaN). *)
Lemma SFmul_not_negative x y :
  SFltb x (S754_zero false) = false -> SFltb y (S754_zero false) = false ->
  SFltb (SFmul prec emax x y) (S754_zero false) = false.
Proof.
  destruct x as [sx|sx| |sx mx ex], y as [sy|sy| |sy my ey];
    try reflexivity;
    try (destruct sx; [discriminate|]); try (destruct sy; [discriminate|]);
    try reflexivity; intros _ _.
  cbn [SFmul xorb]. unfold binary_round_aux.
  destruct (shr_fexp prec emax (Z.pos (mx * my)) (ex + ey) loc_Exact) as [mrs e'].
  destruct (shr_fexp prec emax (round_nearest_even (shr_m mrs) (loc_of_shr_record mrs))
                     e' loc_Exact) as [mrs' e''].
  destruct (shr_m mrs'); try reflexivity.
  destruct (e'' <=? emax - prec)%Z; reflexivity.
Qed.
End Signs.

Lemma SFabs_not_negative x : SFltb (SFabs x) (S754_zero false) = false.
Proof. destruct x; reflexivity. Qed.

Lemma SFleb_positive_not_negative x s m e :
  SFleb x (S754_finite false m e) = false -> SFltb x (S754_zero s) = false.
Proof.
  destruct x as [sx|sx| |sx mx ex]; simpl; try reflexivity; try discriminate;
    destruct sx; simpl; try reflexivity; discriminate.
Qed.

Lemma SF_not_negative_cases x :
  SFltb x (S754_zero false) = false ->
  SFleb (S754_zero false) x = true \/ SFeqb x x = false.
Proof.
  destruct x as [sx|sx| |sx mx ex]; simpl.
  - now left.
  - destruct sx; [discriminate | now left].
  - now right.
  - destruct sx; [discriminate | now left].
Qed.

(** [Math.abs(area) * fillHeight], past the test [fillHeight <= 0.001]. *)
Lemma mul_abs_not_negative (a h : float) :
  (h <=? 0.001)%float = false ->
  (abs a * h <? 0)%float = false.
Proof.
  intros H. rewrite ltb_spec, mul_spec, abs_spec.
  rewrite leb_spec in H.
  apply SFmul_not_negative; [apply SFabs_not_negative|].
  destruct (Prim2SF 0.001%float) as [s|s| |s m e] eqn:E; try (vm_compute in E; discriminate E).
  assert (Hs : s = false) by (vm_compute in E; congruence).
  subst s. exact (SFleb_positive_not_negative _ false m e H).
Qed.

Lemma not_negative_cases (v : float) :
  (v <? 0)%float = false -> (0 <=? v)%float = true \/ is_nan v = true.
Proof.
  rewrite ltb_spec, leb_spec. unfold is_nan. rewrite eqb_spec.
  intros H. destruct (SF_not_negative_cases _ H) as [H'|H']; [now left|].
  right. now rewrite H'.
Qed.




(** X21.  On doubles, when the fill height Math.max(0, minimum elevation
    of the box) is <= 0.001, the literal of the source, no solid is
    returned and the volume is 0, whatever the footprint.  The box that
    starts at the double 0.001 is not filled; the one that starts at the
    next double is. *)
Theorem createBaseFill_nothing_to_fill_on_doubles :
  (forall (M : Type) (WT : Double.WorldTransform M) (libm : Double.MathAtan2)
          (model : Double.Object3D M) (bbox : Double.Box3),
      (Double.max 0 (Double.y3 (Double.bmin bbox)) <=? 0.001)%float = true ->
      Double.createBaseFill model bbox = Double.Result None 0)
  /\ @Double.createBaseFill _ _ Double.principalAtan2 (slabAt 0)
       (Double.Box (Double.Vec3 0 0.001 0) (Double.Vec3 10 3 10))
     = Double.Result None 0
  /\ Double.mesh (@Double.createBaseFill _ _ Double.principalAtan2 (slabAt 0)
                    (Double.Box (Double.Vec3 0 0x1.0624dd2f1a9fdp-10 0)
                                (Double.Vec3 10 3 10)))
     <> None.
Proof.
  split; [|split; [vm_compute; reflexivity | vm_compute; discriminate]].
  intros M WT libm model bbox Hfill. unfold Double.createBaseFill.
  destruct (length (Double.projectedPointsOf model) <? 3)%nat; [reflexivity|].
  destruct (length (fst (Double.computeConvexHull2D (Double.projectedPointsOf model)))
            <? 3)%nat; [reflexivity|].
  now rewrite Hfill.
Qed.

Lemma createBaseFill_nothing_to_fill_on_doubles_witness :
  (Double.max 0 (Double.y3 (Double.bmin
      (Double.Box (Double.Vec3 0 0.001 0) (Double.Vec3 10 3 10)))) <=? 0.001)%float = true
  /\ @Double.createBaseFill _ _ Double.principalAtan2 (slabAt 0)
       (Double.Box (Double.Vec3 0 0.001 0) (Double.Vec3 10 3 10))
     = Double.Result None 0.
Proof.
  assert (H : (Double.max 0 (Double.y3 (Double.bmin
                 (Double.Box (Double.Vec3 0 0.001 0) (Double.Vec3 10 3 10))))
               <=? 0.001)%float = true) by (vm_compute; reflexivity).
  split; [exact H|].
  pose proof createBaseFill_nothing_to_fill_on_doubles as V. destruct V as [V _].
  exact (V _ _ Double.principalAtan2 (slabAt 0)
           (Double.Box (Double.Vec3 0 0.001 0) (Double.Vec3 10 3 10)) H).
Defined.
